(** * safe_strings: a shallow embedding of [safe_strings.c]

    The growable byte string of [safe_strings.c] is embedded function by
    function.  A [string_t *] argument is an [option string_t] ([None] is the
    null pointer, [Some s] a pointer to a structure currently holding [s]);
    a function that mutates the structure returns the structure it leaves
    behind next to its result code.  [size_t] is the 64-bit unsigned type of
    an LP64 target, held in [Z] with every wrap-around written out.  A buffer
    is the list of its bytes; an access outside it is undefined behaviour in
    C and is a [Fault] here, as is a loop that never exits. *)

From Stdlib Require Import ZArith List Bool Lia.
From Stdlib Require Import Strings.Byte Strings.String.
Import ListNotations.
Local Open Scope Z_scope.

(** ** Machine integers *)

Definition SIZE_BITS : Z := 64.
Definition SIZE_MOD : Z := 2 ^ SIZE_BITS.
Definition SIZE_MAX : Z := SIZE_MOD - 1.

(** Reduction of an arithmetic result to [size_t]. *)
Definition to_size (z : Z) : Z := z mod SIZE_MOD.

Definition size_add (a b : Z) : Z := to_size (a + b).
Definition size_sub (a b : Z) : Z := to_size (a - b).
Definition size_mul (a b : Z) : Z := to_size (a * b).

Definition is_size (z : Z) : Prop := 0 <= z <= SIZE_MAX.

(** The constants of the header.  [safe_strings.c] includes
    [safe_strings.h]; the header at hand is [sstring.h], the same interface
    under the library's other name, and the specification states the same
    values. *)
Definition STRING_DEFAULT_CAPACITY : Z := 64.
Definition STRING_GROWTH_FACTOR : Z := 2.
Definition STRING_NPOS : Z := SIZE_MAX.

Inductive string_result_t : Type :=
| STRING_SUCCESS
| STRING_ERROR_NULL_POINTER
| STRING_ERROR_OUT_OF_MEMORY
| STRING_ERROR_INVALID_INDEX
| STRING_ERROR_BUFFER_TOO_SMALL
| STRING_ERROR_INVALID_ARGUMENT.

(** ** Executions

    A call either returns, or it has no defined result: it touched memory
    outside a buffer, or its loop never exits. *)

Inductive fault : Type :=
| OutOfBounds
| NoReturn.

Inductive exec (A : Type) : Type :=
| Done (a : A)
| Fault (f : fault).

Arguments Done {A} a.
Arguments Fault {A} f.

Definition bind {A B : Type} (m : exec A) (k : A -> exec B) : exec B :=
  match m with
  | Done a => k a
  | Fault f => Fault f
  end.

Notation "x <- m ;; k" := (bind m (fun x => k))
  (at level 61, m at next level, right associativity).

(** ** Buffers *)

Definition byte_val (b : byte) : Z := Z.of_N (Byte.to_N b).

Definition Zlen (buf : list byte) : Z := Z.of_nat (List.length buf).

Definition take (n : Z) (buf : list byte) : list byte := firstn (Z.to_nat n) buf.
Definition drop (n : Z) (buf : list byte) : list byte := skipn (Z.to_nat n) buf.

(** [n] bytes starting at offset [off] lie inside [buf]. *)
Definition in_bounds (buf : list byte) (off n : Z) : bool :=
  (0 <=? off) && (0 <=? n) && (off + n <=? Zlen buf).

(** The byte at offset [i] of a buffer that has one. *)
Definition get (buf : list byte) (i : Z) : byte := nth (Z.to_nat i) buf x00.

(** [buf[i]] *)
Definition load (buf : list byte) (i : Z) : exec byte :=
  if in_bounds buf i 1 then Done (get buf i) else Fault OutOfBounds.

(** [dst] with the [n] bytes from offset [doff] on replaced by [mid]. *)
Definition splice (dst : list byte) (doff : Z) (mid : list byte) (n : Z) : list byte :=
  take doff dst ++ mid ++ drop (doff + n) dst.

(** [buf[i] = b] *)
Definition store (buf : list byte) (i : Z) (b : byte) : exec (list byte) :=
  if in_bounds buf i 1 then Done (splice buf i [b] 1) else Fault OutOfBounds.

(** [memcpy(dst + doff, src + soff, n)]; the source is a buffer of its own. *)
Definition memcpy (dst : list byte) (doff : Z) (src : list byte) (soff n : Z)
  : exec (list byte) :=
  if in_bounds dst doff n && in_bounds src soff n
  then Done (splice dst doff (take n (drop soff src)) n)
  else Fault OutOfBounds.

(** [memmove(buf + doff, buf + soff, n)]: the bytes are read before any is
    written, so overlapping ranges are fine. *)
Definition memmove (buf : list byte) (doff soff n : Z) : exec (list byte) :=
  memcpy buf doff buf soff n.

(** Difference of the first pair of bytes that differ, as [unsigned char]. *)
Fixpoint bytes_diff (a b : list byte) : Z :=
  match a, b with
  | x :: a', y :: b' =>
      if Byte.eqb x y then bytes_diff a' b' else byte_val x - byte_val y
  | _, _ => 0
  end.

(** [memcmp(a, b, n)] *)
Definition memcmp (a b : list byte) (n : Z) : exec Z :=
  if in_bounds a 0 n && in_bounds b 0 n
  then Done (bytes_diff (take n a) (take n b))
  else Fault OutOfBounds.

(** [strcmp(a, b)]: stops at the first difference or at a zero byte common
    to both; running off either buffer first is out of bounds. *)
Fixpoint strcmp (a b : list byte) : exec Z :=
  match a, b with
  | x :: a', y :: b' =>
      if Byte.eqb x y
      then if Byte.eqb x x00 then Done 0 else strcmp a' b'
      else Done (byte_val x - byte_val y)
  | _, _ => Fault OutOfBounds
  end.

(** [isspace] in the "C" locale. *)
Definition isspace (c : byte) : bool :=
  let v := byte_val c in (v =? 32) || ((9 <=? v) && (v <=? 13)).

(** ** The allocator

    Whether a request is granted, and what the bytes it hands out hold, is
    not the program's to decide. *)

Record allocator : Type := {
  grants : Z -> bool;
  junk : Z -> byte
}.

Definition fresh (h : allocator) (from n : Z) : list byte :=
  map (fun i => junk h (from + Z.of_nat i)) (seq 0 (Z.to_nat n)).

Definition malloc (h : allocator) (n : Z) : option (list byte) :=
  if grants h n then Some (fresh h 0 n) else None.

(** [realloc(old, n)]: the old bytes up to [n] are kept. *)
Definition realloc (h : allocator) (old : list byte) (n : Z) : option (list byte) :=
  if grants h n then Some (take n old ++ fresh h (Zlen old) (n - Zlen old)) else None.

(** ** The structure *)

Record string_t : Type := {
  data : list byte;
  length : Z;
  capacity : Z;
  is_owner : bool
}.

Definition sizeof_string_t : Z := 32.

(** The logical content: the first [length] bytes. *)
Definition content (s : string_t) : list byte := take (length s) (data s).

(** The invariant of the data model. *)
Record wf (s : string_t) : Prop := {
  wf_cap : Zlen (data s) = capacity s;
  wf_len : 0 <= length s;
  wf_room : length s + 1 <= capacity s;
  wf_size : capacity s <= SIZE_MAX;
  wf_term : get (data s) (length s) = x00
}.

(** ** Internal helpers *)

(** The loop of [string_calculate_growth], run for at most [n] doublings. *)
Fixpoint growth_loop (n : nat) (new_capacity required_capacity : Z) : exec Z :=
  if new_capacity <? required_capacity
  then match n with
       | O => Fault NoReturn
       | S n' =>
           growth_loop n' (size_mul new_capacity STRING_GROWTH_FACTOR) required_capacity
       end
  else Done new_capacity.

(** After 64 doublings a 64-bit value is 0 and stays 0, so a loop that has
    not exited by then never does ([growth_loop_never_exits]). *)
Definition string_calculate_growth (current_capacity required_capacity : Z) : exec Z :=
  growth_loop (Z.to_nat SIZE_BITS) current_capacity required_capacity.

Definition string_ensure_capacity (h : allocator) (str : option string_t)
  (required_capacity : Z) : exec (string_result_t * option string_t) :=
  match str with
  | None => Done (STRING_ERROR_NULL_POINTER, None)
  | Some s =>
      if negb (is_owner s) then Done (STRING_ERROR_NULL_POINTER, Some s)
      else if capacity s >=? required_capacity then Done (STRING_SUCCESS, Some s)
      else
        new_capacity <- string_calculate_growth (capacity s) required_capacity ;;
        match realloc h (data s) new_capacity with
        | None => Done (STRING_ERROR_OUT_OF_MEMORY, Some s)
        | Some new_data =>
            Done (STRING_SUCCESS,
                  Some {| data := new_data; length := length s;
                          capacity := new_capacity; is_owner := is_owner s |})
        end
  end.

(** ** Creation *)

Definition string_create_with_capacity (h : allocator) (capacity : Z)
  : exec (option string_t) :=
  let capacity := if capacity =? 0 then STRING_DEFAULT_CAPACITY else capacity in
  if negb (grants h sizeof_string_t) then Done None
  else
    match malloc h capacity with
    | None => Done None
    | Some d =>
        d <- store d 0 x00 ;;
        Done (Some {| data := d; length := 0; capacity := capacity; is_owner := true |})
    end.

Definition string_create (h : allocator) : exec (option string_t) :=
  string_create_with_capacity h STRING_DEFAULT_CAPACITY.

Definition string_create_from_buffer (h : allocator) (buffer : option (list byte))
  (len : Z) : exec (option string_t) :=
  match buffer, len >? 0 with
  | None, true => Done None
  | _, _ =>
      let cap := size_add len 1 in
      let cap := if cap <? STRING_DEFAULT_CAPACITY then STRING_DEFAULT_CAPACITY else cap in
      str <- string_create_with_capacity h cap ;;
      match str with
      | None => Done None
      | Some s =>
          d <- (if len >? 0
                then match buffer with
                     | Some b => memcpy (data s) 0 b 0 len
                     | None => Fault OutOfBounds
                     end
                else Done (data s)) ;;
          d <- store d len x00 ;;
          Done (Some {| data := d; length := len;
                        capacity := capacity s; is_owner := is_owner s |})
      end
  end.

(** ** Information *)

Definition string_length (str : option string_t) : Z :=
  match str with Some s => length s | None => 0 end.

Definition string_capacity (str : option string_t) : Z :=
  match str with Some s => capacity s | None => 0 end.

Definition string_is_empty (str : option string_t) : bool :=
  match str with Some s => length s =? 0 | None => true end.

(** ** Capacity *)

Definition string_reserve (h : allocator) (str : option string_t) (new_capacity : Z)
  : exec (string_result_t * option string_t) :=
  match str with
  | None => Done (STRING_ERROR_NULL_POINTER, None)
  | Some s =>
      if new_capacity <=? capacity s then Done (STRING_SUCCESS, Some s)
      else string_ensure_capacity h (Some s) new_capacity
  end.

(** ** Assignment, concatenation, insertion *)

Definition string_assign_buffer (h : allocator) (str : option string_t)
  (buffer : option (list byte)) (len : Z)
  : exec (string_result_t * option string_t) :=
  match str with
  | None => Done (STRING_ERROR_NULL_POINTER, None)
  | Some s =>
      match buffer, len >? 0 with
      | None, true => Done (STRING_ERROR_INVALID_ARGUMENT, Some s)
      | _, _ =>
          r <- string_ensure_capacity h (Some s) (size_add len 1) ;;
          match r with
          | (STRING_SUCCESS, Some s1) =>
              d <- (if len >? 0
                    then match buffer with
                         | Some b => memcpy (data s1) 0 b 0 len
                         | None => Fault OutOfBounds
                         end
                    else Done (data s1)) ;;
              d <- store d len x00 ;;
              Done (STRING_SUCCESS,
                    Some {| data := d; length := len;
                            capacity := capacity s1; is_owner := is_owner s1 |})
          | (STRING_SUCCESS, None) => Fault OutOfBounds
          | (result, str1) => Done (result, str1)
          end
      end
  end.

Definition string_append_buffer (h : allocator) (str : option string_t)
  (buffer : option (list byte)) (len : Z)
  : exec (string_result_t * option string_t) :=
  match str with
  | None => Done (STRING_ERROR_NULL_POINTER, None)
  | Some s =>
      match buffer, len >? 0 with
      | None, true => Done (STRING_ERROR_INVALID_ARGUMENT, Some s)
      | _, _ =>
          if len =? 0 then Done (STRING_SUCCESS, Some s)
          else
            let new_length := size_add (length s) len in
            r <- string_ensure_capacity h (Some s) (size_add new_length 1) ;;
            match r with
            | (STRING_SUCCESS, Some s1) =>
                d <- match buffer with
                     | Some b => memcpy (data s1) (length s1) b 0 len
                     | None => Fault OutOfBounds
                     end ;;
                d <- store d new_length x00 ;;
                Done (STRING_SUCCESS,
                      Some {| data := d; length := new_length;
                              capacity := capacity s1; is_owner := is_owner s1 |})
            | (STRING_SUCCESS, None) => Fault OutOfBounds
            | (result, str1) => Done (result, str1)
            end
      end
  end.

Definition string_insert_buffer (h : allocator) (str : option string_t) (index : Z)
  (buffer : option (list byte)) (len : Z)
  : exec (string_result_t * option string_t) :=
  match str with
  | None => Done (STRING_ERROR_NULL_POINTER, None)
  | Some s =>
      if index >? length s then Done (STRING_ERROR_INVALID_INDEX, Some s)
      else
        match buffer, len >? 0 with
        | None, true => Done (STRING_ERROR_INVALID_ARGUMENT, Some s)
        | _, _ =>
            if len =? 0 then Done (STRING_SUCCESS, Some s)
            else
              let new_length := size_add (length s) len in
              r <- string_ensure_capacity h (Some s) (size_add new_length 1) ;;
              match r with
              | (STRING_SUCCESS, Some s1) =>
                  d <- (if index <? length s1
                        then memmove (data s1) (index + len) index
                               (size_sub (length s1) index)
                        else Done (data s1)) ;;
                  d <- match buffer with
                       | Some b => memcpy d index b 0 len
                       | None => Fault OutOfBounds
                       end ;;
                  d <- store d new_length x00 ;;
                  Done (STRING_SUCCESS,
                        Some {| data := d; length := new_length;
                                capacity := capacity s1; is_owner := is_owner s1 |})
              | (STRING_SUCCESS, None) => Fault OutOfBounds
              | (result, str1) => Done (result, str1)
              end
        end
  end.

(** ** Removal *)

Definition string_erase (str : option string_t) (index count : Z)
  : exec (string_result_t * option string_t) :=
  match str with
  | None => Done (STRING_ERROR_NULL_POINTER, None)
  | Some s =>
      if index >=? length s then Done (STRING_ERROR_INVALID_INDEX, Some s)
      else if count =? 0 then Done (STRING_SUCCESS, Some s)
      else
        let count :=
          if size_add index count >? length s then size_sub (length s) index else count in
        let chars_after := size_sub (size_sub (length s) index) count in
        d <- (if chars_after >? 0
              then memmove (data s) index (index + count) chars_after
              else Done (data s)) ;;
        let new_length := size_sub (length s) count in
        d <- store d new_length x00 ;;
        Done (STRING_SUCCESS,
              Some {| data := d; length := new_length;
                      capacity := capacity s; is_owner := is_owner s |})
  end.

(** ** Comparison *)

Definition string_compare (str1 str2 : option string_t) : exec Z :=
  match str1, str2 with
  | None, None => Done 0
  | None, Some _ => Done (-1)
  | Some _, None => Done 1
  | Some s1, Some s2 =>
      let min_len := if length s1 <? length s2 then length s1 else length s2 in
      result <- memcmp (data s1) (data s2) min_len ;;
      if result =? 0
      then if length s1 <? length s2 then Done (-1)
           else if length s1 >? length s2 then Done 1
           else Done result
      else Done result
  end.

Definition string_compare_cstr (str : option string_t) (cstr : option (list byte))
  : exec Z :=
  match str, cstr with
  | None, None => Done 0
  | None, Some _ => Done (-1)
  | Some _, None => Done 1
  | Some s, Some c => strcmp (data s) c
  end.

(** ** Utilities *)

(** [while (start < length && isspace(data[start])) start++;] *)
Fixpoint trim_skip_leading (n : nat) (d : list byte) (len start : Z) : exec Z :=
  if start <? len
  then c <- load d start ;;
       if isspace c
       then match n with
            | O => Fault NoReturn
            | S n' => trim_skip_leading n' d len (size_add start 1)
            end
       else Done start
  else Done start.

(** [while (end > start && isspace(data[end - 1])) end--;] *)
Fixpoint trim_skip_trailing (n : nat) (d : list byte) (start end_ : Z) : exec Z :=
  if end_ >? start
  then c <- load d (size_sub end_ 1) ;;
       if isspace c
       then match n with
            | O => Fault NoReturn
            | S n' => trim_skip_trailing n' d start (size_sub end_ 1)
            end
       else Done end_
  else Done end_.

(** Either loop moves its index by one per round and stops once it has
    crossed the string, so [length] rounds are all it can take. *)
Definition string_trim (str : option string_t)
  : exec (string_result_t * option string_t) :=
  match str with
  | None => Done (STRING_ERROR_NULL_POINTER, None)
  | Some s =>
      if length s =? 0 then Done (STRING_ERROR_NULL_POINTER, Some s)
      else
        start <- trim_skip_leading (Z.to_nat (length s)) (data s) (length s) 0 ;;
        end_ <- trim_skip_trailing (Z.to_nat (length s)) (data s) start (length s) ;;
        d <- (if start >? 0
              then memmove (data s) 0 start (size_sub end_ start)
              else Done (data s)) ;;
        let new_length := size_sub end_ start in
        d <- store d new_length x00 ;;
        Done (STRING_SUCCESS,
              Some {| data := d; length := new_length;
                      capacity := capacity s; is_owner := is_owner s |})
  end.

(** ** Copying out *)

(** The second component is the caller's buffer as the call leaves it. *)
Definition string_copy_to_buffer (str : option string_t) (buffer : option (list byte))
  (buffer_size : Z) : exec (string_result_t * option (list byte)) :=
  match str, buffer with
  | Some s, Some buf =>
      if buffer_size =? 0 then Done (STRING_ERROR_BUFFER_TOO_SMALL, Some buf)
      else
        let copy_length := length s in
        let copy_length :=
          if copy_length >=? buffer_size then size_sub buffer_size 1 else copy_length in
        buf <- memcpy buf 0 (data s) 0 copy_length ;;
        buf <- store buf copy_length x00 ;;
        Done (if copy_length =? length s
              then STRING_SUCCESS else STRING_ERROR_BUFFER_TOO_SMALL,
              Some buf)
  | _, _ => Done (STRING_ERROR_NULL_POINTER, buffer)
  end.

(** ** The rest of the library

    What follows embeds the functions of [safe_strings.c] that take no
    variable argument list. *)

(** [strlen(a)]: the offset of the first zero byte. *)
Fixpoint strlen (a : list byte) : exec Z :=
  match a with
  | [] => Fault OutOfBounds
  | x :: a' => if Byte.eqb x x00 then Done 0 else n <- strlen a' ;; Done (n + 1)
  end.

(** [memset(buf + off, b, n)] *)
Definition memset (buf : list byte) (off : Z) (b : byte) (n : Z) : exec (list byte) :=
  if in_bounds buf off n
  then Done (splice buf off (repeat b (Z.to_nat n)) n)
  else Fault OutOfBounds.

Definition byte_of (v : Z) (otherwise : byte) : byte :=
  match Byte.of_N (Z.to_N v) with Some b => b | None => otherwise end.

(** [toupper] and [tolower] in the "C" locale; a byte outside the letters
    is returned as it is. *)
Definition toupper (c : byte) : byte :=
  let v := byte_val c in
  if (97 <=? v) && (v <=? 122) then byte_of (v - 32) c else c.

Definition tolower (c : byte) : byte :=
  let v := byte_val c in
  if (65 <=? v) && (v <=? 90) then byte_of (v + 32) c else c.

Definition string_create_from_cstr (h : allocator) (cstr : option (list byte))
  : exec (option string_t) :=
  match cstr with
  | None => string_create h
  | Some c =>
      len <- strlen c ;;
      string_create_from_buffer h (Some c) len
  end.

Definition string_clone (h : allocator) (src : option string_t)
  : exec (option string_t) :=
  match src with
  | None => Done None
  | Some s => string_create_from_buffer h (Some (data s)) (length s)
  end.

(** The view returned is the buffer itself, or the literal [""]. *)
Definition string_cstr (str : option string_t) : list byte :=
  match str with
  | Some s => data s
  | None => [x00]
  end.

Definition string_resize (h : allocator) (str : option string_t) (new_length : Z)
  : exec (string_result_t * option string_t) :=
  match str with
  | None => Done (STRING_ERROR_NULL_POINTER, None)
  | Some s =>
      r <- string_ensure_capacity h (Some s) (size_add new_length 1) ;;
      match r with
      | (STRING_SUCCESS, Some s1) =>
          d <- (if new_length >? length s1
                then memset (data s1) (length s1) x00 (size_sub new_length (length s1))
                else Done (data s1)) ;;
          d <- store d new_length x00 ;;
          Done (STRING_SUCCESS,
                Some {| data := d; length := new_length;
                        capacity := capacity s1; is_owner := is_owner s1 |})
      | (STRING_SUCCESS, None) => Fault OutOfBounds
      | (result, str1) => Done (result, str1)
      end
  end.

Definition string_clear (str : option string_t)
  : exec (string_result_t * option string_t) :=
  match str with
  | None => Done (STRING_ERROR_NULL_POINTER, None)
  | Some s =>
      d <- store (data s) 0 x00 ;;
      Done (STRING_SUCCESS,
            Some {| data := d; length := 0;
                    capacity := capacity s; is_owner := is_owner s |})
  end.

Definition string_shrink_to_fit (h : allocator) (str : option string_t)
  : exec (string_result_t * option string_t) :=
  match str with
  | None => Done (STRING_ERROR_NULL_POINTER, None)
  | Some s =>
      if negb (is_owner s) then Done (STRING_ERROR_NULL_POINTER, Some s)
      else
        let new_capacity := size_add (length s) 1 in
        if new_capacity >=? capacity s then Done (STRING_SUCCESS, Some s)
        else
          match realloc h (data s) new_capacity with
          | None => Done (STRING_ERROR_OUT_OF_MEMORY, Some s)
          | Some new_data =>
              Done (STRING_SUCCESS,
                    Some {| data := new_data; length := length s;
                            capacity := new_capacity; is_owner := is_owner s |})
          end
  end.

(** ** Sources that may lie in the destination

    A [const char *] or [const string_t *] source need not be storage of
    its own: it may be what [string_cstr] gave for the destination, or the
    destination.  The three functions that copy from a caller's buffer are
    read here once more at such a source.  Copying through a pointer into
    a buffer that [realloc] has since replaced, or with [memcpy] between
    ranges that overlap, is undefined behaviour and a [Fault] like any
    other access the program may not make. *)

Inductive region : Type :=
| Apart (b : list byte)
| Inside (off : Z).

Inductive operand : Type :=
| Other (s : string_t)
| Within (off len : Z).

(** [n] bytes at offset [a] and [n] bytes at offset [b] share a byte. *)
Definition ranges_overlap (a b n : Z) : bool :=
  (0 <? n) && (a <? b + n) && (b <? a + n).

(** [memcpy(d + doff, src, n)], where [src] is a buffer of its own or
    points [off] bytes into the buffer the string had on entry; [stale]
    says that buffer has been reallocated since. *)
Definition memcpy_from (d : list byte) (doff : Z) (src : region) (stale : bool)
  (n : Z) : exec (list byte) :=
  match src with
  | Apart b => memcpy d doff b 0 n
  | Inside off =>
      if stale then Fault OutOfBounds
      else if ranges_overlap doff off n then Fault OutOfBounds
      else memcpy d doff d off n
  end.

(** [strlen(src)] *)
Definition strlen_from (d : list byte) (src : region) : exec Z :=
  match src with
  | Apart c => strlen c
  | Inside off => if in_bounds d off 0 then strlen (drop off d) else Fault OutOfBounds
  end.

(** [string_assign_buffer], [string_append_buffer] and
    [string_insert_buffer] with the place of the source kept: the buffer
    is stale once [string_ensure_capacity] had to reallocate. *)
Definition string_assign_buffer_from (h : allocator) (str : option string_t)
  (buffer : option region) (len : Z)
  : exec (string_result_t * option string_t) :=
  match str with
  | None => Done (STRING_ERROR_NULL_POINTER, None)
  | Some s =>
      match buffer, len >? 0 with
      | None, true => Done (STRING_ERROR_INVALID_ARGUMENT, Some s)
      | _, _ =>
          let required := size_add len 1 in
          r <- string_ensure_capacity h (Some s) required ;;
          match r with
          | (STRING_SUCCESS, Some s1) =>
              d <- (if len >? 0
                    then match buffer with
                         | Some b =>
                             memcpy_from (data s1) 0 b
                               (negb (capacity s >=? required)) len
                         | None => Fault OutOfBounds
                         end
                    else Done (data s1)) ;;
              d <- store d len x00 ;;
              Done (STRING_SUCCESS,
                    Some {| data := d; length := len;
                            capacity := capacity s1; is_owner := is_owner s1 |})
          | (STRING_SUCCESS, None) => Fault OutOfBounds
          | (result, str1) => Done (result, str1)
          end
      end
  end.

Definition string_append_buffer_from (h : allocator) (str : option string_t)
  (buffer : option region) (len : Z)
  : exec (string_result_t * option string_t) :=
  match str with
  | None => Done (STRING_ERROR_NULL_POINTER, None)
  | Some s =>
      match buffer, len >? 0 with
      | None, true => Done (STRING_ERROR_INVALID_ARGUMENT, Some s)
      | _, _ =>
          if len =? 0 then Done (STRING_SUCCESS, Some s)
          else
            let new_length := size_add (length s) len in
            let required := size_add new_length 1 in
            r <- string_ensure_capacity h (Some s) required ;;
            match r with
            | (STRING_SUCCESS, Some s1) =>
                d <- match buffer with
                     | Some b =>
                         memcpy_from (data s1) (length s1) b
                           (negb (capacity s >=? required)) len
                     | None => Fault OutOfBounds
                     end ;;
                d <- store d new_length x00 ;;
                Done (STRING_SUCCESS,
                      Some {| data := d; length := new_length;
                              capacity := capacity s1; is_owner := is_owner s1 |})
            | (STRING_SUCCESS, None) => Fault OutOfBounds
            | (result, str1) => Done (result, str1)
            end
      end
  end.

Definition string_insert_buffer_from (h : allocator) (str : option string_t)
  (index : Z) (buffer : option region) (len : Z)
  : exec (string_result_t * option string_t) :=
  match str with
  | None => Done (STRING_ERROR_NULL_POINTER, None)
  | Some s =>
      if index >? length s then Done (STRING_ERROR_INVALID_INDEX, Some s)
      else
        match buffer, len >? 0 with
        | None, true => Done (STRING_ERROR_INVALID_ARGUMENT, Some s)
        | _, _ =>
            if len =? 0 then Done (STRING_SUCCESS, Some s)
            else
              let new_length := size_add (length s) len in
              let required := size_add new_length 1 in
              r <- string_ensure_capacity h (Some s) required ;;
              match r with
              | (STRING_SUCCESS, Some s1) =>
                  d <- (if index <? length s1
                        then memmove (data s1) (index + len) index
                               (size_sub (length s1) index)
                        else Done (data s1)) ;;
                  d <- match buffer with
                       | Some b =>
                           memcpy_from d index b
                             (negb (capacity s >=? required)) len
                       | None => Fault OutOfBounds
                       end ;;
                  d <- store d new_length x00 ;;
                  Done (STRING_SUCCESS,
                        Some {| data := d; length := new_length;
                                capacity := capacity s1; is_owner := is_owner s1 |})
              | (STRING_SUCCESS, None) => Fault OutOfBounds
              | (result, str1) => Done (result, str1)
              end
        end
  end.

(** The source of the [_string] functions is a string with a buffer of
    its own, or one whose [data] points [off] bytes into the buffer of the
    destination and whose [length] is [len]; the destination itself is
    such a one. *)
Definition itself (d : string_t) : operand := Within 0 (length d).

(** [src->data] *)
Definition operand_data (src : operand) : region :=
  match src with
  | Other s => Apart (data s)
  | Within off _ => Inside off
  end.

(** [src->length] *)
Definition operand_length (src : operand) : Z :=
  match src with
  | Other s => length s
  | Within _ len => len
  end.

Definition string_assign_cstr (h : allocator) (str : option string_t)
  (cstr : option region) : exec (string_result_t * option string_t) :=
  match str with
  | None => Done (STRING_ERROR_NULL_POINTER, None)
  | Some s =>
      match cstr with
      | None => string_clear (Some s)
      | Some c =>
          len <- strlen_from (data s) c ;;
          string_assign_buffer_from h (Some s) (Some c) len
      end
  end.

Definition string_assign_string (h : allocator) (dest : option string_t)
  (src : option operand) : exec (string_result_t * option string_t) :=
  match dest with
  | None => Done (STRING_ERROR_NULL_POINTER, None)
  | Some d =>
      match src with
      | None => string_clear (Some d)
      | Some s =>
          string_assign_buffer_from h (Some d) (Some (operand_data s))
            (operand_length s)
      end
  end.

Definition string_append_cstr (h : allocator) (str : option string_t)
  (cstr : option region) : exec (string_result_t * option string_t) :=
  match str with
  | None => Done (STRING_ERROR_NULL_POINTER, None)
  | Some s =>
      match cstr with
      | None => Done (STRING_SUCCESS, Some s)
      | Some c =>
          len <- strlen_from (data s) c ;;
          string_append_buffer_from h (Some s) (Some c) len
      end
  end.

Definition string_append_string (h : allocator) (dest : option string_t)
  (src : option operand) : exec (string_result_t * option string_t) :=
  match dest with
  | None => Done (STRING_ERROR_NULL_POINTER, None)
  | Some d =>
      match src with
      | None => Done (STRING_SUCCESS, Some d)
      | Some s =>
          string_append_buffer_from h (Some d) (Some (operand_data s))
            (operand_length s)
      end
  end.

Definition string_append_char (h : allocator) (str : option string_t) (c : byte)
  : exec (string_result_t * option string_t) :=
  string_append_buffer h str (Some [c]) 1.

Definition string_insert_cstr (h : allocator) (str : option string_t) (index : Z)
  (cstr : option region) : exec (string_result_t * option string_t) :=
  match str with
  | None => Done (STRING_ERROR_NULL_POINTER, None)
  | Some s =>
      match cstr with
      | None => Done (STRING_SUCCESS, Some s)
      | Some c =>
          len <- strlen_from (data s) c ;;
          string_insert_buffer_from h (Some s) index (Some c) len
      end
  end.

Definition string_insert_string (h : allocator) (dest : option string_t) (index : Z)
  (src : option operand) : exec (string_result_t * option string_t) :=
  match dest with
  | None => Done (STRING_ERROR_NULL_POINTER, None)
  | Some d =>
      match src with
      | None => Done (STRING_SUCCESS, Some d)
      | Some s =>
          string_insert_buffer_from h (Some d) index (Some (operand_data s))
            (operand_length s)
      end
  end.

Definition string_insert_char (h : allocator) (str : option string_t) (index : Z)
  (c : byte) : exec (string_result_t * option string_t) :=
  string_insert_buffer h str index (Some [c]) 1.

Definition string_pop_back (str : option string_t)
  : exec (string_result_t * option string_t) :=
  match str with
  | None => Done (STRING_ERROR_INVALID_INDEX, None)
  | Some s =>
      if length s =? 0 then Done (STRING_ERROR_INVALID_INDEX, Some s)
      else
        let new_length := size_sub (length s) 1 in
        d <- store (data s) new_length x00 ;;
        Done (STRING_SUCCESS,
              Some {| data := d; length := new_length;
                      capacity := capacity s; is_owner := is_owner s |})
  end.

Definition string_at (str : option string_t) (index : Z) : exec byte :=
  match str with
  | None => Done x00
  | Some s => if index >=? length s then Done x00 else load (data s) index
  end.

Definition string_set_at (str : option string_t) (index : Z) (c : byte)
  : exec (string_result_t * option string_t) :=
  match str with
  | None => Done (STRING_ERROR_NULL_POINTER, None)
  | Some s =>
      if index >=? length s then Done (STRING_ERROR_INVALID_INDEX, Some s)
      else
        d <- store (data s) index c ;;
        Done (STRING_SUCCESS,
              Some {| data := d; length := length s;
                      capacity := capacity s; is_owner := is_owner s |})
  end.

Definition string_equals (str1 str2 : option string_t) : exec bool :=
  r <- string_compare str1 str2 ;; Done (r =? 0).

Definition string_equals_cstr (str : option string_t) (cstr : option (list byte))
  : exec bool :=
  r <- string_compare_cstr str cstr ;; Done (r =? 0).

(** ** Searching *)

(** [for (i = start_pos; i < length; i++) if (data[i] == c) return i;] *)
Fixpoint find_char_loop (n : nat) (d : list byte) (len : Z) (c : byte) (i : Z)
  : exec Z :=
  if i <? len
  then x <- load d i ;;
       if Byte.eqb x c then Done i
       else match n with
            | O => Fault NoReturn
            | S n' => find_char_loop n' d len c (size_add i 1)
            end
  else Done STRING_NPOS.

Definition string_find_char (str : option string_t) (c : byte) (start_pos : Z) : exec Z :=
  match str with
  | None => Done STRING_NPOS
  | Some s =>
      if start_pos >=? length s then Done STRING_NPOS
      else find_char_loop (Z.to_nat (length s)) (data s) (length s) c start_pos
  end.

(** [for (i = start_pos; i <= length - substr_len; i++)
      if (memcmp(data + i, substr, substr_len) == 0) return i;] *)
Fixpoint find_cstr_loop (n : nat) (d : list byte) (last : Z) (substr : list byte)
  (substr_len : Z) (i : Z) : exec Z :=
  if i <=? last
  then r <- memcmp (drop i d) substr substr_len ;;
       if r =? 0 then Done i
       else match n with
            | O => Fault NoReturn
            | S n' => find_cstr_loop n' d last substr substr_len (size_add i 1)
            end
  else Done STRING_NPOS.

Definition string_find_cstr (str : option string_t) (substr : option (list byte))
  (start_pos : Z) : exec Z :=
  match str, substr with
  | Some s, Some sub =>
      if start_pos >=? length s then Done STRING_NPOS
      else
        substr_len <- strlen sub ;;
        if substr_len =? 0 then Done start_pos
        else if size_add start_pos substr_len >? length s then Done STRING_NPOS
        else find_cstr_loop (Z.to_nat (length s)) (data s)
               (size_sub (length s) substr_len) sub substr_len start_pos
  | _, _ => Done STRING_NPOS
  end.

Definition string_find_string (str substr : option string_t) (start_pos : Z) : exec Z :=
  match str, substr with
  | Some s, Some sub => string_find_cstr (Some s) (Some (data sub)) start_pos
  | _, _ => Done STRING_NPOS
  end.

(** [for (i = start_pos + 1; i > 0; i--) if (data[i - 1] == c) return i - 1;] *)
Fixpoint rfind_char_loop (n : nat) (d : list byte) (c : byte) (i : Z) : exec Z :=
  if i >? 0
  then x <- load d (size_sub i 1) ;;
       if Byte.eqb x c then Done (size_sub i 1)
       else match n with
            | O => Fault NoReturn
            | S n' => rfind_char_loop n' d c (size_sub i 1)
            end
  else Done STRING_NPOS.

Definition string_rfind_char (str : option string_t) (c : byte) (start_pos : Z) : exec Z :=
  match str with
  | None => Done STRING_NPOS
  | Some s =>
      if length s =? 0 then Done STRING_NPOS
      else
        let start_pos :=
          if start_pos >=? length s then size_sub (length s) 1 else start_pos in
        rfind_char_loop (Z.to_nat (length s)) (data s) c (size_add start_pos 1)
  end.

(** ** Byte-wise transforms *)

(** [for (i = 0; i < length; i++) body;] where the body rewrites
    [data[i]]. *)
Fixpoint each_byte (n : nat) (body : list byte -> Z -> exec (list byte))
  (d : list byte) (len i : Z) : exec (list byte) :=
  if i <? len
  then d <- body d i ;;
       match n with
       | O => Fault NoReturn
       | S n' => each_byte n' body d len (size_add i 1)
       end
  else Done d.

(** [data[i] = f(data[i]);] *)
Definition rewrite_byte (f : byte -> byte) (d : list byte) (i : Z) : exec (list byte) :=
  x <- load d i ;; store d i (f x).

(** [if (data[i] == old_char) data[i] = new_char;] *)
Definition replace_byte (old_char new_char : byte) (d : list byte) (i : Z)
  : exec (list byte) :=
  x <- load d i ;;
  if Byte.eqb x old_char then store d i new_char else Done d.

Definition string_to_upper (str : option string_t)
  : exec (string_result_t * option string_t) :=
  match str with
  | None => Done (STRING_ERROR_NULL_POINTER, None)
  | Some s =>
      d <- each_byte (Z.to_nat (length s)) (rewrite_byte toupper) (data s) (length s) 0 ;;
      Done (STRING_SUCCESS,
            Some {| data := d; length := length s;
                    capacity := capacity s; is_owner := is_owner s |})
  end.

Definition string_to_lower (str : option string_t)
  : exec (string_result_t * option string_t) :=
  match str with
  | None => Done (STRING_ERROR_NULL_POINTER, None)
  | Some s =>
      d <- each_byte (Z.to_nat (length s)) (rewrite_byte tolower) (data s) (length s) 0 ;;
      Done (STRING_SUCCESS,
            Some {| data := d; length := length s;
                    capacity := capacity s; is_owner := is_owner s |})
  end.

Definition string_replace_char (str : option string_t) (old_char new_char : byte)
  : exec (string_result_t * option string_t) :=
  match str with
  | None => Done (STRING_ERROR_NULL_POINTER, None)
  | Some s =>
      d <- each_byte (Z.to_nat (length s)) (replace_byte old_char new_char)
             (data s) (length s) 0 ;;
      Done (STRING_SUCCESS,
            Some {| data := d; length := length s;
                    capacity := capacity s; is_owner := is_owner s |})
  end.

(** ** Sample data *)

Definition bytes (s : string) : list byte := list_byte_of_string s.

(** An allocator that grants every request and hands out bytes [0xAA]. *)
Definition generous : allocator := {| grants := fun _ => true; junk := fun _ => xaa |}.

(** An allocator that refuses every request. *)
Definition exhausted : allocator := {| grants := fun _ => false; junk := fun _ => xaa |}.

(** A well-formed string holding [s] in a buffer of [cap] bytes. *)
Definition literal (cap : Z) (s : string) : string_t :=
  {| data := bytes s ++ x00 :: repeat xaa (Z.to_nat (cap - Zlen (bytes s) - 1));
     length := Zlen (bytes s);
     capacity := cap;
     is_owner := true |}.

(** ** The order of the specification

    Byte-wise lexicographic comparison over the shorter length, the length
    breaking a tie, and an absent string before every present one. *)

Fixpoint lexico (a b : list byte) : comparison :=
  match a, b with
  | x :: a', y :: b' =>
      match byte_val x ?= byte_val y with
      | Eq => lexico a' b'
      | c => c
      end
  | _, _ => Eq
  end.

Definition content_order (a b : list byte) : comparison :=
  let m := Z.min (Zlen a) (Zlen b) in
  match lexico (take m a) (take m b) with
  | Eq => Zlen a ?= Zlen b
  | c => c
  end.

Definition absent_first (a b : option (list byte)) : comparison :=
  match a, b with
  | None, None => Eq
  | None, Some _ => Lt
  | Some _, None => Gt
  | Some x, Some y => content_order x y
  end.

Definition sign_of (c : comparison) : Z :=
  match c with Lt => -1 | Eq => 0 | Gt => 1 end.

Definition content_of (str : option string_t) : option (list byte) :=
  match str with Some s => Some (content s) | None => None end.

Definition wf_opt (str : option string_t) : Prop :=
  match str with Some s => wf s | None => True end.

(** The same order by plain recursion: the first differing byte decides,
    and a proper prefix comes first. *)
Fixpoint lex_full (a b : list byte) : comparison :=
  match a, b with
  | [], [] => Eq
  | [], _ :: _ => Lt
  | _ :: _, [] => Gt
  | x :: a', y :: b' =>
      match byte_val x ?= byte_val y with
      | Eq => lex_full a' b'
      | c => c
      end
  end.

(** ** Outcomes of the memory operations *)

(** What a successful [memcpy] leaves in the destination. *)
Record copied (dst : list byte) (doff : Z) (src : list byte) (soff n : Z)
  (d : list byte) : Prop := {
  cp_doff : 0 <= doff;
  cp_soff : 0 <= soff;
  cp_n : 0 <= n;
  cp_dst : doff + n <= Zlen dst;
  cp_src : soff + n <= Zlen src;
  cp_len : Zlen d = Zlen dst;
  cp_lo : forall j, 0 <= j < doff -> get d j = get dst j;
  cp_mid : forall j, doff <= j < doff + n -> get d j = get src (soff + (j - doff));
  cp_hi : forall j, doff + n <= j -> get d j = get dst j
}.

(** What a successful store leaves in the buffer. *)
Record stored (buf : list byte) (i : Z) (b : byte) (d : list byte) : Prop := {
  st_idx : 0 <= i < Zlen buf;
  st_len : Zlen d = Zlen buf;
  st_at : get d i = b;
  st_lo : forall j, 0 <= j < i -> get d j = get buf j;
  st_hi : forall j, i < j -> get d j = get buf j
}.

(** ** Proof steps *)

Ltac split_ands := repeat match goal with |- _ /\ _ => split end.

(** * Properties *)

(** ** Arithmetic of [size_t] *)

Lemma SIZE_MOD_pos : 0 < SIZE_MOD.
Proof. reflexivity. Qed.

Lemma to_size_small (z : Z) : 0 <= z <= SIZE_MAX -> to_size z = z.
Proof. unfold to_size, SIZE_MAX. intros H. apply Z.mod_small. lia. Qed.

Lemma to_size_range (z : Z) : 0 <= to_size z <= SIZE_MAX.
Proof.
  unfold to_size, SIZE_MAX.
  pose proof (Z.mod_pos_bound z SIZE_MOD SIZE_MOD_pos). lia.
Qed.

(** ** Lists as buffers *)

Lemma Zlen_nonneg (l : list byte) : 0 <= Zlen l.
Proof. unfold Zlen. lia. Qed.

Lemma Zlen_app (a b : list byte) : Zlen (a ++ b) = Zlen a + Zlen b.
Proof. unfold Zlen. rewrite length_app. lia. Qed.

Lemma Zlen_cons (x : byte) (l : list byte) : Zlen (x :: l) = 1 + Zlen l.
Proof. unfold Zlen. simpl List.length. lia. Qed.

Lemma Zlen_take (n : Z) (l : list byte) :
  0 <= n <= Zlen l -> Zlen (take n l) = n.
Proof. unfold Zlen, take. intros H. rewrite length_firstn. lia. Qed.

Lemma Zlen_drop (n : Z) (l : list byte) :
  0 <= n <= Zlen l -> Zlen (drop n l) = Zlen l - n.
Proof. unfold Zlen, drop. intros H. rewrite length_skipn. lia. Qed.

Lemma take_all (n : Z) (l : list byte) : Zlen l <= n -> take n l = l.
Proof. unfold Zlen, take. intros H. apply firstn_all2. lia. Qed.

Lemma take_drop (n : Z) (l : list byte) : take n l ++ drop n l = l.
Proof. apply firstn_skipn. Qed.

Lemma take_app_exact (n : Z) (a b : list byte) : Zlen a = n -> take n (a ++ b) = a.
Proof.
  unfold Zlen, take. intros H.
  rewrite firstn_app, firstn_all2 by lia.
  replace (Z.to_nat n - List.length a)%nat with 0%nat by lia.
  simpl. apply app_nil_r.
Qed.

Lemma drop_app_exact (n : Z) (a b : list byte) : Zlen a = n -> drop n (a ++ b) = b.
Proof.
  unfold Zlen, drop. intros H.
  rewrite skipn_app, skipn_all2 by lia.
  replace (Z.to_nat n - List.length a)%nat with 0%nat by lia.
  reflexivity.
Qed.

Lemma get_app_l (a b : list byte) (j : Z) :
  0 <= j < Zlen a -> get (a ++ b) j = get a j.
Proof. unfold get, Zlen. intros H. apply app_nth1. lia. Qed.

Lemma get_app_r (a b : list byte) (j : Z) :
  Zlen a <= j -> get (a ++ b) j = get b (j - Zlen a).
Proof.
  unfold get, Zlen. intros H. rewrite app_nth2 by lia.
  f_equal. lia.
Qed.

Lemma get_take (n : Z) (l : list byte) (j : Z) :
  0 <= j < n -> get (take n l) j = get l j.
Proof.
  unfold get, take. intros H.
  rewrite <- (firstn_skipn (Z.to_nat n) l) at 2.
  destruct (Nat.lt_ge_cases (Z.to_nat j) (List.length (firstn (Z.to_nat n) l))) as [Hlt | Hge].
  - now rewrite app_nth1.
  - rewrite (nth_overflow (firstn _ _)) by exact Hge.
    rewrite length_firstn in Hge.
    symmetry. apply nth_overflow.
    rewrite length_app, length_firstn, length_skipn. lia.
Qed.

Lemma get_drop (n : Z) (l : list byte) (j : Z) :
  0 <= n -> 0 <= j -> get (drop n l) j = get l (n + j).
Proof.
  unfold get, drop. intros Hn Hj.
  rewrite nth_skipn. f_equal. lia.
Qed.

(** Two buffers of one size that agree byte for byte are the same. *)
Lemma buffer_ext (a b : list byte) :
  Zlen a = Zlen b ->
  (forall j, 0 <= j < Zlen a -> get a j = get b j) ->
  a = b.
Proof.
  unfold Zlen, get. intros Hlen Hget.
  apply (nth_ext a b x00 x00); [lia |].
  intros n Hn. specialize (Hget (Z.of_nat n)).
  rewrite Nat2Z.id in Hget. apply Hget. lia.
Qed.

(** ** Memory operations *)

Lemma in_bounds_spec (buf : list byte) (off n : Z) :
  in_bounds buf off n = true <-> 0 <= off /\ 0 <= n /\ off + n <= Zlen buf.
Proof. unfold in_bounds. rewrite !andb_true_iff, !Z.leb_le. tauto. Qed.

Lemma in_bounds_true (buf : list byte) (off n : Z) :
  0 <= off -> 0 <= n -> off + n <= Zlen buf -> in_bounds buf off n = true.
Proof. intros. apply in_bounds_spec. auto. Qed.

Section Splice.
Variables (dst mid : list byte) (doff n : Z).
Hypothesis Hoff : 0 <= doff.
Hypothesis Hmid : Zlen mid = n.
Hypothesis Hfit : doff + n <= Zlen dst.

Lemma Zlen_splice : Zlen (splice dst doff mid n) = Zlen dst.
Proof.
  pose proof (Zlen_nonneg mid).
  unfold splice. rewrite !Zlen_app, Zlen_take, Zlen_drop; lia.
Qed.

Lemma get_splice_lo (j : Z) : 0 <= j < doff -> get (splice dst doff mid n) j = get dst j.
Proof.
  pose proof (Zlen_nonneg mid).
  intros Hj. unfold splice.
  rewrite get_app_l by (rewrite Zlen_take; lia).
  apply get_take. lia.
Qed.

Lemma get_splice_mid (j : Z) :
  doff <= j < doff + n -> get (splice dst doff mid n) j = get mid (j - doff).
Proof.
  intros Hj. unfold splice.
  rewrite get_app_r; rewrite Zlen_take; try lia.
  apply get_app_l. lia.
Qed.

Lemma get_splice_hi (j : Z) : doff + n <= j -> get (splice dst doff mid n) j = get dst j.
Proof.
  pose proof (Zlen_nonneg mid).
  intros Hj. unfold splice.
  rewrite get_app_r; rewrite Zlen_take; try lia.
  rewrite get_app_r by lia.
  rewrite get_drop by lia. f_equal. lia.
Qed.
End Splice.

Lemma memcpy_inv (dst : list byte) (doff : Z) (src : list byte) (soff n : Z)
  (d : list byte) :
  memcpy dst doff src soff n = Done d -> copied dst doff src soff n d.
Proof.
  unfold memcpy. intros H.
  destruct (in_bounds dst doff n) eqn:Hd; [| discriminate].
  destruct (in_bounds src soff n) eqn:Hs; [| discriminate].
  apply in_bounds_spec in Hd, Hs. simpl in H. injection H as <-.
  assert (Hmid : Zlen (take n (drop soff src)) = n)
    by (rewrite Zlen_take; [| rewrite Zlen_drop]; lia).
  constructor; try lia.
  - apply Zlen_splice; lia.
  - intros j Hj. apply get_splice_lo; lia.
  - intros j Hj. rewrite get_splice_mid by lia.
    rewrite get_take, get_drop by lia. reflexivity.
  - intros j Hj. apply get_splice_hi; lia.
Qed.

Lemma memcpy_ok (dst : list byte) (doff : Z) (src : list byte) (soff n : Z) :
  0 <= doff -> 0 <= soff -> 0 <= n ->
  doff + n <= Zlen dst -> soff + n <= Zlen src ->
  exists d, memcpy dst doff src soff n = Done d.
Proof.
  intros. unfold memcpy. rewrite !in_bounds_true by lia. simpl. eauto.
Qed.

Lemma store_inv (buf : list byte) (i : Z) (b : byte) (d : list byte) :
  store buf i b = Done d -> stored buf i b d.
Proof.
  unfold store. intros H.
  destruct (in_bounds buf i 1) eqn:Hi; [| discriminate].
  apply in_bounds_spec in Hi. injection H as <-.
  constructor; try lia.
  - apply Zlen_splice; [lia | reflexivity | lia].
  - rewrite (get_splice_mid _ _ _ 1) by (reflexivity || lia).
    now rewrite Z.sub_diag.
  - intros j Hj. apply (get_splice_lo _ _ _ 1); [lia | reflexivity | lia | lia].
  - intros j Hj. apply (get_splice_hi _ _ _ 1); [lia | reflexivity | lia | lia].
Qed.

Lemma store_ok (buf : list byte) (i : Z) (b : byte) :
  0 <= i < Zlen buf -> exists d, store buf i b = Done d.
Proof. intros. unfold store. rewrite in_bounds_true by lia. eauto. Qed.

Lemma load_ok (buf : list byte) (i : Z) :
  0 <= i < Zlen buf -> load buf i = Done (get buf i).
Proof. intros. unfold load. now rewrite in_bounds_true by lia. Qed.

Lemma Zlen_fresh (h : allocator) (from n : Z) : 0 <= n -> Zlen (fresh h from n) = n.
Proof. intros. unfold Zlen, fresh. rewrite length_map, length_seq. lia. Qed.

(** ** Growth *)

Lemma growth_loop_enough (n : nat) (current required : Z) :
  required <= current -> growth_loop n current required = Done current.
Proof.
  intros H. destruct n; simpl; destruct (current <? required) eqn:E; try reflexivity;
    apply Z.ltb_lt in E; lia.
Qed.

Lemma growth_loop_double (n : nat) (current required : Z) :
  current < required ->
  growth_loop (S n) current required
  = growth_loop n (size_mul current STRING_GROWTH_FACTOR) required.
Proof. intros H. simpl. apply Z.ltb_lt in H. now rewrite H. Qed.

Lemma growth_loop_result (n : nat) (required : Z) :
  forall current v,
    is_size current ->
    growth_loop n current required = Done v ->
    is_size v /\ required <= v.
Proof.
  induction n as [| n IH]; intros current v Hc H; simpl in H;
    destruct (current <? required) eqn:E; try discriminate.
  - injection H as <-. apply Z.ltb_ge in E. auto.
  - apply IH in H; [exact H | apply to_size_range].
  - injection H as <-. apply Z.ltb_ge in E. auto.
Qed.

(** The value the loop holds after [j] doublings. *)
Lemma doubled_to_size (c : Z) (j : nat) :
  to_size (to_size (c * 2) * 2 ^ Z.of_nat j) = to_size (c * 2 ^ Z.of_nat (S j)).
Proof.
  unfold to_size. rewrite Z.mul_mod_idemp_l by (pose proof SIZE_MOD_pos; lia).
  f_equal. rewrite Nat2Z.inj_succ, Z.pow_succ_r by lia. ring.
Qed.

Lemma growth_loop_stuck (required : Z) (n : nat) :
  forall current,
    is_size current ->
    (growth_loop n current required = Fault NoReturn <->
     forall j : nat, (j <= n)%nat -> to_size (current * 2 ^ Z.of_nat j) < required).
Proof.
  induction n as [| n IH]; intros current Hc.
  - simpl. destruct (current <? required) eqn:E.
    + apply Z.ltb_lt in E. split; [| reflexivity].
      intros _ j Hj. replace j with 0%nat by lia.
      simpl. rewrite Z.mul_1_r, to_size_small; assumption.
    + apply Z.ltb_ge in E. split; [discriminate |].
      intros H. specialize (H 0%nat (Nat.le_refl _)).
      simpl in H. rewrite Z.mul_1_r, to_size_small in H; [lia | assumption].
  - simpl. destruct (current <? required) eqn:E.
    + apply Z.ltb_lt in E. unfold size_mul, STRING_GROWTH_FACTOR.
      rewrite IH by apply to_size_range. split.
      * intros H j Hj. destruct j as [| j].
        -- simpl. rewrite Z.mul_1_r, to_size_small; assumption.
        -- rewrite <- doubled_to_size. apply H. lia.
      * intros H j Hj. rewrite doubled_to_size. apply H. lia.
    + apply Z.ltb_ge in E. split; [discriminate |].
      intros H. specialize (H 0%nat (Nat.le_0_l _)).
      simpl in H. rewrite Z.mul_1_r, to_size_small in H; [lia | assumption].
Qed.

Lemma to_size_shifted_out (c : Z) (j : nat) :
  (Z.to_nat SIZE_BITS <= j)%nat -> to_size (c * 2 ^ Z.of_nat j) = 0.
Proof.
  intros Hj. unfold to_size, SIZE_MOD.
  replace (Z.of_nat j) with ((Z.of_nat j - SIZE_BITS) + SIZE_BITS)
    by lia.
  rewrite Z.pow_add_r; [| unfold SIZE_BITS in *; lia | unfold SIZE_BITS; lia].
  rewrite Z.mul_assoc. apply Z.mod_mul.
  unfold SIZE_BITS. lia.
Qed.

(** The bound on the doublings of [string_calculate_growth] loses nothing:
    a loop still running after [SIZE_BITS] doublings holds 0 and runs on for
    ever. *)
Lemma growth_loop_never_exits (current required : Z) :
  is_size current ->
  string_calculate_growth current required = Fault NoReturn ->
  forall n, growth_loop n current required = Fault NoReturn.
Proof.
  unfold string_calculate_growth. intros Hc H n.
  rewrite growth_loop_stuck in H by assumption.
  apply growth_loop_stuck; [assumption |].
  intros j _.
  destruct (Nat.le_gt_cases j (Z.to_nat SIZE_BITS)) as [Hle | Hgt].
  - now apply H.
  - rewrite to_size_shifted_out by lia.
    specialize (H (Z.to_nat SIZE_BITS) (Nat.le_refl _)).
    rewrite to_size_shifted_out in H by lia. exact H.
Qed.

Lemma pow2_lt_size (c : Z) (K : nat) :
  1 <= c -> c * 2 ^ Z.of_nat K <= SIZE_MAX -> (K < Z.to_nat SIZE_BITS)%nat.
Proof.
  intros Hc H.
  destruct (Nat.lt_ge_cases K (Z.to_nat SIZE_BITS)) as [Hlt | Hge]; [exact Hlt |].
  exfalso.
  assert (SIZE_MOD <= 2 ^ Z.of_nat K).
  { unfold SIZE_MOD. apply Z.pow_le_mono_r; unfold SIZE_BITS in *; lia. }
  unfold SIZE_MAX in H. nia.
Qed.

(** With room for [K] doublings below [SIZE_MAX], the loop exits on the
    first multiple that reaches [required]. *)
Lemma growth_loop_smallest (required : Z) (n : nat) :
  forall (current : Z) (K : nat),
    1 <= current ->
    required <= current * 2 ^ Z.of_nat K <= SIZE_MAX ->
    (K <= n)%nat ->
    exists k : nat,
      growth_loop n current required = Done (current * 2 ^ Z.of_nat k)
      /\ required <= current * 2 ^ Z.of_nat k
      /\ forall j : nat, required <= current * 2 ^ Z.of_nat j -> (k <= j)%nat.
Proof.
  induction n as [| n IH]; intros current K Hc HK Hn.
  - replace K with 0%nat in HK by lia. simpl in HK. rewrite Z.mul_1_r in HK.
    exists 0%nat. simpl Z.of_nat. rewrite Z.pow_0_r, Z.mul_1_r.
    rewrite growth_loop_enough by lia. repeat split; [lia | intros; lia].
  - destruct (Z_lt_le_dec current required) as [Hlt | Hge].
    + destruct K as [| K]; [simpl in HK; lia |].
      rewrite Nat2Z.inj_succ, Z.pow_succ_r, Z.mul_assoc in HK by lia.
      assert (Hpow : 1 <= 2 ^ Z.of_nat K) by (apply Z.lt_pred_le, Z.pow_pos_nonneg; lia).
      assert (Hdbl : size_mul current STRING_GROWTH_FACTOR = current * 2).
      { unfold size_mul, STRING_GROWTH_FACTOR. apply to_size_small. nia. }
      destruct (IH (current * 2) K) as (k & Hrun & Hreach & Hmin); [lia | exact HK | lia |].
      exists (S k).
      rewrite growth_loop_double, Hdbl by exact Hlt.
      rewrite Nat2Z.inj_succ, Z.pow_succ_r, Z.mul_assoc by lia.
      repeat split; [exact Hrun | exact Hreach |].
      intros [| j] Hj; [simpl in Hj; lia |].
      rewrite Nat2Z.inj_succ, Z.pow_succ_r, Z.mul_assoc in Hj by lia.
      apply Hmin in Hj. lia.
    + exists 0%nat. simpl Z.of_nat. rewrite Z.pow_0_r, Z.mul_1_r.
      rewrite growth_loop_enough by lia. repeat split; [lia | intros; lia].
Qed.

(** A requirement in the lower half of [size_t] is always reached below
    [SIZE_MAX]. *)
Lemma growth_fits_lower_half (current required : Z) :
  1 <= current <= SIZE_MAX ->
  required <= 2 ^ (SIZE_BITS - 1) ->
  exists K : nat, required <= current * 2 ^ Z.of_nat K <= SIZE_MAX.
Proof.
  intros Hc Hr.
  assert (Hgen : forall (n : nat) (c : Z),
             1 <= c <= SIZE_MAX -> 2 ^ (SIZE_BITS - 1) <= c * 2 ^ Z.of_nat n ->
             exists K : nat, required <= c * 2 ^ Z.of_nat K <= SIZE_MAX).
  { induction n as [| n IH]; intros c Hc' Hn.
    - exists 0%nat. simpl in *. lia.
    - destruct (Z_lt_le_dec c required) as [Hlt | Hge].
      + rewrite Nat2Z.inj_succ, Z.pow_succ_r, Z.mul_assoc in Hn by lia.
        destruct (IH (c * 2)) as [K HK]; [| exact Hn |].
        * change (2 ^ (SIZE_BITS - 1)) with 9223372036854775808 in Hr.
          change SIZE_MAX with 18446744073709551615. lia.
        * exists (S K).
          rewrite Nat2Z.inj_succ, Z.pow_succ_r, Z.mul_assoc by lia. exact HK.
      + exists 0%nat. simpl. lia. }
  apply (Hgen (Z.to_nat (SIZE_BITS - 1)) current Hc).
  rewrite Z2Nat.id by (unfold SIZE_BITS; lia).
  assert (0 < 2 ^ (SIZE_BITS - 1)) by reflexivity. nia.
Qed.

(** C8 (as amended).  For every current capacity of at least 1 and every
    required value that some [current * 2^k] reaches without exceeding
    [SIZE_MAX], [string_calculate_growth] returns the smallest value of the
    form [current * 2^k] that is at least [required]; it returns [current]
    itself when [current >= required]. *)
Theorem string_calculate_growth_smallest (current required : Z) :
  1 <= current ->
  (exists K : nat, required <= current * 2 ^ Z.of_nat K <= SIZE_MAX) ->
  (exists k : nat,
      string_calculate_growth current required = Done (current * 2 ^ Z.of_nat k)
      /\ required <= current * 2 ^ Z.of_nat k
      /\ forall j : nat, required <= current * 2 ^ Z.of_nat j -> (k <= j)%nat)
  /\ (required <= current -> string_calculate_growth current required = Done current).
Proof.
  intros Hc [K HK]. split.
  - apply (growth_loop_smallest required _ current K Hc HK).
    pose proof (pow2_lt_size current K Hc (proj2 HK)). lia.
  - intros Hge. apply growth_loop_enough, Hge.
Qed.

Lemma string_calculate_growth_smallest_witness :
  1 <= 64
  /\ (exists K : nat, 100 <= 64 * 2 ^ Z.of_nat K <= SIZE_MAX)
  /\ (exists k : nat,
         string_calculate_growth 64 100 = Done (64 * 2 ^ Z.of_nat k)
         /\ 100 <= 64 * 2 ^ Z.of_nat k
         /\ forall j : nat, 100 <= 64 * 2 ^ Z.of_nat j -> (k <= j)%nat).
Proof.
  assert (HK : exists K : nat, 100 <= 64 * 2 ^ Z.of_nat K <= SIZE_MAX)
    by (exists 1%nat; vm_compute; split; discriminate).
  split; [lia | split; [exact HK |]].
  apply (string_calculate_growth_smallest 64 100); [lia | exact HK].
Defined.

(** C8 (as stated) fails: from capacity 64 no doubling below [2^64] reaches
    [2^63 + 1]; the next one wraps to 0 and the loop never exits. *)
Lemma string_calculate_growth_wraps :
  string_calculate_growth 64 (2 ^ 63 + 1) = Fault NoReturn
  /\ ~ (exists (n : nat) (v : Z), growth_loop n 64 (2 ^ 63 + 1) = Done v).
Proof.
  assert (H : string_calculate_growth 64 (2 ^ 63 + 1) = Fault NoReturn)
    by (vm_compute; reflexivity).
  split; [exact H |].
  intros (n & v & Hrun).
  rewrite (growth_loop_never_exits 64 (2 ^ 63 + 1)) in Hrun;
    [discriminate | vm_compute; split; discriminate | exact H].
Qed.

(** ** Creation *)

(** C1 (as amended).  [string_create_with_capacity(n)], when both
    allocations succeed, returns an instance whose buffer holds exactly [n]
    bytes, or [STRING_DEFAULT_CAPACITY] = 64 bytes when [n] is 0, with length
    0 and a zero terminator at offset 0; the default is a substitute for a
    zero request, not a lower bound. *)
Theorem string_create_with_capacity_spec (h : allocator) (n : Z) :
  0 <= n ->
  let cap := if n =? 0 then STRING_DEFAULT_CAPACITY else n in
  (grants h sizeof_string_t = true -> grants h cap = true ->
   exists s, string_create_with_capacity h n = Done (Some s))
  /\ (forall s, string_create_with_capacity h n = Done (Some s) ->
      Zlen (data s) = cap /\ capacity s = cap /\ length s = 0
      /\ get (data s) 0 = x00 /\ is_owner s = true).
Proof.
  intros Hn cap.
  assert (Hcap : 1 <= cap).
  { subst cap. destruct (n =? 0) eqn:E;
      [unfold STRING_DEFAULT_CAPACITY; lia | apply Z.eqb_neq in E; lia]. }
  unfold string_create_with_capacity, malloc. fold cap.
  destruct (grants h sizeof_string_t); simpl.
  - destruct (grants h cap); simpl.
    + destruct (store_ok (fresh h 0 cap) 0 x00) as [d Hd];
        [rewrite Zlen_fresh; lia |].
      rewrite Hd. simpl. split; [eauto |].
      intros s Hs. injection Hs as <-. simpl.
      apply store_inv in Hd. destruct Hd.
      rewrite Zlen_fresh in * by lia. auto.
    + split; [discriminate | discriminate].
  - split; [discriminate | discriminate].
Qed.

Lemma string_create_with_capacity_spec_witness :
  0 <= 100
  /\ exists s, string_create_with_capacity generous 100 = Done (Some s)
              /\ Zlen (data s) = 100 /\ length s = 0 /\ get (data s) 0 = x00.
Proof.
  split; [lia |].
  destruct (string_create_with_capacity_spec generous 100) as [Hex Hall]; [lia |].
  destruct Hex as [s Hs]; [reflexivity | reflexivity |].
  exists s. split; [exact Hs |].
  destruct (Hall s Hs) as (H1 & _ & H3 & H4 & _). auto.
Defined.

(** C1 (as stated) fails: a request for 1 byte is served with a 1-byte
    buffer, not with [max(1, 64)] bytes. *)
Lemma string_create_with_capacity_below_default :
  exists s, string_create_with_capacity generous 1 = Done (Some s)
            /\ capacity s = 1 /\ Zlen (data s) = 1
            /\ ~ (Z.max 1 STRING_DEFAULT_CAPACITY <= Zlen (data s)).
Proof.
  eexists. split; [vm_compute; reflexivity |].
  vm_compute. repeat split; intros H; apply H; reflexivity.
Qed.

(** ** Capacity *)

Lemma string_ensure_capacity_codes (h : allocator) (str : option string_t)
  (required : Z) (r : string_result_t) (st : option string_t) :
  string_ensure_capacity h str required = Done (r, st) ->
  r = STRING_SUCCESS \/ r = STRING_ERROR_NULL_POINTER \/ r = STRING_ERROR_OUT_OF_MEMORY.
Proof.
  unfold string_ensure_capacity. intros H.
  destruct str as [s |]; [| injection H as <- _; auto].
  destruct (negb (is_owner s)); [injection H as <- _; auto |].
  destruct (capacity s >=? required); [injection H as <- _; auto |].
  destruct (string_calculate_growth (capacity s) required); [| discriminate].
  simpl in H. destruct (realloc h (data s) a); injection H as <- _; auto.
Qed.

(** A failed growth leaves the string as it was. *)
Lemma string_ensure_capacity_failure (h : allocator) (s : string_t)
  (required : Z) (r : string_result_t) (st : option string_t) :
  string_ensure_capacity h (Some s) required = Done (r, st) ->
  r <> STRING_SUCCESS -> st = Some s.
Proof.
  unfold string_ensure_capacity. intros H Hr.
  destruct (negb (is_owner s)); [now injection H as _ <- |].
  destruct (capacity s >=? required); [now injection H as _ <- |].
  destruct (string_calculate_growth (capacity s) required); [| discriminate].
  simpl in H. destruct (realloc h (data s) a); injection H as <- <-;
    [contradiction | reflexivity].
Qed.

Lemma string_ensure_capacity_length (h : allocator) (s : string_t)
  (required : Z) (r : string_result_t) (s1 : string_t) :
  string_ensure_capacity h (Some s) required = Done (r, Some s1) ->
  length s1 = length s.
Proof.
  unfold string_ensure_capacity. intros H.
  destruct (negb (is_owner s)); [now injection H as _ <- |].
  destruct (capacity s >=? required); [now injection H as _ <- |].
  destruct (string_calculate_growth (capacity s) required); [| discriminate].
  simpl in H. destruct (realloc h (data s) a); now injection H as _ <-.
Qed.

(** A successful growth extends the buffer and keeps every byte of it. *)
Lemma string_ensure_capacity_success (h : allocator) (s : string_t)
  (required : Z) (st : option string_t) :
  wf s ->
  string_ensure_capacity h (Some s) required = Done (STRING_SUCCESS, st) ->
  exists s1 ext,
    st = Some s1 /\ wf s1 /\ length s1 = length s /\ is_owner s1 = is_owner s
    /\ required <= capacity s1 /\ data s1 = data s ++ ext.
Proof.
  intros Hwf H. destruct Hwf as [Hcap Hlen Hroom Hsize Hterm].
  unfold string_ensure_capacity in H.
  destruct (negb (is_owner s)); [discriminate |].
  destruct (capacity s >=? required) eqn:E.
  - injection H as <-. exists s, []. rewrite app_nil_r.
    apply Z.geb_le in E. repeat split; auto; lia.
  - rewrite Z.geb_leb in E. apply Z.leb_gt in E.
    unfold string_calculate_growth in H.
    destruct (growth_loop _ (capacity s) required) as [v | f] eqn:Hg; [| discriminate].
    apply growth_loop_result in Hg; [| unfold is_size; lia].
    destruct Hg as [[Hv0 Hv1] Hv2].
    simpl in H. unfold realloc in H.
    destruct (grants h v); [| discriminate].
    injection H as <-.
    rewrite take_all by lia.
    eexists _, _. split; [reflexivity |]. simpl.
    repeat split; simpl; auto; try lia.
    + rewrite Zlen_app, Zlen_fresh; lia.
    + rewrite get_app_l by lia. exact Hterm.
Qed.

(** ** Absent and misplaced arguments *)

(** C9.  On a present string, assigning, appending or inserting from a null
    buffer with a positive length returns [STRING_ERROR_INVALID_ARGUMENT]
    and leaves the structure as it was. *)
Theorem null_buffer_rejected (h : allocator) (s : string_t) (i n : Z) :
  0 < n ->
  i <= length s ->
  string_assign_buffer h (Some s) None n = Done (STRING_ERROR_INVALID_ARGUMENT, Some s)
  /\ string_append_buffer h (Some s) None n = Done (STRING_ERROR_INVALID_ARGUMENT, Some s)
  /\ string_insert_buffer h (Some s) i None n
     = Done (STRING_ERROR_INVALID_ARGUMENT, Some s).
Proof.
  intros Hn Hi.
  unfold string_assign_buffer, string_append_buffer, string_insert_buffer.
  assert (Hpos : (n >? 0) = true) by (apply Z.gtb_lt; lia).
  assert (Hidx : (i >? length s) = false) by (rewrite Z.gtb_ltb; apply Z.ltb_ge; lia).
  rewrite Hpos, Hidx. auto.
Qed.

Lemma null_buffer_rejected_witness :
  0 < 3 /\ 2 <= length (literal 8 "Hello")
  /\ string_insert_buffer generous (Some (literal 8 "Hello")) 2 None 3
     = Done (STRING_ERROR_INVALID_ARGUMENT, Some (literal 8 "Hello")).
Proof.
  split; [lia | split; [vm_compute; discriminate |]].
  apply (null_buffer_rejected generous (literal 8 "Hello") 2 3);
    [lia | vm_compute; discriminate].
Defined.

(** C5.  On a present string [string_insert_buffer] answers
    [STRING_ERROR_INVALID_INDEX] exactly when [index > length], and then
    leaves the structure as it was; inserting at [index = length] is
    [string_append_buffer], outcome for outcome. *)
Theorem insert_index_check (h : allocator) (s : string_t) (index : Z)
  (buffer : option (list byte)) (len : Z) :
  ((exists st, string_insert_buffer h (Some s) index buffer len
               = Done (STRING_ERROR_INVALID_INDEX, st))
   <-> index > length s)
  /\ (index > length s ->
      string_insert_buffer h (Some s) index buffer len
      = Done (STRING_ERROR_INVALID_INDEX, Some s))
  /\ string_insert_buffer h (Some s) (length s) buffer len
     = string_append_buffer h (Some s) buffer len.
Proof.
  assert (Hfail : index > length s ->
                  string_insert_buffer h (Some s) index buffer len
                  = Done (STRING_ERROR_INVALID_INDEX, Some s)).
  { intros Hgt. unfold string_insert_buffer.
    assert (E : (index >? length s) = true) by (apply Z.gtb_lt; lia).
    now rewrite E. }
  split; [split |]; [| eauto | split; [exact Hfail |]].
  - intros [st H]. unfold string_insert_buffer in H.
    destruct (index >? length s) eqn:E; [apply Z.gtb_lt in E; lia |].
    exfalso.
    assert (Hgo :
      forall body : string_t -> exec (string_result_t * option string_t),
        (forall s1 r st', body s1 = Done (r, st') -> r = STRING_SUCCESS) ->
        (r <- string_ensure_capacity h (Some s)
                (size_add (size_add (length s) len) 1) ;;
         match r with
         | (STRING_SUCCESS, Some s1) => body s1
         | (STRING_SUCCESS, None) => Fault OutOfBounds
         | (result, str1) => Done (result, str1)
         end) <> Done (STRING_ERROR_INVALID_INDEX, st)).
    { intros body Hbody Hrun.
      destruct (string_ensure_capacity h (Some s) _) as [[r st1] | f] eqn:He;
        [| discriminate].
      apply string_ensure_capacity_codes in He. simpl in Hrun.
      destruct He as [-> | [-> | ->]]; try discriminate.
      destruct st1 as [s1 |]; [| discriminate].
      apply Hbody in Hrun. discriminate. }
    assert (Hbody :
      forall s1 r st',
        (d <- (if index <? length s1
               then memmove (data s1) (index + len) index (size_sub (length s1) index)
               else Done (data s1)) ;;
         d <- match buffer with
              | Some b => memcpy d index b 0 len
              | None => Fault OutOfBounds
              end ;;
         d <- store d (size_add (length s) len) x00 ;;
         Done (STRING_SUCCESS,
               Some {| data := d; length := size_add (length s) len;
                       capacity := capacity s1; is_owner := is_owner s1 |}))
        = Done (r, st') -> r = STRING_SUCCESS).
    { intros s1 r st' Hrun.
      destruct (if index <? length s1 then _ else _); [| discriminate].
      simpl in Hrun. destruct buffer as [b |]; [| discriminate].
      destruct (memcpy _ _ _ _ _); [| discriminate]. simpl in Hrun.
      destruct (store _ _ _); [| discriminate]. simpl in Hrun.
      now injection Hrun as <- _. }
    destruct buffer as [b |]; destruct (len >? 0); try discriminate;
      destruct (len =? 0); try discriminate;
      exact (Hgo _ Hbody H).
  - unfold string_insert_buffer, string_append_buffer.
    assert (E1 : (length s >? length s) = false)
      by (rewrite Z.gtb_ltb; apply Z.ltb_irrefl).
    rewrite E1.
    destruct buffer as [b |]; destruct (len >? 0); try reflexivity;
      destruct (len =? 0); try reflexivity;
      destruct (string_ensure_capacity h (Some s) _) as [[r st1] | f] eqn:He;
      try reflexivity; simpl;
      destruct r; try reflexivity; destruct st1 as [s1 |]; try reflexivity;
      rewrite (string_ensure_capacity_length _ _ _ _ _ He), Z.ltb_irrefl;
      reflexivity.
Qed.

(** C7.  [string_trim] on a present string of length 0 returns
    [STRING_ERROR_NULL_POINTER] and leaves the structure as it was. *)
Theorem string_trim_empty (s : string_t) :
  length s = 0 ->
  string_trim (Some s) = Done (STRING_ERROR_NULL_POINTER, Some s).
Proof. intros H. unfold string_trim. now rewrite H. Qed.

Lemma string_trim_empty_witness :
  length (literal 16 "") = 0
  /\ string_trim (Some (literal 16 ""))
     = Done (STRING_ERROR_NULL_POINTER, Some (literal 16 "")).
Proof.
  split; [reflexivity |].
  apply (string_trim_empty (literal 16 "")). reflexivity.
Defined.

(** ** Copying out *)

Lemma content_get (s : string_t) (j : Z) :
  0 <= j < length s -> get (content s) j = get (data s) j.
Proof. intros. unfold content. now apply get_take. Qed.

Lemma Zlen_content (s : string_t) : wf s -> Zlen (content s) = length s.
Proof. intros []. unfold content. apply Zlen_take. lia. Qed.

(** C2.  With a destination of [k] bytes, [string_copy_to_buffer] answers
    [STRING_ERROR_BUFFER_TOO_SMALL] at once when [k = 0]; otherwise it writes
    the first [min(length, k - 1)] bytes of the content and a terminator
    after them, touches nothing else, and answers [STRING_SUCCESS] exactly
    when [k > length]. *)
Theorem string_copy_to_buffer_spec (s : string_t) (buf : list byte) (k : Z) :
  wf s ->
  0 <= k <= Zlen buf ->
  k <= SIZE_MAX ->
  (k = 0 ->
   string_copy_to_buffer (Some s) (Some buf) k
   = Done (STRING_ERROR_BUFFER_TOO_SMALL, Some buf))
  /\ (0 < k ->
      let m := Z.min (length s) (k - 1) in
      exists buf',
        string_copy_to_buffer (Some s) (Some buf) k
        = Done (if k >? length s then STRING_SUCCESS else STRING_ERROR_BUFFER_TOO_SMALL,
                Some buf')
        /\ take (m + 1) buf' = take m (content s) ++ [x00]
        /\ drop (m + 1) buf' = drop (m + 1) buf).
Proof.
  intros Hwf Hk Hmax. pose proof (Zlen_content s Hwf) as Hc.
  destruct Hwf as [Hcap Hlen Hroom Hsize Hterm].
  split.
  - intros ->. reflexivity.
  - intros Hpos m. unfold string_copy_to_buffer.
    assert (E0 : (k =? 0) = false) by (apply Z.eqb_neq; lia). rewrite E0.
    assert (Hm : (if length s >=? k then size_sub k 1 else length s) = m).
    { unfold size_sub. rewrite to_size_small by lia.
      rewrite Z.geb_leb. subst m.
      destruct (k <=? length s) eqn:E;
        [apply Z.leb_le in E | apply Z.leb_gt in E]; lia. }
    rewrite Hm.
    assert (Hm0 : 0 <= m <= length s /\ m < k) by lia.
    destruct (memcpy_ok buf 0 (data s) 0 m) as [d1 H1]; try lia.
    rewrite H1. simpl. apply memcpy_inv in H1. destruct H1.
    destruct (store_ok d1 m x00) as [d2 H2]; [lia |].
    rewrite H2. simpl. apply store_inv in H2. destruct H2.
    exists d2. split; [| split].
    + f_equal. f_equal.
      rewrite Z.gtb_ltb.
      destruct (m =? length s) eqn:E1; destruct (length s <? k) eqn:E2;
        try reflexivity; exfalso;
        [apply Z.eqb_eq in E1; apply Z.ltb_ge in E2
        | apply Z.eqb_neq in E1; apply Z.ltb_lt in E2]; lia.
    + apply buffer_ext.
      * rewrite Zlen_app, !Zlen_take by lia. reflexivity.
      * intros j Hj. rewrite Zlen_take in Hj by lia.
        rewrite get_take by lia.
        destruct (Z_lt_le_dec j m) as [Hlt | Hge].
        -- rewrite get_app_l by (rewrite Zlen_take; lia).
           rewrite get_take, content_get by lia.
           rewrite st_lo0, cp_mid0 by lia. f_equal. lia.
        -- replace j with m by lia.
           rewrite get_app_r; rewrite Zlen_take; try lia.
           rewrite Z.sub_diag. exact st_at0.
    + apply buffer_ext.
      * rewrite !Zlen_drop by lia. lia.
      * intros j Hj. rewrite Zlen_drop in Hj by lia.
        rewrite !get_drop by lia.
        rewrite st_hi0, cp_hi0 by lia. reflexivity.
Qed.

Lemma string_copy_to_buffer_spec_witness :
  wf (literal 8 "Hello") /\ 0 <= 3 <= Zlen (repeat xff 3) /\ 3 <= SIZE_MAX
  /\ exists buf',
       string_copy_to_buffer (Some (literal 8 "Hello")) (Some (repeat xff 3)) 3
       = Done (STRING_ERROR_BUFFER_TOO_SMALL, Some buf')
       /\ take 3 buf' = bytes "He" ++ [x00].
Proof.
  assert (Hwf : wf (literal 8 "Hello"))
    by (constructor; vm_compute; (reflexivity || discriminate)).
  assert (Hk : 0 <= 3 <= Zlen (repeat xff 3)) by (vm_compute; split; discriminate).
  assert (Hmax : 3 <= SIZE_MAX) by (vm_compute; discriminate).
  split; [exact Hwf | split; [exact Hk | split; [exact Hmax |]]].
  destruct (string_copy_to_buffer_spec (literal 8 "Hello") (repeat xff 3) 3 Hwf Hk Hmax)
    as [_ H].
  destruct H as (buf' & Hrun & Htake & _); [lia |].
  exists buf'. split; [exact Hrun | exact Htake].
Defined.

(** ** Removal *)

Lemma string_erase_invalid_index (s : string_t) (index count : Z) :
  length s <= index ->
  string_erase (Some s) index count = Done (STRING_ERROR_INVALID_INDEX, Some s).
Proof.
  intros H. unfold string_erase.
  assert (E : (index >=? length s) = true) by (rewrite Z.geb_leb; apply Z.leb_le; lia).
  now rewrite E.
Qed.

(** As long as [index + count] does not wrap, [string_erase] clamps the
    count, closes the gap and re-terminates. *)
Lemma string_erase_spec (s : string_t) (index count : Z) :
  wf s ->
  0 <= index < length s ->
  0 < count ->
  index + count <= SIZE_MAX ->
  exists s',
    string_erase (Some s) index count = Done (STRING_SUCCESS, Some s')
    /\ wf s'
    /\ length s' = length s - Z.min count (length s - index)
    /\ capacity s' = capacity s
    /\ content s'
       = take index (content s)
         ++ drop (index + Z.min count (length s - index)) (content s).
Proof.
  intros Hwf Hidx Hcount Hsum. pose proof (Zlen_content s Hwf) as Hc.
  destruct Hwf as [Hcap Hlen Hroom Hsize Hterm].
  set (c := Z.min count (length s - index)).
  unfold string_erase.
  assert (E1 : (index >=? length s) = false)
    by (rewrite Z.geb_leb; apply Z.leb_gt; lia).
  assert (E2 : (count =? 0) = false) by (apply Z.eqb_neq; lia).
  rewrite E1, E2.
  assert (Hclamp : (if size_add index count >? length s
                    then size_sub (length s) index else count) = c).
  { unfold size_add, size_sub. rewrite !to_size_small by lia.
    rewrite Z.gtb_ltb. subst c.
    destruct (length s <? index + count) eqn:E;
      [apply Z.ltb_lt in E | apply Z.ltb_ge in E]; lia. }
  rewrite Hclamp.
  assert (Hc0 : 0 < c <= length s - index) by lia.
  assert (Hafter : size_sub (size_sub (length s) index) c = length s - index - c).
  { unfold size_sub. rewrite (to_size_small (length s - index)) by lia.
    apply to_size_small. lia. }
  assert (Hnew : size_sub (length s) c = length s - c).
  { unfold size_sub. rewrite !to_size_small; lia. }
  rewrite Hafter, Hnew.
  assert (Hmove : exists d1,
    (if length s - index - c >? 0
     then memmove (data s) index (index + c) (length s - index - c)
     else Done (data s)) = Done d1
    /\ Zlen d1 = Zlen (data s)
    /\ (forall j, 0 <= j < index -> get d1 j = get (data s) j)
    /\ (forall j, index <= j < length s - c -> get d1 j = get (data s) (j + c))).
  { destruct (length s - index - c >? 0) eqn:E.
    - apply Z.gtb_lt in E. unfold memmove.
      destruct (memcpy_ok (data s) index (data s) (index + c) (length s - index - c))
        as [d1 H1]; try lia.
      exists d1. split; [exact H1 |]. apply memcpy_inv in H1. destruct H1.
      repeat split; auto.
      intros j Hj. rewrite cp_mid0 by lia. f_equal. lia.
    - rewrite Z.gtb_ltb in E. apply Z.ltb_ge in E.
      exists (data s). repeat split; auto. intros j Hj. lia. }
  destruct Hmove as (d1 & -> & Hlen1 & Hlo1 & Hmid1). simpl.
  destruct (store_ok d1 (length s - c) x00) as [d2 H2]; [lia |].
  rewrite H2. simpl. apply store_inv in H2. destruct H2.
  eexists. split; [reflexivity |]. simpl.
  split; [constructor; simpl; auto; lia |].
  split; [reflexivity | split; [reflexivity |]].
  unfold content at 1. simpl.
  apply buffer_ext.
  - rewrite Zlen_app, !Zlen_take, Zlen_drop by lia. lia.
  - intros j Hj. rewrite Zlen_take in Hj by lia.
    rewrite get_take, st_lo0 by lia.
    destruct (Z_lt_le_dec j index) as [Hlt | Hge].
    + rewrite get_app_l by (rewrite Zlen_take; lia).
      rewrite get_take, content_get, Hlo1 by lia. reflexivity.
    + rewrite get_app_r; rewrite Zlen_take; try lia.
      rewrite get_drop, content_get, Hmid1 by lia. f_equal. lia.
Qed.

(** C6 at [string_erase(s, 1, STRING_NPOS)] with [s] holding "Hello": the
    sum [index + count] wraps to 0, the clamp is skipped, the move reads
    from [data + index + count], far outside the buffer, and the new length
    is computed as 6. *)
Theorem string_erase_count_wraps :
  size_add 1 STRING_NPOS = 0
  /\ (size_add 1 STRING_NPOS >? length (literal 8 "Hello")) = false
  /\ size_sub (size_sub (length (literal 8 "Hello")) 1) STRING_NPOS = 5
  /\ size_sub (length (literal 8 "Hello")) STRING_NPOS = 6
  /\ string_erase (Some (literal 8 "Hello")) 1 STRING_NPOS = Fault OutOfBounds.
Proof. vm_compute. repeat split. Qed.

(** ** Insertion *)

(** A successful insertion of [n > 0] bytes opens a gap of [n] bytes at
    [i] and fills it from the buffer. *)
Lemma string_insert_buffer_spec (h : allocator) (s : string_t) (i : Z)
  (b : list byte) (n : Z) (s' : string_t) :
  wf s ->
  0 <= i <= length s ->
  0 < n ->
  string_insert_buffer h (Some s) i (Some b) n = Done (STRING_SUCCESS, Some s') ->
  wf s'
  /\ length s' = length s + n
  /\ n <= Zlen b
  /\ content s' = take i (content s) ++ take n b ++ drop i (content s).
Proof.
  intros Hwf Hi Hn H. pose proof (Zlen_content s Hwf) as Hc.
  unfold string_insert_buffer in H.
  assert (E1 : (i >? length s) = false) by (rewrite Z.gtb_ltb; apply Z.ltb_ge; lia).
  assert (E2 : (n >? 0) = true) by (apply Z.gtb_lt; lia).
  assert (E3 : (n =? 0) = false) by (apply Z.eqb_neq; lia).
  rewrite E1, ?E2, E3 in H.
  destruct (string_ensure_capacity h (Some s) _) as [[r st] | f] eqn:He;
    [| discriminate].
  simpl in H.
  assert (Hr : r = STRING_SUCCESS).
  { destruct r; try reflexivity; injection H as H _; discriminate. }
  subst r.
  destruct (string_ensure_capacity_success _ _ _ _ Hwf He)
    as (s1 & ext & -> & Hwf1 & Hlen1 & Hown1 & _ & Hdata1).
  destruct Hwf as [Hcap Hlen Hroom Hsize Hterm].
  destruct Hwf1 as [Hcap1 _ Hroom1 Hsize1 _].
  assert (Hpre : forall j, 0 <= j < capacity s -> get (data s1) j = get (data s) j).
  { intros j Hj. rewrite Hdata1. apply get_app_l. lia. }
  rewrite Hlen1 in *.
  assert (Hsub : size_sub (length s) i = length s - i).
  { unfold size_sub. apply to_size_small. lia. }
  rewrite Hsub in H.
  destruct (if i <? length s then _ else _) as [d1 | f] eqn:Hmove; [| discriminate].
  simpl in H.
  destruct (memcpy d1 i b 0 n) as [d2 | f] eqn:Hcopy; [| discriminate].
  simpl in H.
  destruct (store d2 (size_add (length s) n) x00) as [d3 | f] eqn:Hstore;
    [| discriminate].
  simpl in H. injection H as <-.
  apply memcpy_inv in Hcopy. destruct Hcopy.
  assert (Hmoved :
    Zlen d1 = Zlen (data s1)
    /\ length s + n <= Zlen (data s1)
    /\ (forall j, 0 <= j < i + n -> get d1 j = get (data s1) j)
    /\ (forall j, i + n <= j < length s + n -> get d1 j = get (data s1) (j - n))).
  { destruct (i <? length s) eqn:E.
    - apply Z.ltb_lt in E. unfold memmove in Hmove.
      apply memcpy_inv in Hmove. destruct Hmove.
      repeat split; auto; try lia.
      intros j Hj. rewrite cp_mid1 by lia. f_equal. lia.
    - apply Z.ltb_ge in E. injection Hmove as <-.
      repeat split; auto; lia. }
  destruct Hmoved as (Hlen_d1 & Hfit & Hlo1 & Hhi1).
  assert (Hnew : size_add (length s) n = length s + n).
  { unfold size_add. apply to_size_small. lia. }
  rewrite Hnew in *.
  apply store_inv in Hstore. destruct Hstore.
  split; [constructor; simpl; auto; lia |].
  split; [reflexivity |].
  split; [lia |].
  unfold content at 1. simpl.
  apply buffer_ext.
  - rewrite !Zlen_app, !Zlen_take, Zlen_drop by lia. lia.
  - intros j Hj. rewrite Zlen_take in Hj by lia.
    rewrite get_take, st_lo0 by lia.
    destruct (Z_lt_le_dec j i) as [Hlt | Hge].
    + rewrite get_app_l by (rewrite Zlen_take; lia).
      rewrite get_take, content_get by lia.
      rewrite cp_lo0, Hlo1, Hpre by lia. reflexivity.
    + rewrite get_app_r; rewrite Zlen_take; try lia.
      destruct (Z_lt_le_dec j (i + n)) as [Hlt' | Hge'].
      * rewrite get_app_l by (rewrite Zlen_take; lia).
        rewrite get_take, cp_mid0 by lia. reflexivity.
      * rewrite get_app_r; rewrite Zlen_take; try lia.
        rewrite get_drop, content_get by lia.
        rewrite cp_hi0, Hhi1, Hpre by lia. f_equal. lia.
Qed.

(** C4.  On a well-formed string, a successful
    [string_insert_buffer(s, i, b, n)] followed by [string_erase(s, i, n)]
    leaves the original length and content.  The erase itself reports
    success, except that it reports an invalid index, and changes nothing,
    when nothing was inserted at the very end. *)
Theorem insert_then_erase (h : allocator) (s : string_t) (i : Z)
  (b : list byte) (n : Z) (s' : string_t) :
  wf s ->
  0 <= i <= length s ->
  0 <= n ->
  string_insert_buffer h (Some s) i (Some b) n = Done (STRING_SUCCESS, Some s') ->
  exists r s'',
    string_erase (Some s') i n = Done (r, Some s'')
    /\ length s'' = length s
    /\ content s'' = content s
    /\ (r = STRING_SUCCESS
        \/ (n = 0 /\ i = length s /\ r = STRING_ERROR_INVALID_INDEX)).
Proof.
  intros Hwf Hi Hn H.
  destruct (Z.eq_dec n 0) as [-> | Hpos].
  - unfold string_insert_buffer in H.
    assert (E1 : (i >? length s) = false) by (rewrite Z.gtb_ltb; apply Z.ltb_ge; lia).
    rewrite E1 in H. simpl in H. injection H as <-.
    unfold string_erase.
    destruct (i >=? length s) eqn:E.
    + rewrite Z.geb_leb in E. apply Z.leb_le in E.
      exists STRING_ERROR_INVALID_INDEX, s. repeat split. right. repeat split. lia.
    + exists STRING_SUCCESS, s. simpl. auto.
  - pose proof (Zlen_content s Hwf) as Hc.
    destruct (string_insert_buffer_spec h s i b n s' Hwf Hi ltac:(lia) H)
      as (Hwf' & Hlen' & Hb & Hcontent').
    pose proof Hwf' as [Hcap' _ Hroom' Hsize' _].
    destruct (string_erase_spec s' i n Hwf') as (s'' & Hrun & _ & Hlen'' & _ & Hcontent'');
      try lia.
    exists STRING_SUCCESS, s''. split; [exact Hrun |].
    rewrite Hlen' in *.
    replace (Z.min n (length s + n - i)) with n in * by lia.
    split; [lia | split; [| auto]].
    rewrite Hcontent'', Hcontent'.
    rewrite take_app_exact by (apply Zlen_take; lia).
    rewrite app_assoc, drop_app_exact.
    + apply take_drop.
    + rewrite Zlen_app, !Zlen_take; lia.
Qed.

Lemma insert_then_erase_witness :
  wf (literal 8 "Hello") /\ 0 <= 2 <= length (literal 8 "Hello") /\ 0 <= 3
  /\ exists s' r s'',
       string_insert_buffer generous (Some (literal 8 "Hello")) 2 (Some (bytes "XYZ")) 3
       = Done (STRING_SUCCESS, Some s')
       /\ content s' = bytes "HeXYZllo"
       /\ string_erase (Some s') 2 3 = Done (r, Some s'')
       /\ length s'' = 5
       /\ content s'' = bytes "Hello".
Proof.
  assert (Hwf : wf (literal 8 "Hello"))
    by (constructor; vm_compute; (reflexivity || discriminate)).
  assert (Hi : 0 <= 2 <= length (literal 8 "Hello")) by (vm_compute; split; discriminate).
  assert (Hn : 0 <= 3) by lia.
  split; [exact Hwf | split; [exact Hi | split; [exact Hn |]]].
  eexists.
  assert (Hrun : string_insert_buffer generous (Some (literal 8 "Hello")) 2
                   (Some (bytes "XYZ")) 3 = Done (STRING_SUCCESS, Some _))
    by (vm_compute; reflexivity).
  destruct (insert_then_erase generous (literal 8 "Hello") 2 (bytes "XYZ") 3 _
              Hwf Hi Hn Hrun) as (r & s'' & Herase & Hlen & Hcontent & _).
  exists r, s''.
  split; [exact Hrun | split; [vm_compute; reflexivity |]].
  split; [exact Herase | split; [exact Hlen | exact Hcontent]].
Defined.

(** ** Comparison *)

Lemma byte_val_inj (x y : byte) : byte_val x = byte_val y -> x = y.
Proof.
  unfold byte_val. intros H. apply N2Z.inj in H.
  pose proof (Byte.of_to_N x) as Hx. rewrite H, Byte.of_to_N in Hx.
  now injection Hx.
Qed.

Lemma eqb_byte_val (x y : byte) :
  Byte.eqb x y = false -> byte_val x <> byte_val y.
Proof. intros H Hv. apply Byte.eqb_false in H. apply H, byte_val_inj, Hv. Qed.

Lemma sign_of_compare (u v : Z) : sign_of (u ?= v) = Z.sgn (u - v).
Proof.
  destruct (Z.compare_spec u v) as [-> | Hlt | Hgt]; simpl.
  - now rewrite Z.sub_diag.
  - symmetry. apply Z.sgn_neg. lia.
  - symmetry. apply Z.sgn_pos. lia.
Qed.

(** [memcmp] has the sign of the byte-wise lexicographic comparison. *)
Lemma bytes_diff_sign (a : list byte) :
  forall b, Z.sgn (bytes_diff a b) = sign_of (lexico a b).
Proof.
  induction a as [| x a IH]; intros [| y b]; try reflexivity.
  simpl. destruct (Byte.eqb x y) eqn:E.
  - apply Byte.byte_dec_bl in E. subst y. rewrite Z.compare_refl. apply IH.
  - apply eqb_byte_val in E. rewrite <- sign_of_compare.
    destruct (Z.compare_spec (byte_val x) (byte_val y)); [contradiction | |];
      reflexivity.
Qed.

Lemma take_take (m n : Z) (l : list byte) : m <= n -> take m (take n l) = take m l.
Proof.
  intros H. unfold take. rewrite firstn_firstn. f_equal. lia.
Qed.

Lemma take_cons (n : Z) (x : byte) (l : list byte) :
  0 < n -> take n (x :: l) = x :: take (n - 1) l.
Proof.
  intros H. unfold take.
  replace (Z.to_nat n) with (S (Z.to_nat (n - 1))) by lia.
  reflexivity.
Qed.

Lemma take_0 (l : list byte) : take 0 l = [].
Proof. reflexivity. Qed.

(** The order of the specification is the plain lexicographic order. *)
Lemma content_order_lex_full (a : list byte) :
  forall b, content_order a b = lex_full a b.
Proof.
  induction a as [| x a IH]; intros [| y b].
  - reflexivity.
  - unfold content_order. rewrite Zlen_cons. change (Zlen []) with 0.
    pose proof (Zlen_nonneg b). rewrite Z.min_l by lia.
    rewrite !take_0. cbn [lexico lex_full]. apply Z.compare_lt_iff. lia.
  - unfold content_order. rewrite Zlen_cons. change (Zlen []) with 0.
    pose proof (Zlen_nonneg a). rewrite Z.min_r by lia.
    rewrite !take_0. cbn [lexico lex_full]. apply Z.compare_gt_iff. lia.
  - unfold content_order. rewrite !Zlen_cons.
    pose proof (Zlen_nonneg a). pose proof (Zlen_nonneg b).
    rewrite !take_cons by lia.
    replace (Z.min (1 + Zlen a) (1 + Zlen b) - 1) with (Z.min (Zlen a) (Zlen b)) by lia.
    cbn [lexico lex_full]. rewrite <- IH. unfold content_order.
    rewrite Z.add_compare_mono_l.
    destruct (byte_val x ?= byte_val y); reflexivity.
Qed.

Lemma lex_full_antisym (a : list byte) :
  forall b, lex_full b a = CompOpp (lex_full a b).
Proof.
  induction a as [| x a IH]; intros [| y b]; try reflexivity.
  simpl. rewrite (Z.compare_antisym (byte_val x) (byte_val y)).
  destruct (byte_val x ?= byte_val y); simpl; auto.
Qed.

Lemma lex_full_eq (a : list byte) : forall b, lex_full a b = Eq <-> a = b.
Proof.
  induction a as [| x a IH]; intros [| y b]; simpl; try (split; [reflexivity | reflexivity]);
    try (split; discriminate).
  destruct (Z.compare_spec (byte_val x) (byte_val y)) as [Hv | Hv | Hv].
  - apply byte_val_inj in Hv. subst y. rewrite IH.
    split; [now intros -> | now intros [= ->]].
  - split; [discriminate | intros [= -> _]; lia].
  - split; [discriminate | intros [= -> _]; lia].
Qed.

Lemma lex_full_trans (a : list byte) :
  forall b c, lex_full a b <> Gt -> lex_full b c <> Gt -> lex_full a c <> Gt.
Proof.
  induction a as [| x a IH]; intros [| y b] [| z c]; simpl; try congruence.
  destruct (Z.compare_spec (byte_val x) (byte_val y)) as [Hxy | Hxy | Hxy];
    destruct (Z.compare_spec (byte_val y) (byte_val z)) as [Hyz | Hyz | Hyz];
    try congruence; intros H1 H2.
  - rewrite Hxy, Hyz, Z.compare_refl. eapply IH; eassumption.
  - replace (byte_val x ?= byte_val z) with Lt
      by (symmetry; apply Z.compare_lt_iff; lia).
    discriminate.
  - replace (byte_val x ?= byte_val z) with Lt
      by (symmetry; apply Z.compare_lt_iff; lia).
    discriminate.
  - replace (byte_val x ?= byte_val z) with Lt
      by (symmetry; apply Z.compare_lt_iff; lia).
    discriminate.
Qed.

Lemma absent_first_antisym (a b : option (list byte)) :
  absent_first b a = CompOpp (absent_first a b).
Proof.
  destruct a, b; simpl; try reflexivity.
  rewrite !content_order_lex_full. apply lex_full_antisym.
Qed.

Lemma absent_first_eq (a b : option (list byte)) :
  absent_first a b = Eq <-> a = b.
Proof.
  destruct a, b; simpl; try (split; [reflexivity | reflexivity]);
    try (split; discriminate).
  rewrite content_order_lex_full, lex_full_eq.
  split; [now intros -> | now intros [= ->]].
Qed.

Lemma absent_first_trans (a b c : option (list byte)) :
  absent_first a b <> Gt -> absent_first b c <> Gt -> absent_first a c <> Gt.
Proof.
  destruct a, b, c; simpl; try congruence.
  rewrite !content_order_lex_full. apply lex_full_trans.
Qed.

Lemma sign_of_nonpos (c : comparison) : sign_of c <= 0 <-> c <> Gt.
Proof. destruct c; simpl; split; (congruence || lia). Qed.

Lemma sgn_nonpos (r : Z) : Z.sgn r <= 0 <-> r <= 0.
Proof. destruct r; simpl; lia. Qed.

(** [string_compare] returns, and its result has the sign of the order of
    the specification. *)
Lemma string_compare_sign (a b : option string_t) :
  wf_opt a -> wf_opt b ->
  exists r,
    string_compare a b = Done r
    /\ Z.sgn r = sign_of (absent_first (content_of a) (content_of b)).
Proof.
  intros Ha Hb. destruct a as [s1 |], b as [s2 |]; simpl;
    try (eexists; split; reflexivity).
  simpl in Ha, Hb.
  pose proof (Zlen_content s1 Ha) as Hc1. pose proof (Zlen_content s2 Hb) as Hc2.
  destruct Ha as [Hcap1 Hlen1 Hroom1 _ _]. destruct Hb as [Hcap2 Hlen2 Hroom2 _ _].
  set (m := Z.min (length s1) (length s2)).
  assert (Hm : (if length s1 <? length s2 then length s1 else length s2) = m).
  { subst m. destruct (length s1 <? length s2) eqn:E;
      [apply Z.ltb_lt in E | apply Z.ltb_ge in E]; lia. }
  rewrite Hm. unfold memcmp. rewrite !in_bounds_true by lia. simpl.
  unfold content_order. rewrite Hc1, Hc2. fold m.
  unfold content. rewrite !take_take by lia.
  pose proof (bytes_diff_sign (take m (data s1)) (take m (data s2))) as Hsign.
  destruct (lexico (take m (data s1)) (take m (data s2))); simpl in Hsign.
  - apply -> Z.sgn_null_iff in Hsign. rewrite Hsign. simpl.
    rewrite Z.gtb_ltb.
    destruct (Z.compare_spec (length s1) (length s2)) as [He | Hl | Hg].
    + rewrite He, Z.ltb_irrefl. eexists. split; reflexivity.
    + apply Z.ltb_lt in Hl. rewrite Hl. eexists. split; reflexivity.
    + assert (E1 : (length s1 <? length s2) = false) by (apply Z.ltb_ge; lia).
      apply Z.ltb_lt in Hg. rewrite E1, Hg. eexists. split; reflexivity.
  - assert (E : (bytes_diff (take m (data s1)) (take m (data s2)) =? 0) = false).
    { apply Z.eqb_neq. intros H0. rewrite H0 in Hsign. discriminate. }
    rewrite E. eexists. split; [reflexivity | exact Hsign].
  - assert (E : (bytes_diff (take m (data s1)) (take m (data s2)) =? 0) = false).
    { apply Z.eqb_neq. intros H0. rewrite H0 in Hsign. discriminate. }
    rewrite E. eexists. split; [reflexivity | exact Hsign].
Qed.

Lemma sign_of_opp (c : comparison) : sign_of (CompOpp c) = - sign_of c.
Proof. destruct c; reflexivity. Qed.

Lemma sign_of_zero (c : comparison) : sign_of c = 0 <-> c = Eq.
Proof. destruct c; simpl; split; (congruence || lia). Qed.

(** C3.  [string_compare] is the absence-aware order of the specification:
    its result has the sign of [absent_first] on the contents (0 for two
    absent strings, an absent string before a present one, otherwise the
    byte-wise comparison over the shorter length with the length breaking a
    tie), and that makes it a total order: swapping the arguments flips the
    sign, 0 is returned exactly for equal contents, and "not after" is
    transitive. *)
Theorem string_compare_total_order (a b c : option string_t) :
  wf_opt a -> wf_opt b -> wf_opt c ->
  exists rab rba rbc rac,
    string_compare a b = Done rab
    /\ string_compare b a = Done rba
    /\ string_compare b c = Done rbc
    /\ string_compare a c = Done rac
    /\ Z.sgn rab = sign_of (absent_first (content_of a) (content_of b))
    /\ Z.sgn rba = - Z.sgn rab
    /\ (rab = 0 <-> content_of a = content_of b)
    /\ (rab <= 0 -> rbc <= 0 -> rac <= 0).
Proof.
  intros Ha Hb Hc.
  destruct (string_compare_sign a b Ha Hb) as (rab & Hab & Sab).
  destruct (string_compare_sign b a Hb Ha) as (rba & Hba & Sba).
  destruct (string_compare_sign b c Hb Hc) as (rbc & Hbc & Sbc).
  destruct (string_compare_sign a c Ha Hc) as (rac & Hac & Sac).
  exists rab, rba, rbc, rac. repeat (split; [assumption |]).
  split; [| split].
  - rewrite Sba, Sab, absent_first_antisym. apply sign_of_opp.
  - rewrite <- Z.sgn_null_iff, Sab, sign_of_zero. apply absent_first_eq.
  - rewrite <- (sgn_nonpos rab), <- (sgn_nonpos rbc), <- (sgn_nonpos rac).
    rewrite Sab, Sbc, Sac, !sign_of_nonpos. apply absent_first_trans.
Qed.

Lemma string_compare_total_order_witness :
  wf_opt (Some (literal 8 "ab")) /\ wf_opt (Some (literal 8 "abc")) /\ wf_opt None
  /\ exists rab rba,
       string_compare (Some (literal 8 "ab")) (Some (literal 8 "abc")) = Done rab
       /\ string_compare (Some (literal 8 "abc")) (Some (literal 8 "ab")) = Done rba
       /\ Z.sgn rab = -1
       /\ Z.sgn rba = - Z.sgn rab.
Proof.
  assert (H1 : wf_opt (Some (literal 8 "ab")))
    by (constructor; vm_compute; (reflexivity || discriminate)).
  assert (H2 : wf_opt (Some (literal 8 "abc")))
    by (constructor; vm_compute; (reflexivity || discriminate)).
  split; [exact H1 | split; [exact H2 | split; [exact I |]]].
  destruct (string_compare_total_order _ _ None H1 H2 I)
    as (rab & rba & _ & _ & Hab & Hba & _ & _ & Ssgn & Sflip & _).
  exists rab, rba.
  split; [exact Hab | split; [exact Hba | split; [| exact Sflip]]].
  rewrite Ssgn. vm_compute. reflexivity.
Defined.

(** ** Comparison with a null-terminated source *)

(** Two null-terminated buffers are compared without leaving either. *)
Lemma strcmp_returns (a : list byte) :
  forall c, In x00 a -> In x00 c -> exists r, strcmp a c = Done r.
Proof.
  induction a as [| x a IH]; intros [| z c] Ha Hc; simpl in *; try contradiction.
  destruct (Byte.eqb x z) eqn:E; [| eauto].
  apply Byte.byte_dec_bl in E. subst z.
  destruct (Byte.eqb x x00) eqn:E0; [eauto |].
  apply Byte.eqb_false in E0.
  apply IH.
  - destruct Ha as [Ha | Ha]; [congruence | exact Ha].
  - destruct Hc as [Hc | Hc]; [congruence | exact Hc].
Qed.

Lemma get_In (l : list byte) (p : Z) : 0 <= p < Zlen l -> In (get l p) l.
Proof. unfold get, Zlen. intros H. apply nth_In. lia. Qed.

Lemma drop_get (l : list byte) (i : Z) :
  0 <= i < Zlen l -> drop i l = get l i :: drop (i + 1) l.
Proof.
  unfold drop, get, Zlen. intros H.
  replace (Z.to_nat (i + 1)) with (S (Z.to_nat i)) by lia.
  assert (Hn : (Z.to_nat i < List.length l)%nat) by lia.
  revert Hn. generalize (Z.to_nat i). clear H i.
  induction l as [| x l IH]; intros n Hn; simpl in *; [lia |].
  destruct n as [| n]; [reflexivity |].
  apply IH. lia.
Qed.

Lemma byte_val_pos (x : byte) : x <> x00 -> 0 < byte_val x.
Proof.
  intros H. assert (0 <= byte_val x) by (unfold byte_val; lia).
  destruct (Z.eq_dec (byte_val x) 0) as [E | E]; [| lia].
  exfalso. apply H. apply byte_val_inj. exact E.
Qed.

(** [strcmp] of two texts free of zero bytes, each followed by its
    terminator, has the sign of their lexicographic order. *)
Lemma strcmp_text (a : list byte) :
  forall b ta tb,
    ~ In x00 a -> ~ In x00 b ->
    exists r,
      strcmp (a ++ x00 :: ta) (b ++ x00 :: tb) = Done r
      /\ Z.sgn r = sign_of (lex_full a b).
Proof.
  induction a as [| x a IH]; intros [| y b] ta tb Ha Hb; simpl.
  - exists 0. split; reflexivity.
  - assert (Hy : y <> x00) by (intros ->; apply Hb; now left).
    destruct (Byte.eqb x00 y) eqn:E;
      [apply Byte.byte_dec_bl in E; congruence |].
    eexists. split; [reflexivity |].
    pose proof (byte_val_pos y Hy). apply Z.sgn_neg.
    change (byte_val x00) with 0. lia.
  - assert (Hx : x <> x00) by (intros ->; apply Ha; now left).
    destruct (Byte.eqb x x00) eqn:E;
      [apply Byte.byte_dec_bl in E; congruence |].
    eexists. split; [reflexivity |].
    pose proof (byte_val_pos x Hx). apply Z.sgn_pos.
    change (byte_val x00) with 0. lia.
  - assert (Hx : x <> x00) by (intros ->; apply Ha; now left).
    destruct (Byte.eqb x y) eqn:E.
    + apply Byte.byte_dec_bl in E. subst y.
      destruct (Byte.eqb x x00) eqn:E0;
        [apply Byte.byte_dec_bl in E0; congruence |].
      rewrite Z.compare_refl. apply IH.
      * intros Hin. apply Ha. now right.
      * intros Hin. apply Hb. now right.
    + apply eqb_byte_val in E. eexists. split; [reflexivity |].
      rewrite <- sign_of_compare.
      destruct (Z.compare_spec (byte_val x) (byte_val y)); [contradiction | |];
        reflexivity.
Qed.

(** What follows a zero byte of the left operand is not read. *)
Lemma strcmp_ignores_tail (pre : list byte) :
  forall t1 t2 c, strcmp (pre ++ x00 :: t1) c = strcmp (pre ++ x00 :: t2) c.
Proof.
  induction pre as [| x pre IH]; intros t1 t2 [| y c]; simpl; try reflexivity.
  destruct (Byte.eqb x y); [| reflexivity].
  destruct (Byte.eqb x x00); [reflexivity | apply IH].
Qed.

(** The buffer of a string with a zero byte at [p]: the bytes before it,
    the zero byte, the rest. *)
Lemma data_up_to_zero (s : string_t) (p : Z) :
  wf s -> 0 <= p < length s -> get (content s) p = x00 ->
  data s = take p (content s) ++ x00 :: drop (p + 1) (data s).
Proof.
  intros [Hcap Hlen Hroom Hsize Hterm] Hp Hz.
  rewrite content_get in Hz by lia.
  unfold content. rewrite take_take by lia.
  rewrite <- Hz, <- drop_get by lia.
  symmetry. apply take_drop.
Qed.

(** C10.  [string_compare_cstr] reads the string only up to its first zero
    byte, not over its full length.  For a present string with a zero byte
    at position [p] inside its content and a null-terminated source, the
    result is the one [strcmp] gives for the [p] bytes before that
    position followed by a terminator, so every string with the same [p]
    bytes and a zero byte at [p] gets this very result.  When [p] is the
    first zero byte, the sign of the result is the order of those [p]
    bytes against the source text, and the result is 0 exactly when they
    spell the source text, which the whole content never does. *)
Theorem string_compare_cstr_stops_at_zero (s : string_t) (p : Z)
  (cstr : list byte) :
  wf s ->
  0 <= p < length s ->
  get (content s) p = x00 ->
  In x00 cstr ->
  exists r,
    string_compare_cstr (Some s) (Some cstr) = Done r
    /\ strcmp (take p (content s) ++ [x00]) cstr = Done r
    /\ (forall s2,
          wf s2 -> p < length s2 -> get (content s2) p = x00 ->
          take p (content s2) = take p (content s) ->
          string_compare_cstr (Some s2) (Some cstr) = Done r)
    /\ (forall text rest,
          cstr = text ++ x00 :: rest -> ~ In x00 text ->
          ~ In x00 (take p (content s)) ->
          Z.sgn r = sign_of (lex_full (take p (content s)) text)
          /\ (r = 0 <-> take p (content s) = text)
          /\ content s <> text).
Proof.
  intros Hwf Hp Hz Hc.
  pose proof (data_up_to_zero s p Hwf Hp Hz) as Hd.
  destruct (strcmp_returns (data s) cstr) as [r Hr]; [| exact Hc |].
  { rewrite Hd. apply in_or_app. right. now left. }
  assert (Hcut : strcmp (take p (content s) ++ [x00]) cstr = Done r).
  { rewrite <- Hr, Hd. apply strcmp_ignores_tail. }
  exists r. split_ands.
  - exact Hr.
  - exact Hcut.
  - intros s2 Hwf2 Hp2 Hz2 Hpre. simpl.
    rewrite (data_up_to_zero s2 p Hwf2 ltac:(lia) Hz2), Hpre, <- Hcut.
    apply strcmp_ignores_tail.
  - intros text rest -> Htext Hpre.
    destruct (strcmp_text (take p (content s)) text [] rest Hpre Htext)
      as (r' & Hr' & Hsgn).
    rewrite Hcut in Hr'. injection Hr' as <-.
    split_ands.
    + exact Hsgn.
    + rewrite <- lex_full_eq, <- sign_of_zero, <- Hsgn. symmetry. apply Z.sgn_null_iff.
    + intros E. apply Htext. rewrite <- E, <- Hz.
      apply get_In. rewrite Zlen_content by exact Hwf. lia.
Qed.

Lemma string_compare_cstr_stops_at_zero_witness :
  string_compare_cstr
    (Some {| data := bytes "ab" ++ x00 :: bytes "cd" ++ [x00; xaa; xaa];
             length := 5; capacity := 8; is_owner := true |})
    (Some (bytes "ac" ++ [x00])) = Done (-1)
  /\ string_compare_cstr
       (Some {| data := bytes "ab" ++ x00 :: bytes "xyz" ++ [x00; xaa];
                length := 6; capacity := 8; is_owner := true |})
       (Some (bytes "ac" ++ [x00])) = Done (-1).
Proof.
  destruct (string_compare_cstr_stops_at_zero
              {| data := bytes "ab" ++ x00 :: bytes "cd" ++ [x00; xaa; xaa];
                 length := 5; capacity := 8; is_owner := true |}
              2 (bytes "ac" ++ [x00]))
    as (r & Hr & Hcut & Hsame & _).
  - constructor; vm_compute; (reflexivity || discriminate).
  - vm_compute. split; [discriminate | reflexivity].
  - reflexivity.
  - vm_compute. auto.
  - vm_compute in Hcut. injection Hcut as <-.
    split; [exact Hr |].
    apply Hsame.
    + constructor; vm_compute; (reflexivity || discriminate).
    + reflexivity.
    + reflexivity.
    + reflexivity.
Defined.

(** The comparison is not over the full length: a 5-byte content with an
    embedded zero equals the 2-byte source that spells its head. *)
Example string_compare_cstr_embedded_zero :
  string_compare_cstr
    (Some {| data := bytes "ab" ++ x00 :: bytes "cd" ++ [x00; xaa; xaa];
             length := 5; capacity := 8; is_owner := true |})
    (Some (bytes "ab" ++ [x00])) = Done 0.
Proof. reflexivity. Qed.

(** ** Trimming returns

    The rounds allowed to the two loops of [string_trim] are never used
    up: on a well-formed, non-empty string the call returns. *)

Lemma trim_skip_leading_returns (d : list byte) (len : Z) (n : nat) :
  forall start,
    0 <= start <= len -> len <= Zlen d -> len <= SIZE_MAX ->
    (Z.to_nat (len - start) <= n)%nat ->
    exists st, trim_skip_leading n d len start = Done st /\ start <= st <= len.
Proof.
  induction n as [| n IH]; intros start Hs Hd Hmax Hn; simpl;
    destruct (start <? len) eqn:E;
    try (exists start; split; [reflexivity | lia]);
    apply Z.ltb_lt in E; [lia |].
  rewrite load_ok by lia. simpl.
  destruct (isspace (get d start)); [| exists start; split; [reflexivity | lia]].
  assert (Hnext : size_add start 1 = start + 1)
    by (unfold size_add; apply to_size_small; lia).
  rewrite Hnext.
  destruct (IH (start + 1)) as (st & Hrun & Hst); try lia.
  exists st. split; [exact Hrun | lia].
Qed.

Lemma trim_skip_trailing_returns (d : list byte) (start : Z) (n : nat) :
  forall end_,
    0 <= start <= end_ -> end_ <= Zlen d -> end_ <= SIZE_MAX ->
    (Z.to_nat (end_ - start) <= n)%nat ->
    exists e, trim_skip_trailing n d start end_ = Done e /\ start <= e <= end_.
Proof.
  induction n as [| n IH]; intros end_ Hs Hd Hmax Hn; simpl;
    destruct (end_ >? start) eqn:E;
    try (exists end_; split; [reflexivity | lia]);
    apply Z.gtb_lt in E; [lia |].
  assert (Hprev : size_sub end_ 1 = end_ - 1)
    by (unfold size_sub; apply to_size_small; lia).
  rewrite Hprev, load_ok by lia. simpl.
  destruct (isspace (get d (end_ - 1))); [| exists end_; split; [reflexivity | lia]].
  destruct (IH (end_ - 1)) as (e & Hrun & He); try lia.
  exists e. split; [exact Hrun | lia].
Qed.

Lemma string_trim_returns (s : string_t) :
  wf s -> 0 < length s ->
  exists s',
    string_trim (Some s) = Done (STRING_SUCCESS, Some s')
    /\ wf s' /\ length s' <= length s.
Proof.
  intros [Hcap Hlen Hroom Hsize Hterm] Hpos. unfold string_trim.
  assert (E : (length s =? 0) = false) by (apply Z.eqb_neq; lia). rewrite E.
  destruct (trim_skip_leading_returns (data s) (length s) (Z.to_nat (length s)) 0)
    as (start & -> & Hstart); try lia.
  simpl.
  destruct (trim_skip_trailing_returns (data s) start (Z.to_nat (length s)) (length s))
    as (end_ & -> & Hend); try lia.
  simpl.
  assert (Hnew : size_sub end_ start = end_ - start)
    by (unfold size_sub; apply to_size_small; lia).
  rewrite Hnew.
  assert (Hmove : exists d1,
    (if start >? 0 then memmove (data s) 0 start (end_ - start) else Done (data s))
    = Done d1 /\ Zlen d1 = Zlen (data s)).
  { destruct (start >? 0).
    - unfold memmove.
      destruct (memcpy_ok (data s) 0 (data s) start (end_ - start)) as [d1 H1];
        try lia.
      exists d1. split; [exact H1 |]. apply memcpy_inv in H1. now destruct H1.
    - eauto. }
  destruct Hmove as (d1 & -> & Hlen1). simpl.
  destruct (store_ok d1 (end_ - start) x00) as [d2 H2]; [lia |].
  rewrite H2. simpl. apply store_inv in H2. destruct H2.
  eexists. split; [reflexivity |]. simpl.
  split; [constructor; simpl; auto; lia | lia].
Qed.

(** ** Sample runs *)

Example create_refused (n : Z) : string_create_with_capacity exhausted n = Done None.
Proof. reflexivity. Qed.

(** The loop that wraps is within reach of the public interface. *)
Example reserve_never_returns :
  string_reserve generous (Some (literal 64 "")) (2 ^ 63 + 1) = Fault NoReturn.
Proof. vm_compute. reflexivity. Qed.

Example insert_at_end_is_append :
  string_insert_buffer generous (Some (literal 8 "Hello")) 5 (Some (bytes "XYZ")) 3
  = string_append_buffer generous (Some (literal 8 "Hello")) (Some (bytes "XYZ")) 3
  /\ exists s',
       string_append_buffer generous (Some (literal 8 "Hello")) (Some (bytes "XYZ")) 3
       = Done (STRING_SUCCESS, Some s')
       /\ content s' = bytes "HelloXYZ" /\ capacity s' = 16.
Proof.
  split; [vm_compute; reflexivity |].
  eexists. split; [vm_compute; reflexivity |]. vm_compute. auto.
Qed.

Example erase_clamps :
  exists s',
    string_erase (Some (literal 8 "Hello")) 1 10 = Done (STRING_SUCCESS, Some s')
    /\ content s' = bytes "H" /\ length s' = 1.
Proof. eexists. split; [vm_compute; reflexivity |]. vm_compute. auto. Qed.

Example trim_sample :
  exists s',
    string_trim (Some (literal 16 "  Hello  ")) = Done (STRING_SUCCESS, Some s')
    /\ content s' = bytes "Hello".
Proof. eexists. split; [vm_compute; reflexivity |]. vm_compute. auto. Qed.

(** * Further properties *)

(** ** Shared steps *)

Lemma take_app_le (n : Z) (a b : list byte) : n <= Zlen a -> take n (a ++ b) = take n a.
Proof.
  unfold Zlen, take. intros H. rewrite firstn_app.
  replace (Z.to_nat n - List.length a)%nat with 0%nat by lia.
  simpl. apply app_nil_r.
Qed.

Lemma Zlen_take_min (n : Z) (l : list byte) :
  0 <= n -> Zlen (take n l) = Z.min n (Zlen l).
Proof. unfold Zlen, take. intros H. rewrite length_firstn. lia. Qed.

Lemma get_repeat (b : byte) (k : nat) (j : Z) :
  0 <= j < Z.of_nat k -> get (repeat b k) j = b.
Proof. unfold get. intros H. apply nth_repeat_lt. lia. Qed.

Lemma Zlen_repeat (b : byte) (k : nat) : Zlen (repeat b k) = Z.of_nat k.
Proof. unfold Zlen. now rewrite repeat_length. Qed.

Lemma fresh_nil (h : allocator) (from n : Z) : n <= 0 -> fresh h from n = [].
Proof. intros H. unfold fresh. now replace (Z.to_nat n) with 0%nat by lia. Qed.

(** The return of a function that first calls [string_ensure_capacity]:
    either the capacity is there and the body ran, or the failure is passed
    on with the string as it was. *)
Lemma after_ensure_capacity (h : allocator) (s : string_t) (required : Z)
  (body : string_t -> exec (string_result_t * option string_t))
  (r : string_result_t) (st : option string_t) :
  (x <- string_ensure_capacity h (Some s) required ;;
   match x with
   | (STRING_SUCCESS, Some s1) => body s1
   | (STRING_SUCCESS, None) => Fault OutOfBounds
   | (result, str1) => Done (result, str1)
   end) = Done (r, st) ->
  (exists s1,
      string_ensure_capacity h (Some s) required = Done (STRING_SUCCESS, Some s1)
      /\ body s1 = Done (r, st))
  \/ (r <> STRING_SUCCESS /\ st = Some s).
Proof.
  intros H.
  destruct (string_ensure_capacity h (Some s) required) as [[r1 st1] | f] eqn:He;
    [| discriminate].
  simpl in H.
  destruct r1;
    try (right; injection H as <- <-;
         split; [discriminate |];
         eapply string_ensure_capacity_failure; [exact He | discriminate]).
  destruct st1 as [s1 |]; [| discriminate].
  left. exists s1. auto.
Qed.

(** What a successful [memset] leaves in the buffer. *)
Lemma memset_inv (buf : list byte) (off : Z) (b : byte) (n : Z) (d : list byte) :
  memset buf off b n = Done d ->
  0 <= off /\ 0 <= n /\ off + n <= Zlen buf
  /\ Zlen d = Zlen buf
  /\ (forall j, 0 <= j < off -> get d j = get buf j)
  /\ (forall j, off <= j < off + n -> get d j = b)
  /\ (forall j, off + n <= j -> get d j = get buf j).
Proof.
  unfold memset. intros H.
  destruct (in_bounds buf off n) eqn:Hb; [| discriminate].
  apply in_bounds_spec in Hb. injection H as <-.
  assert (Hmid : Zlen (repeat b (Z.to_nat n)) = n) by (rewrite Zlen_repeat; lia).
  repeat split; try lia.
  - apply Zlen_splice; lia.
  - intros j Hj. apply get_splice_lo; lia.
  - intros j Hj. rewrite get_splice_mid by lia. apply get_repeat. lia.
  - intros j Hj. apply get_splice_hi; lia.
Qed.

(** ** Capacity *)

(** X1.  [string_reserve] on a well-formed string never touches the
    length or the content and never lowers the capacity; on success the
    capacity is at least the one asked for, and on failure the structure is
    the one passed in. *)
Theorem string_reserve_keeps_content (h : allocator) (s : string_t) (n : Z)
  (r : string_result_t) (st : option string_t) :
  wf s ->
  string_reserve h (Some s) n = Done (r, st) ->
  exists s',
    st = Some s' /\ wf s'
    /\ length s' = length s /\ content s' = content s
    /\ capacity s <= capacity s'
    /\ (r = STRING_SUCCESS -> n <= capacity s')
    /\ (r <> STRING_SUCCESS -> s' = s).
Proof.
  intros Hwf H. unfold string_reserve in H.
  destruct (n <=? capacity s) eqn:E.
  - apply Z.leb_le in E. injection H as <- <-.
    exists s. split_ands; auto; lia.
  - destruct r;
      try (pose proof (string_ensure_capacity_failure _ _ _ _ _ H ltac:(discriminate))
             as ->;
           exists s; split_ands; auto; try lia; discriminate).
    destruct (string_ensure_capacity_success _ _ _ _ Hwf H)
      as (s1 & ext & -> & Hwf1 & Hlen1 & _ & Hreq & Hdata).
    exists s1. destruct Hwf as [Hcap Hlen Hroom Hsize Hterm].
    pose proof Hwf1 as [Hcap1 _ _ _ _].
    split_ands; auto.
    + unfold content. rewrite Hlen1, Hdata. apply take_app_le. lia.
    + rewrite <- Hcap1, <- Hcap, Hdata, Zlen_app. pose proof (Zlen_nonneg ext). lia.
    + intros Hr. now contradiction Hr.
Qed.

Lemma string_reserve_keeps_content_witness :
  wf (literal 8 "Hello")
  /\ exists s',
       string_reserve generous (Some (literal 8 "Hello")) 100
       = Done (STRING_SUCCESS, Some s')
       /\ content s' = content (literal 8 "Hello") /\ 100 <= capacity s'.
Proof.
  assert (Hwf : wf (literal 8 "Hello"))
    by (constructor; vm_compute; (reflexivity || discriminate)).
  split; [exact Hwf |].
  assert (Hrun : string_reserve generous (Some (literal 8 "Hello")) 100
                 = Done (STRING_SUCCESS, Some _)) by (vm_compute; reflexivity).
  destruct (string_reserve_keeps_content generous _ 100 _ _ Hwf Hrun)
    as (s' & Hs & _ & _ & Hcontent & _ & Hcap & _).
  exists s'. injection Hs as Hs. rewrite Hs in Hrun.
  split; [exact Hrun | split; [exact Hcontent | exact (Hcap eq_refl)]].
Defined.

(** X2.  A successful [string_resize] of a well-formed string to
    [new_length] keeps the first [new_length] bytes of the old content,
    fills what lies beyond the old length with zero bytes and re-terminates;
    a failed one leaves the structure as it was. *)
Theorem string_resize_spec (h : allocator) (s : string_t) (n : Z)
  (r : string_result_t) (st : option string_t) :
  wf s ->
  0 <= n ->
  string_resize h (Some s) n = Done (r, st) ->
  (r = STRING_SUCCESS ->
   exists s',
     st = Some s' /\ wf s' /\ length s' = n
     /\ content s' = take n (content s) ++ repeat x00 (Z.to_nat (n - length s)))
  /\ (r <> STRING_SUCCESS -> st = Some s).
Proof.
  intros Hwf Hn H. pose proof (Zlen_content s Hwf) as Hc.
  unfold string_resize in H.
  apply after_ensure_capacity in H.
  destruct H as [(s1 & He & H) | [Hr ->]]; [| split; [contradiction | reflexivity]].
  destruct (string_ensure_capacity_success _ _ _ _ Hwf He)
    as (s1' & ext & [= <-] & Hwf1 & Hlen1 & _ & _ & Hdata).
  destruct Hwf as [Hcap Hlen Hroom Hsize Hterm].
  destruct Hwf1 as [Hcap1 _ Hroom1 Hsize1 _].
  rewrite Hlen1 in *.
  destruct (if n >? length s then _ else _) as [d1 | f] eqn:Hfill; [| discriminate].
  simpl in H.
  destruct (store d1 n x00) as [d2 | f] eqn:Hstore; [| discriminate].
  simpl in H. injection H as <- <-.
  split; [intros _ | intros Hr; now contradiction Hr].
  apply store_inv in Hstore. destruct Hstore.
  assert (Hpre : forall j, 0 <= j < capacity s -> get (data s1) j = get (data s) j).
  { intros j Hj. rewrite Hdata. apply get_app_l. lia. }
  assert (Hfilled :
    Zlen d1 = Zlen (data s1)
    /\ (forall j, 0 <= j < Z.min n (length s) -> get d1 j = get (data s) j)
    /\ (forall j, length s <= j < n -> get d1 j = x00)).
  { destruct (n >? length s) eqn:E.
    - apply Z.gtb_lt in E.
      assert (Hsub : size_sub n (length s) = n - length s).
      { unfold size_sub. apply to_size_small.
        apply memset_inv in Hfill. pose proof (to_size_range (n - length s)). lia. }
      rewrite Hsub in Hfill. apply memset_inv in Hfill.
      destruct Hfill as (_ & _ & _ & Hl & Hlo & Hmid & _).
      split_ands; [exact Hl | |].
      + intros j Hj. rewrite Hlo, Hpre by lia. reflexivity.
      + intros j Hj. apply Hmid. lia.
    - rewrite Z.gtb_ltb in E. apply Z.ltb_ge in E. injection Hfill as <-.
      split_ands; [reflexivity | |].
      + intros j Hj. apply Hpre. lia.
      + intros j Hj. lia. }
  destruct Hfilled as (Hlen_d1 & Hkeep & Hzero).
  eexists. split; [reflexivity |]. simpl.
  split; [constructor; simpl; auto; lia |].
  split; [reflexivity |].
  unfold content at 1. simpl.
  apply buffer_ext.
  - rewrite Zlen_app, Zlen_repeat, !Zlen_take_min by lia. lia.
  - intros j Hj. rewrite Zlen_take_min in Hj by lia.
    rewrite get_take, st_lo0 by lia.
    destruct (Z_lt_le_dec j (length s)) as [Hlt | Hge].
    + rewrite get_app_l by (rewrite Zlen_take_min; lia).
      rewrite get_take, content_get, Hkeep by lia. reflexivity.
    + rewrite get_app_r; rewrite Zlen_take_min; try lia.
      rewrite Hzero by lia. symmetry. apply get_repeat. lia.
Qed.

Lemma string_resize_spec_witness :
  wf (literal 8 "Hello") /\ 0 <= 9
  /\ exists s',
       string_resize generous (Some (literal 8 "Hello")) 9
       = Done (STRING_SUCCESS, Some s')
       /\ content s' = bytes "Hello" ++ [x00; x00; x00; x00].
Proof.
  assert (Hwf : wf (literal 8 "Hello"))
    by (constructor; vm_compute; (reflexivity || discriminate)).
  split; [exact Hwf | split; [lia |]].
  assert (Hrun : string_resize generous (Some (literal 8 "Hello")) 9
                 = Done (STRING_SUCCESS, Some _)) by (vm_compute; reflexivity).
  destruct (string_resize_spec generous _ 9 _ _ Hwf ltac:(lia) Hrun) as [Hok _].
  destruct (Hok eq_refl) as (s' & Hs & _ & _ & Hcontent).
  exists s'. injection Hs as Hs. rewrite Hs in Hrun.
  split; [exact Hrun | exact Hcontent].
Defined.

(** X3.  [string_shrink_to_fit] on a well-formed string keeps the length
    and the content; when it succeeds the capacity is exactly
    [length + 1], and a second call succeeds without asking the allocator
    for anything and changes nothing; when it fails the structure is the one
    passed in. *)
Theorem string_shrink_to_fit_spec (h : allocator) (s : string_t)
  (r : string_result_t) (st : option string_t) :
  wf s ->
  string_shrink_to_fit h (Some s) = Done (r, st) ->
  exists s',
    st = Some s' /\ wf s'
    /\ length s' = length s /\ content s' = content s
    /\ (r = STRING_SUCCESS ->
        capacity s' = length s + 1
        /\ forall h', string_shrink_to_fit h' (Some s') = Done (STRING_SUCCESS, Some s'))
    /\ (r <> STRING_SUCCESS -> s' = s).
Proof.
  intros Hwf H. pose proof Hwf as [Hcap Hlen Hroom Hsize Hterm].
  unfold string_shrink_to_fit in H.
  assert (Hnew : size_add (length s) 1 = length s + 1)
    by (unfold size_add; apply to_size_small; lia).
  rewrite Hnew in H.
  destruct (is_owner s) eqn:Hown; simpl in H;
    [| injection H as <- <-; exists s; split_ands; auto; discriminate].
  assert (Hagain : forall s' : string_t,
             is_owner s' = true -> length s' = length s ->
             capacity s' = length s + 1 ->
             forall h', string_shrink_to_fit h' (Some s') = Done (STRING_SUCCESS, Some s')).
  { intros s' Ho Hl Hc h'. unfold string_shrink_to_fit.
    rewrite Ho, Hl, Hnew, Hc. simpl.
    assert (E : (length s + 1 >=? length s + 1) = true)
      by (rewrite Z.geb_leb; apply Z.leb_refl).
    now rewrite E. }
  destruct (length s + 1 >=? capacity s) eqn:E.
  - rewrite Z.geb_leb in E. apply Z.leb_le in E.
    injection H as <- <-. exists s. split_ands; auto.
    intros _. split; [lia | apply Hagain; auto; lia].
  - rewrite Z.geb_leb in E. apply Z.leb_gt in E.
    unfold realloc in H. destruct (grants h (length s + 1));
      [| injection H as <- <-; exists s; split_ands; auto; discriminate].
    injection H as <- <-.
    rewrite fresh_nil, app_nil_r by lia.
    eexists. split; [reflexivity |].
    split; [constructor; simpl; try lia |].
    + rewrite Zlen_take; lia.
    + rewrite get_take by lia. exact Hterm.
    + split_ands.
      * reflexivity.
      * unfold content. simpl. apply take_take. lia.
      * intros _. split; [reflexivity | apply Hagain; reflexivity].
      * intros Hr. now contradiction Hr.
Qed.

Lemma string_shrink_to_fit_spec_witness :
  wf (literal 8 "Hello")
  /\ exists s',
       string_shrink_to_fit generous (Some (literal 8 "Hello"))
       = Done (STRING_SUCCESS, Some s')
       /\ capacity s' = 6
       /\ string_shrink_to_fit exhausted (Some s') = Done (STRING_SUCCESS, Some s').
Proof.
  assert (Hwf : wf (literal 8 "Hello"))
    by (constructor; vm_compute; (reflexivity || discriminate)).
  split; [exact Hwf |].
  assert (Hrun : string_shrink_to_fit generous (Some (literal 8 "Hello"))
                 = Done (STRING_SUCCESS, Some _)) by (vm_compute; reflexivity).
  destruct (string_shrink_to_fit_spec generous _ _ _ Hwf Hrun)
    as (s' & Hs & _ & _ & _ & Hok & _).
  destruct (Hok eq_refl) as [Hcap Hagain].
  exists s'. injection Hs as Hs. rewrite Hs in Hrun.
  split; [exact Hrun | split; [exact Hcap | apply Hagain]].
Defined.

(** ** Assignment and creation *)

(** A successful [string_assign_buffer] of [n] bytes replaces the whole
    content by the first [n] bytes of the buffer; a failed one leaves the
    structure as it was. *)
Lemma string_assign_buffer_replaces (h : allocator) (s : string_t)
  (b : list byte) (n : Z) (r : string_result_t) (st : option string_t) :
  wf s ->
  0 <= n ->
  string_assign_buffer h (Some s) (Some b) n = Done (r, st) ->
  (r = STRING_SUCCESS ->
   exists s',
     st = Some s' /\ wf s' /\ length s' = n
     /\ content s' = take n b /\ Zlen (take n b) = n)
  /\ (r <> STRING_SUCCESS -> st = Some s).
Proof.
  intros Hwf Hn H. unfold string_assign_buffer in H.
  assert (Hbody :
    (x <- string_ensure_capacity h (Some s) (size_add n 1) ;;
     match x with
     | (STRING_SUCCESS, Some s1) =>
         d <- (if n >? 0 then memcpy (data s1) 0 b 0 n else Done (data s1)) ;;
         d <- store d n x00 ;;
         Done (STRING_SUCCESS,
               Some {| data := d; length := n;
                       capacity := capacity s1; is_owner := is_owner s1 |})
     | (STRING_SUCCESS, None) => Fault OutOfBounds
     | (result, str1) => Done (result, str1)
     end) = Done (r, st)).
  { destruct (n >? 0); exact H. }
  clear H. apply after_ensure_capacity in Hbody.
  destruct Hbody as [(s1 & He & H) | [Hr ->]]; [| split; [contradiction | reflexivity]].
  destruct (string_ensure_capacity_success _ _ _ _ Hwf He)
    as (s1' & ext & [= <-] & Hwf1 & Hlen1 & _ & _ & Hdata).
  destruct Hwf1 as [Hcap1 _ Hroom1 Hsize1 _].
  destruct (if n >? 0 then _ else _) as [d1 | f] eqn:Hcopy; [| discriminate].
  simpl in H.
  destruct (store d1 n x00) as [d2 | f] eqn:Hstore; [| discriminate].
  simpl in H. injection H as <- <-.
  split; [intros _ | intros Hr; now contradiction Hr].
  apply store_inv in Hstore. destruct Hstore.
  assert (Hcopied :
    Zlen d1 = Zlen (data s1) /\ Zlen (take n b) = n
    /\ (forall j, 0 <= j < n -> get d1 j = get b j)).
  { destruct (n >? 0) eqn:E.
    - apply memcpy_inv in Hcopy. destruct Hcopy.
      split_ands; [assumption | apply Zlen_take; lia |].
      intros j Hj. rewrite cp_mid0 by lia. f_equal. lia.
    - rewrite Z.gtb_ltb in E. apply Z.ltb_ge in E. injection Hcopy as <-.
      replace n with 0 by lia. split_ands; [reflexivity | reflexivity |].
      intros j Hj. lia. }
  destruct Hcopied as (Hlen_d1 & Hnb & Hget).
  eexists. split; [reflexivity |]. simpl.
  split; [constructor; simpl; auto; lia |].
  split; [reflexivity |]. split; [| exact Hnb].
  unfold content. simpl. apply buffer_ext.
  - rewrite Hnb. apply Zlen_take. lia.
  - intros j Hj. rewrite Zlen_take in Hj by lia.
    rewrite !get_take, st_lo0, Hget by lia. reflexivity.
Qed.

(** ** Concatenation and insertion *)

Lemma string_append_as_insert (h : allocator) (s : string_t)
  (buffer : option (list byte)) (len : Z) :
  string_append_buffer h (Some s) buffer len
  = string_insert_buffer h (Some s) (length s) buffer len.
Proof.
  unfold string_insert_buffer, string_append_buffer.
  assert (E1 : (length s >? length s) = false)
    by (rewrite Z.gtb_ltb; apply Z.ltb_irrefl).
  rewrite E1.
  destruct buffer as [b |]; destruct (len >? 0); try reflexivity;
    destruct (len =? 0); try reflexivity;
    destruct (string_ensure_capacity h (Some s) _) as [[r st1] | f] eqn:He;
    try reflexivity; simpl;
    destruct r; try reflexivity; destruct st1 as [s1 |]; try reflexivity;
    rewrite (string_ensure_capacity_length _ _ _ _ _ He), Z.ltb_irrefl;
    reflexivity.
Qed.

(** Whatever [string_insert_buffer] reports other than success, it has not
    touched the string. *)
Lemma string_insert_buffer_failure (h : allocator) (s : string_t) (i : Z)
  (buffer : option (list byte)) (n : Z) (r : string_result_t)
  (st : option string_t) :
  string_insert_buffer h (Some s) i buffer n = Done (r, st) ->
  r <> STRING_SUCCESS -> st = Some s.
Proof.
  intros H Hr. unfold string_insert_buffer in H.
  destruct (i >? length s); [now injection H as _ <- |].
  assert (Hbody :
    forall s1 r' st',
      (d <- (if i <? length s1
             then memmove (data s1) (i + n) i (size_sub (length s1) i)
             else Done (data s1)) ;;
       d <- match buffer with
            | Some b => memcpy d i b 0 n
            | None => Fault OutOfBounds
            end ;;
       d <- store d (size_add (length s) n) x00 ;;
       Done (STRING_SUCCESS,
             Some {| data := d; length := size_add (length s) n;
                     capacity := capacity s1; is_owner := is_owner s1 |}))
      = Done (r', st') -> r' = STRING_SUCCESS).
  { intros s1 r' st' Hrun.
    destruct (if i <? length s1 then _ else _); [| discriminate].
    simpl in Hrun. destruct buffer as [b |]; [| discriminate].
    destruct (memcpy _ _ _ _ _); [| discriminate]. simpl in Hrun.
    destruct (store _ _ _); [| discriminate]. simpl in Hrun.
    now injection Hrun as <- _. }
  destruct buffer as [b |]; destruct (n >? 0);
    try (now injection H as _ <-);
    (destruct (n =? 0); [now injection H as _ <- |]);
    apply after_ensure_capacity in H;
    destruct H as [(s1 & _ & H) | [_ ->]]; try reflexivity;
    apply Hbody in H; contradiction.
Qed.



(** The content after a successful append. *)
Lemma string_append_buffer_grows (h : allocator) (s : string_t)
  (b : list byte) (n : Z) (s' : string_t) :
  wf s ->
  0 <= n ->
  string_append_buffer h (Some s) (Some b) n = Done (STRING_SUCCESS, Some s') ->
  wf s' /\ length s' = length s + n
  /\ content s' = content s ++ take n b /\ Zlen (take n b) = n.
Proof.
  intros Hwf Hn H. pose proof (Zlen_content s Hwf) as Hc.
  rewrite string_append_as_insert in H.
  destruct (Z.eq_dec n 0) as [-> | Hpos].
  - unfold string_insert_buffer in H.
    assert (E : (length s >? length s) = false)
      by (rewrite Z.gtb_ltb; apply Z.ltb_irrefl).
    rewrite E in H. simpl in H. injection H as <-.
    change (take 0 b) with (@nil byte). rewrite app_nil_r.
    split_ands; auto. lia.
  - pose proof Hwf as [_ Hlen _ _ _].
    destruct (string_insert_buffer_spec h s (length s) b n s' Hwf
                ltac:(lia) ltac:(lia) H) as (Hwf' & Hlen' & Hb & Hcontent').
    split_ands; auto.
    + rewrite Hcontent'.
      rewrite (take_all (length s)) by lia.
      unfold drop. rewrite skipn_all2 by (unfold Zlen in Hc; lia).
      now rewrite app_nil_r.
    + apply Zlen_take. lia.
Qed.

(** X6.  Appends accumulate: after two successful calls of
    [string_append_buffer] on a well-formed string the content is the old
    content followed by the two fragments in order, and the length is the
    sum of the three lengths; an append that fails leaves the structure as
    it was. *)
Theorem string_append_buffer_twice (h1 h2 : allocator) (s s1 s2 : string_t)
  (b1 b2 : list byte) (n1 n2 : Z) :
  wf s ->
  0 <= n1 -> 0 <= n2 ->
  string_append_buffer h1 (Some s) (Some b1) n1 = Done (STRING_SUCCESS, Some s1) ->
  string_append_buffer h2 (Some s1) (Some b2) n2 = Done (STRING_SUCCESS, Some s2) ->
  wf s2
  /\ length s2 = length s + n1 + n2
  /\ content s2 = content s ++ take n1 b1 ++ take n2 b2
  /\ (forall h b n r st,
        string_append_buffer h (Some s2) b n = Done (r, st) ->
        r <> STRING_SUCCESS -> st = Some s2).
Proof.
  intros Hwf Hn1 Hn2 H1 H2.
  destruct (string_append_buffer_grows _ _ _ _ _ Hwf Hn1 H1)
    as (Hwf1 & Hlen1 & Hcontent1 & _).
  destruct (string_append_buffer_grows _ _ _ _ _ Hwf1 Hn2 H2)
    as (Hwf2 & Hlen2 & Hcontent2 & _).
  split_ands; auto.
  - lia.
  - rewrite Hcontent2, Hcontent1. symmetry. apply app_assoc.
  - intros h b n r st H Hr. rewrite string_append_as_insert in H.
    eapply string_insert_buffer_failure; eassumption.
Qed.

Lemma string_append_buffer_twice_witness :
  wf (literal 8 "Hello") /\ 0 <= 2 /\ 0 <= 5
  /\ exists s1 s2,
       string_append_buffer generous (Some (literal 8 "Hello")) (Some (bytes ", ")) 2
       = Done (STRING_SUCCESS, Some s1)
       /\ string_append_buffer generous (Some s1) (Some (bytes "World")) 5
          = Done (STRING_SUCCESS, Some s2)
       /\ content s2 = bytes "Hello" ++ bytes ", " ++ bytes "World"
       /\ length s2 = 5 + 2 + 5.
Proof.
  assert (Hwf : wf (literal 8 "Hello"))
    by (constructor; vm_compute; (reflexivity || discriminate)).
  split; [exact Hwf | split; [lia | split; [lia |]]].
  assert (Hruns : exists x1 x2,
             string_append_buffer generous (Some (literal 8 "Hello"))
               (Some (bytes ", ")) 2 = Done (STRING_SUCCESS, Some x1)
             /\ string_append_buffer generous (Some x1) (Some (bytes "World")) 5
                = Done (STRING_SUCCESS, Some x2))
    by (eexists; eexists; split; [vm_compute; reflexivity | vm_compute; reflexivity]).
  destruct Hruns as (x1 & x2 & H1 & H2).
  destruct (string_append_buffer_twice generous generous _ _ _ _ _ 2 5 Hwf
              ltac:(lia) ltac:(lia) H1 H2) as (_ & Hlen & Hcontent & _).
  exists x1, x2.
  split; [exact H1 | split; [exact H2 | split; [exact Hcontent | exact Hlen]]].
Defined.

(** With an allocator that grants what it is asked for, the capacity of an
    owning string can be raised to any requirement in the lower half of
    [size_t]. *)
Lemma string_ensure_capacity_granted (h : allocator) (s : string_t) (required : Z) :
  wf s ->
  is_owner s = true ->
  (forall k, grants h k = true) ->
  required <= 2 ^ (SIZE_BITS - 1) ->
  exists s1, string_ensure_capacity h (Some s) required = Done (STRING_SUCCESS, Some s1).
Proof.
  intros [Hcap Hlen Hroom Hsize Hterm] Hown Hgrant Hreq.
  unfold string_ensure_capacity. rewrite Hown. simpl.
  destruct (capacity s >=? required); [eauto |].
  destruct (growth_fits_lower_half (capacity s) required) as [K HK]; [lia | exact Hreq |].
  destruct (growth_loop_smallest required (Z.to_nat SIZE_BITS) (capacity s) K)
    as (k & Hrun & _); [lia | exact HK | |].
  { pose proof (pow2_lt_size (capacity s) K ltac:(lia) (proj2 HK)). lia. }
  unfold string_calculate_growth. rewrite Hrun. simpl.
  unfold realloc. rewrite Hgrant. eauto.
Qed.

(** ** Removal *)

(** X8.  As long as [index + count] fits [size_t], [string_erase] on a
    well-formed string either rejects an index at or past the end, changing
    nothing, or removes [min(count, length - index)] bytes at [index]: the
    content before and after the gap is joined, the length drops by that
    many, the capacity stays and the invariant is kept. *)
Theorem string_erase_within_range (s : string_t) (index count : Z) :
  wf s ->
  0 <= index ->
  0 <= count ->
  index + count <= SIZE_MAX ->
  exists r s',
    string_erase (Some s) index count = Done (r, Some s')
    /\ wf s' /\ capacity s' = capacity s
    /\ (length s <= index -> r = STRING_ERROR_INVALID_INDEX /\ s' = s)
    /\ (index < length s ->
        r = STRING_SUCCESS
        /\ length s' = length s - Z.min count (length s - index)
        /\ content s'
           = take index (content s)
             ++ drop (index + Z.min count (length s - index)) (content s)).
Proof.
  intros Hwf Hi Hc Hsum.
  destruct (Z_le_gt_dec (length s) index) as [Hout | Hin].
  - exists STRING_ERROR_INVALID_INDEX, s.
    rewrite string_erase_invalid_index by exact Hout.
    split_ands; auto; intros; lia.
  - destruct (Z.eq_dec count 0) as [-> | Hpos].
    + exists STRING_SUCCESS, s. unfold string_erase.
      assert (E : (index >=? length s) = false)
        by (rewrite Z.geb_leb; apply Z.leb_gt; lia).
      rewrite E. simpl.
      split_ands; auto; [intros; lia |].
      intros _. rewrite Z.min_l by lia. rewrite Z.add_0_r, Z.sub_0_r.
      split_ands; auto. symmetry. apply take_drop.
    + destruct (string_erase_spec s index count Hwf) as (s' & Hrun & Hwf' & Hl & Hcap & Hcn);
        try lia.
      exists STRING_SUCCESS, s'. split_ands; auto. intros; lia.
Qed.

Lemma string_erase_within_range_witness :
  wf (literal 8 "Hello") /\ 0 <= 1 /\ 0 <= 10 /\ 1 + 10 <= SIZE_MAX
  /\ exists s',
       string_erase (Some (literal 8 "Hello")) 1 10 = Done (STRING_SUCCESS, Some s')
       /\ length s' = 1 /\ content s' = bytes "H".
Proof.
  assert (Hwf : wf (literal 8 "Hello"))
    by (constructor; vm_compute; (reflexivity || discriminate)).
  assert (Hsum : 1 + 10 <= SIZE_MAX) by (vm_compute; discriminate).
  split; [exact Hwf | split; [lia | split; [lia | split; [exact Hsum |]]]].
  destruct (string_erase_within_range (literal 8 "Hello") 1 10 Hwf
              ltac:(lia) ltac:(lia) Hsum) as (r & s' & Hrun & _ & _ & _ & Hin).
  destruct Hin as (Hr & Hlen & Hcontent); [vm_compute; reflexivity |].
  exists s'. rewrite Hr in Hrun.
  split; [exact Hrun | split; [exact Hlen | exact Hcontent]].
Defined.

(** [string_pop_back] on a well-formed string rejects an empty one with
    [STRING_ERROR_INVALID_INDEX], changing nothing, and otherwise drops
    exactly the last byte, keeping capacity and invariant. *)
Lemma string_pop_back_drops (s : string_t) :
  wf s ->
  exists r s',
    string_pop_back (Some s) = Done (r, Some s')
    /\ wf s' /\ capacity s' = capacity s
    /\ (length s = 0 -> r = STRING_ERROR_INVALID_INDEX /\ s' = s)
    /\ (0 < length s ->
        r = STRING_SUCCESS
        /\ length s' = length s - 1
        /\ content s' = take (length s - 1) (content s)).
Proof.
  intros Hwf. pose proof Hwf as [Hcap Hlen Hroom Hsize Hterm].
  unfold string_pop_back.
  destruct (length s =? 0) eqn:E.
  - apply Z.eqb_eq in E. exists STRING_ERROR_INVALID_INDEX, s.
    split_ands; auto. intros; lia.
  - apply Z.eqb_neq in E.
    assert (Hnew : size_sub (length s) 1 = length s - 1)
      by (unfold size_sub; apply to_size_small; lia).
    rewrite Hnew.
    destruct (store_ok (data s) (length s - 1) x00) as [d H]; [lia |].
    rewrite H. simpl. apply store_inv in H. destruct H.
    eexists _, _. split; [reflexivity |].
    split; [constructor; simpl; auto; lia |].
    split; [reflexivity |]. split; [intros; lia |].
    intros _. split_ands; try reflexivity.
    unfold content. simpl. rewrite take_take by lia.
    apply buffer_ext.
    + rewrite !Zlen_take; lia.
    + intros j Hj. rewrite Zlen_take in Hj by lia.
      rewrite !get_take by lia. apply st_lo0. lia.
Qed.

(** X9.  [string_pop_back] drops exactly the last byte of a well-formed
    string, and refuses an empty or absent one with
    [STRING_ERROR_INVALID_INDEX], changing nothing; it undoes
    [string_append_char]: after a successful append of one byte the content
    is the old one followed by that byte, and popping it brings back the
    old length and content. *)
Theorem string_append_char_pop_back (h : allocator) (s : string_t) (c : byte) :
  wf s ->
  string_pop_back None = Done (STRING_ERROR_INVALID_INDEX, None)
  /\ (length s = 0 ->
      string_pop_back (Some s) = Done (STRING_ERROR_INVALID_INDEX, Some s))
  /\ (0 < length s ->
      exists s',
        string_pop_back (Some s) = Done (STRING_SUCCESS, Some s')
        /\ wf s' /\ capacity s' = capacity s
        /\ content s' = take (length s - 1) (content s))
  /\ (forall s1,
        string_append_char h (Some s) c = Done (STRING_SUCCESS, Some s1) ->
        content s1 = content s ++ [c]
        /\ exists s2,
             string_pop_back (Some s1) = Done (STRING_SUCCESS, Some s2)
             /\ length s2 = length s /\ content s2 = content s).
Proof.
  intros Hwf. split; [reflexivity |].
  destruct (string_pop_back_drops s Hwf) as (r & s' & Hpop & Hwf' & Hcap' & Hempty & Hok).
  split_ands.
  - intros H0. destruct (Hempty H0) as [-> ->]. exact Hpop.
  - intros Hpos. destruct (Hok Hpos) as (-> & _ & Hcontent). exists s'. auto.
  - intros s1 H. unfold string_append_char in H.
    pose proof (Zlen_content s Hwf) as Hc. pose proof Hwf as [_ Hlen _ _ _].
    destruct (string_append_buffer_grows h s [c] 1 s1 Hwf ltac:(lia) H)
      as (Hwf1 & Hlen1 & Hcontent1 & _).
    change (take 1 [c]) with [c] in Hcontent1.
    split; [exact Hcontent1 |].
    destruct (string_pop_back_drops s1 Hwf1) as (r1 & s2 & Hrun & _ & _ & _ & Hok1).
    destruct Hok1 as (-> & Hlen2 & Hcontent2); [lia |].
    exists s2. split; [exact Hrun |]. split; [lia |].
    rewrite Hcontent2, Hcontent1, Hlen1.
    apply take_app_exact. lia.
Qed.

Lemma string_append_char_pop_back_witness :
  wf (literal 8 "Hello")
  /\ exists s1 s2,
       string_append_char generous (Some (literal 8 "Hello")) x21
       = Done (STRING_SUCCESS, Some s1)
       /\ content s1 = bytes "Hello" ++ [x21]
       /\ string_pop_back (Some s1) = Done (STRING_SUCCESS, Some s2)
       /\ content s2 = bytes "Hello".
Proof.
  assert (Hwf : wf (literal 8 "Hello"))
    by (constructor; vm_compute; (reflexivity || discriminate)).
  split; [exact Hwf |].
  assert (Hrun : exists x1,
             string_append_char generous (Some (literal 8 "Hello")) x21
             = Done (STRING_SUCCESS, Some x1))
    by (eexists; vm_compute; reflexivity).
  destruct Hrun as [x1 Hrun].
  destruct (string_append_char_pop_back generous _ x21 Hwf) as (_ & _ & _ & Hinv).
  destruct (Hinv x1 Hrun) as (Hcontent1 & s2 & Hpop & _ & Hcontent2).
  exists x1, s2. auto.
Defined.

(** ** Indexed access *)

(** X10.  [string_set_at] on a well-formed string rejects an index at or
    past the end with [STRING_ERROR_INVALID_INDEX], changing nothing;
    inside the string it succeeds, [string_at] then reads the byte written
    at that index and the old byte at every other one, and length, capacity
    and invariant are kept. *)
Theorem string_set_at_then_at (s : string_t) (i : Z) (c : byte) :
  wf s ->
  0 <= i ->
  exists r s',
    string_set_at (Some s) i c = Done (r, Some s')
    /\ wf s' /\ length s' = length s /\ capacity s' = capacity s
    /\ (length s <= i -> r = STRING_ERROR_INVALID_INDEX /\ s' = s)
    /\ (i < length s ->
        r = STRING_SUCCESS
        /\ string_at (Some s') i = Done c
        /\ forall j, 0 <= j -> j <> i -> string_at (Some s') j = string_at (Some s) j).
Proof.
  intros Hwf Hi. pose proof Hwf as [Hcap Hlen Hroom Hsize Hterm].
  unfold string_set_at.
  destruct (i >=? length s) eqn:E.
  - rewrite Z.geb_leb in E. apply Z.leb_le in E.
    exists STRING_ERROR_INVALID_INDEX, s. split_ands; auto. intros; lia.
  - rewrite Z.geb_leb in E. apply Z.leb_gt in E.
    destruct (store_ok (data s) i c) as [d H]; [lia |].
    rewrite H. simpl. apply store_inv in H. destruct H.
    eexists _, _. split; [reflexivity |].
    split; [constructor; simpl; auto; try lia; rewrite st_hi0 by lia; exact Hterm |].
    split; [reflexivity |]. split; [reflexivity |]. split; [intros; lia |].
    intros _. split; [reflexivity |].
    unfold string_at. simpl.
    assert (E' : (i >=? length s) = false) by (rewrite Z.geb_leb; apply Z.leb_gt; lia).
    rewrite E'. split.
    + rewrite load_ok by lia. now rewrite st_at0.
    + intros j Hj Hne. destruct (j >=? length s) eqn:Ej; [reflexivity |].
      rewrite Z.geb_leb in Ej. apply Z.leb_gt in Ej.
      rewrite !load_ok by lia. f_equal.
      destruct (Z_lt_le_dec j i); [apply st_lo0 | apply st_hi0]; lia.
Qed.

Lemma string_set_at_then_at_witness :
  wf (literal 8 "Hello") /\ 0 <= 1
  /\ exists s',
       string_set_at (Some (literal 8 "Hello")) 1 x61 = Done (STRING_SUCCESS, Some s')
       /\ string_at (Some s') 1 = Done x61.
Proof.
  assert (Hwf : wf (literal 8 "Hello"))
    by (constructor; vm_compute; (reflexivity || discriminate)).
  split; [exact Hwf | split; [lia |]].
  destruct (string_set_at_then_at (literal 8 "Hello") 1 x61 Hwf ltac:(lia))
    as (r & s' & Hrun & _ & _ & _ & _ & Hok).
  destruct Hok as (Hr & Hat & _); [vm_compute; reflexivity |].
  exists s'. rewrite Hr in Hrun. split; [exact Hrun | exact Hat].
Defined.

(** [string_at] never reads outside the content of a well-formed string:
    it returns the content byte at an index inside it and a zero byte at
    any other index or for an absent string. *)
Lemma string_at_total (s : string_t) (i : Z) :
  wf s ->
  0 <= i ->
  string_at (Some s) i = Done (if i <? length s then get (content s) i else x00)
  /\ string_at None i = Done x00.
Proof.
  intros [Hcap Hlen Hroom Hsize Hterm] Hi. split; [| reflexivity].
  unfold string_at. rewrite Z.geb_leb.
  destruct (length s <=? i) eqn:E.
  - apply Z.leb_le in E.
    assert (E' : (i <? length s) = false) by (apply Z.ltb_ge; lia).
    now rewrite E'.
  - apply Z.leb_gt in E.
    assert (E' : (i <? length s) = true) by (apply Z.ltb_lt; lia).
    rewrite E', load_ok, content_get by lia. reflexivity.
Qed.

(** ** Searching *)

Lemma find_char_loop_spec (d : list byte) (len : Z) (c : byte) (n : nat) :
  forall i,
    0 <= i <= len -> len <= Zlen d -> len < SIZE_MAX ->
    (Z.to_nat (len - i) <= n)%nat ->
    exists r,
      find_char_loop n d len c i = Done r
      /\ ((r = STRING_NPOS /\ forall j, i <= j < len -> get d j <> c)
          \/ (i <= r < len /\ get d r = c /\ forall j, i <= j < r -> get d j <> c)).
Proof.
  induction n as [| n IH]; intros i Hi Hd Hmax Hn; simpl;
    destruct (i <? len) eqn:E;
    try (exists STRING_NPOS; split; [reflexivity |]; left; split; [reflexivity |];
         apply Z.ltb_ge in E; intros; lia);
    apply Z.ltb_lt in E; [lia |].
  rewrite load_ok by lia. simpl.
  destruct (Byte.eqb (get d i) c) eqn:Ec.
  - apply Byte.byte_dec_bl in Ec. exists i. split; [reflexivity |].
    right. split_ands; [lia | lia | exact Ec | intros; lia].
  - apply Byte.eqb_false in Ec.
    assert (Hnext : size_add i 1 = i + 1)
      by (unfold size_add; apply to_size_small; lia).
    rewrite Hnext.
    destruct (IH (i + 1)) as (r & Hrun & Hr); try lia.
    exists r. split; [exact Hrun |].
    destruct Hr as [[-> Hnone] | (Hrange & Hat & Hbefore)].
    + left. split; [reflexivity |]. intros j Hj.
      destruct (Z.eq_dec j i) as [-> | Hne]; [exact Ec | apply Hnone; lia].
    + right. split_ands; [lia | lia | exact Hat |]. intros j Hj.
      destruct (Z.eq_dec j i) as [-> | Hne]; [exact Ec | apply Hbefore; lia].
Qed.

(** X11.  [string_find_char] on a well-formed string returns the first
    index at or after [start_pos] whose content byte is [c], and
    [STRING_NPOS] exactly when there is none (in particular when
    [start_pos] is at or past the end). *)
Theorem string_find_char_first (s : string_t) (c : byte) (start_pos : Z) :
  wf s ->
  0 <= start_pos ->
  exists r,
    string_find_char (Some s) c start_pos = Done r
    /\ ((r = STRING_NPOS
         /\ forall j, start_pos <= j < length s -> get (content s) j <> c)
        \/ (start_pos <= r < length s
            /\ get (content s) r = c
            /\ forall j, start_pos <= j < r -> get (content s) j <> c)).
Proof.
  intros [Hcap Hlen Hroom Hsize Hterm] Hstart. unfold string_find_char.
  destruct (start_pos >=? length s) eqn:E.
  - rewrite Z.geb_leb in E. apply Z.leb_le in E.
    exists STRING_NPOS. split; [reflexivity |]. left. split; [reflexivity |].
    intros; lia.
  - rewrite Z.geb_leb in E. apply Z.leb_gt in E.
    destruct (find_char_loop_spec (data s) (length s) c (Z.to_nat (length s)) start_pos)
      as (r & Hrun & Hr); try lia.
    exists r. split; [exact Hrun |].
    destruct Hr as [[-> Hnone] | (Hrange & Hat & Hbefore)].
    + left. split; [reflexivity |]. intros j Hj.
      rewrite content_get by lia. apply Hnone. lia.
    + right. split_ands; [lia | lia | rewrite content_get by lia; exact Hat |].
      intros j Hj. rewrite content_get by lia. apply Hbefore. lia.
Qed.

Lemma string_find_char_first_witness :
  wf (literal 32 "Hello, World! Hello again!") /\ 0 <= 5
  /\ string_find_char (Some (literal 32 "Hello, World! Hello again!")) x6f 5 = Done 8.
Proof.
  assert (Hwf : wf (literal 32 "Hello, World! Hello again!"))
    by (constructor; vm_compute; (reflexivity || discriminate)).
  split; [exact Hwf | split; [lia |]].
  destruct (string_find_char_first _ x6f 5 Hwf ltac:(lia)) as (r & Hrun & _).
  rewrite Hrun. vm_compute in Hrun. exact (eq_sym Hrun).
Defined.

Lemma rfind_char_loop_spec (d : list byte) (c : byte) (n : nat) :
  forall i,
    0 <= i <= Zlen d -> i <= SIZE_MAX ->
    (Z.to_nat i <= n)%nat ->
    exists r,
      rfind_char_loop n d c i = Done r
      /\ ((r = STRING_NPOS /\ forall j, 0 <= j < i -> get d j <> c)
          \/ (0 <= r < i /\ get d r = c /\ forall j, r < j < i -> get d j <> c)).
Proof.
  induction n as [| n IH]; intros i Hi Hmax Hn; simpl;
    destruct (i >? 0) eqn:E;
    try (exists STRING_NPOS; split; [reflexivity |]; left; split; [reflexivity |];
         rewrite Z.gtb_ltb in E; apply Z.ltb_ge in E; intros; lia);
    apply Z.gtb_lt in E; [lia |].
  assert (Hprev : size_sub i 1 = i - 1)
    by (unfold size_sub; apply to_size_small; lia).
  rewrite Hprev, load_ok by lia. simpl.
  destruct (Byte.eqb (get d (i - 1)) c) eqn:Ec.
  - apply Byte.byte_dec_bl in Ec. exists (i - 1). split; [reflexivity |].
    right. split_ands; [lia | lia | exact Ec | intros; lia].
  - apply Byte.eqb_false in Ec.
    destruct (IH (i - 1)) as (r & Hrun & Hr); try lia.
    exists r. split; [exact Hrun |].
    destruct Hr as [[-> Hnone] | (Hrange & Hat & Hafter)].
    + left. split; [reflexivity |]. intros j Hj.
      destruct (Z.eq_dec j (i - 1)) as [-> | Hne]; [exact Ec | apply Hnone; lia].
    + right. split_ands; [lia | lia | exact Hat |]. intros j Hj.
      destruct (Z.eq_dec j (i - 1)) as [-> | Hne]; [exact Ec | apply Hafter; lia].
Qed.

(** X12.  [string_rfind_char] on a well-formed string returns the last
    index not after [min(start_pos, length - 1)] whose content byte is [c],
    and [STRING_NPOS] exactly when there is none; a [start_pos] at or past
    the end, [STRING_NPOS] included, searches from the last byte. *)
Theorem string_rfind_char_last (s : string_t) (c : byte) (start_pos : Z) :
  wf s ->
  0 <= start_pos ->
  exists r,
    string_rfind_char (Some s) c start_pos = Done r
    /\ ((r = STRING_NPOS
         /\ forall j, 0 <= j <= Z.min start_pos (length s - 1) ->
                      get (content s) j <> c)
        \/ (0 <= r <= Z.min start_pos (length s - 1)
            /\ get (content s) r = c
            /\ forall j, r < j <= Z.min start_pos (length s - 1) ->
                         get (content s) j <> c)).
Proof.
  intros [Hcap Hlen Hroom Hsize Hterm] Hstart. unfold string_rfind_char.
  destruct (length s =? 0) eqn:E0.
  - apply Z.eqb_eq in E0. exists STRING_NPOS. split; [reflexivity |].
    left. split; [reflexivity |]. intros; lia.
  - apply Z.eqb_neq in E0.
    set (hi := Z.min start_pos (length s - 1)).
    assert (Hclamp : (if start_pos >=? length s then size_sub (length s) 1
                      else start_pos) = hi).
    { unfold size_sub. rewrite to_size_small by lia. rewrite Z.geb_leb. subst hi.
      destruct (length s <=? start_pos) eqn:E;
        [apply Z.leb_le in E | apply Z.leb_gt in E]; lia. }
    rewrite Hclamp.
    assert (Hhi : 0 <= hi < length s) by lia.
    assert (Hfrom : size_add hi 1 = hi + 1)
      by (unfold size_add; apply to_size_small; lia).
    rewrite Hfrom.
    destruct (rfind_char_loop_spec (data s) c (Z.to_nat (length s)) (hi + 1))
      as (r & Hrun & Hr); try lia.
    exists r. split; [exact Hrun |].
    destruct Hr as [[-> Hnone] | (Hrange & Hat & Hafter)].
    + left. split; [reflexivity |]. intros j Hj.
      rewrite content_get by lia. apply Hnone. lia.
    + right. split_ands; [lia | lia | rewrite content_get by lia; exact Hat |].
      intros j Hj. rewrite content_get by lia. apply Hafter. lia.
Qed.

Lemma string_rfind_char_last_witness :
  wf (literal 32 "Hello, World! Hello again!") /\ 0 <= STRING_NPOS
  /\ string_rfind_char (Some (literal 32 "Hello, World! Hello again!")) x6f STRING_NPOS
     = Done 18.
Proof.
  assert (Hwf : wf (literal 32 "Hello, World! Hello again!"))
    by (constructor; vm_compute; (reflexivity || discriminate)).
  assert (Hpos : 0 <= STRING_NPOS) by (vm_compute; discriminate).
  split; [exact Hwf | split; [exact Hpos |]].
  destruct (string_rfind_char_last _ x6f STRING_NPOS Hwf Hpos) as (r & Hrun & _).
  rewrite Hrun. vm_compute in Hrun. exact (eq_sym Hrun).
Defined.

Lemma get_cons_succ (x : byte) (l : list byte) (j : Z) :
  0 < j -> get (x :: l) j = get l (j - 1).
Proof.
  intros H. unfold get.
  replace (Z.to_nat j) with (S (Z.to_nat (j - 1))) by lia.
  reflexivity.
Qed.

(** [strlen] of a buffer that holds a zero byte is the offset of the first
    one. *)
Lemma strlen_spec (a : list byte) :
  In x00 a ->
  exists m,
    strlen a = Done m
    /\ 0 <= m < Zlen a
    /\ get a m = x00
    /\ forall j, 0 <= j < m -> get a j <> x00.
Proof.
  induction a as [| x a IH]; intros Hin; [contradiction |].
  cbn [strlen]. rewrite Zlen_cons. pose proof (Zlen_nonneg a).
  destruct (Byte.eqb x x00) eqn:E.
  - apply Byte.byte_dec_bl in E. subst x.
    exists 0. split_ands; [reflexivity | lia | lia | reflexivity | intros; lia].
  - apply Byte.eqb_false in E.
    destruct IH as (m & Hrun & Hm & Hz & Hnz);
      [destruct Hin as [Hin | Hin]; [congruence | exact Hin] |].
    rewrite Hrun. cbn [bind]. exists (m + 1).
    split_ands; [reflexivity | lia | lia | |].
    + rewrite get_cons_succ by lia. now replace (m + 1 - 1) with m by lia.
    + intros j Hj. destruct (Z.eq_dec j 0) as [-> | Hne]; [exact E |].
      rewrite get_cons_succ by lia. apply Hnz. lia.
Qed.

Lemma bytes_diff_eq (a : list byte) :
  forall b, List.length a = List.length b -> (bytes_diff a b = 0 <-> a = b).
Proof.
  induction a as [| x a IH]; intros [| y b] Hlen; simpl in *; try discriminate.
  - split; reflexivity.
  - destruct (Byte.eqb x y) eqn:E.
    + apply Byte.byte_dec_bl in E. subst y. rewrite IH by lia.
      split; [now intros -> | now intros [= ->]].
    + pose proof (eqb_byte_val _ _ E) as Hv. apply Byte.eqb_false in E.
      split; [lia | intros [= -> _]; contradiction].
Qed.

Lemma memcmp_zero (a b : list byte) (m r : Z) :
  memcmp a b m = Done r -> (r = 0 <-> take m a = take m b).
Proof.
  unfold memcmp. intros H.
  destruct (in_bounds a 0 m) eqn:Ha; [| discriminate].
  destruct (in_bounds b 0 m) eqn:Hb; [| discriminate].
  apply in_bounds_spec in Ha, Hb. simpl in H. injection H as <-.
  apply bytes_diff_eq.
  pose proof (Zlen_take m a ltac:(lia)). pose proof (Zlen_take m b ltac:(lia)).
  unfold Zlen in *. lia.
Qed.

Lemma find_cstr_loop_spec (d : list byte) (last : Z) (sub : list byte) (m : Z)
  (n : nat) :
  forall i,
    0 <= i <= last + 1 -> 0 < m ->
    last + m <= Zlen d -> m <= Zlen sub -> last < SIZE_MAX ->
    (Z.to_nat (last + 1 - i) <= n)%nat ->
    exists r,
      find_cstr_loop n d last sub m i = Done r
      /\ ((r = STRING_NPOS
           /\ forall j, i <= j <= last -> take m (drop j d) <> take m sub)
          \/ (i <= r <= last
              /\ take m (drop r d) = take m sub
              /\ forall j, i <= j < r -> take m (drop j d) <> take m sub)).
Proof.
  induction n as [| n IH]; intros i Hi Hm Hd Hsub Hmax Hn; simpl;
    destruct (i <=? last) eqn:E;
    try (exists STRING_NPOS; split; [reflexivity |]; left; split; [reflexivity |];
         apply Z.leb_gt in E; intros; lia);
    apply Z.leb_le in E; [lia |].
  assert (Hcmp : exists r, memcmp (drop i d) sub m = Done r).
  { unfold memcmp. rewrite !in_bounds_true; try lia; [simpl; eauto |].
    rewrite Zlen_drop; lia. }
  destruct Hcmp as [r0 Hcmp]. rewrite Hcmp. simpl.
  pose proof (memcmp_zero _ _ _ _ Hcmp) as Hzero.
  destruct (r0 =? 0) eqn:E0.
  - apply Z.eqb_eq in E0. exists i. split; [reflexivity |].
    right. split_ands; [lia | lia | now apply Hzero | intros; lia].
  - apply Z.eqb_neq in E0.
    assert (Hhere : take m (drop i d) <> take m sub) by (intros Heq; apply E0, Hzero, Heq).
    assert (Hnext : size_add i 1 = i + 1)
      by (unfold size_add; apply to_size_small; lia).
    rewrite Hnext.
    destruct (IH (i + 1)) as (r & Hrun & Hr); try lia.
    exists r. split; [exact Hrun |].
    destruct Hr as [[-> Hnone] | (Hrange & Hat & Hbefore)].
    + left. split; [reflexivity |]. intros j Hj.
      destruct (Z.eq_dec j i) as [-> | Hne]; [exact Hhere | apply Hnone; lia].
    + right. split_ands; [lia | lia | exact Hat |]. intros j Hj.
      destruct (Z.eq_dec j i) as [-> | Hne]; [exact Hhere | apply Hbefore; lia].
Qed.

(** A window that lies inside the content is the same in the buffer. *)
Lemma window_content (s : string_t) (j m : Z) :
  wf s -> 0 <= j -> 0 <= m -> j + m <= length s ->
  take m (drop j (data s)) = take m (drop j (content s)).
Proof.
  intros [Hcap Hlen Hroom Hsize Hterm] Hj Hm Hfit.
  unfold content, take, drop. rewrite skipn_firstn_comm, firstn_firstn.
  f_equal. lia.
Qed.

(** X13.  [string_find_cstr] on a well-formed string takes as pattern the
    bytes of the source before its first zero byte, and so does
    [string_find_string] with the buffer of the string it is given, cutting
    a pattern with an embedded zero byte short.  It answers
    [STRING_NPOS] when [start_pos] is at or past the end, even for an empty
    pattern; an empty pattern is otherwise found at [start_pos] itself; and
    a non-empty one is found at the first offset from [start_pos] on where
    the content holds it in full, [STRING_NPOS] meaning there is none. *)
Theorem string_find_cstr_first (s : string_t) (sub : list byte) (start_pos : Z) :
  wf s ->
  In x00 sub ->
  0 <= start_pos ->
  start_pos + Zlen sub <= SIZE_MAX ->
  exists m r,
    strlen sub = Done m
    /\ string_find_cstr (Some s) (Some sub) start_pos = Done r
    /\ (forall t, data t = sub ->
                  string_find_string (Some s) (Some t) start_pos = Done r)
    /\ (length s <= start_pos -> r = STRING_NPOS)
    /\ (start_pos < length s -> m = 0 -> r = start_pos)
    /\ (start_pos < length s -> 0 < m ->
        (r = STRING_NPOS
         /\ forall j, start_pos <= j -> j + m <= length s ->
                      take m (drop j (content s)) <> take m sub)
        \/ (start_pos <= r /\ r + m <= length s
            /\ take m (drop r (content s)) = take m sub
            /\ forall j, start_pos <= j < r ->
                         take m (drop j (content s)) <> take m sub)).
Proof.
  intros Hwf Hin Hstart Hfit. pose proof Hwf as [Hcap Hlen Hroom Hsize Hterm].
  destruct (strlen_spec sub Hin) as (m & Hstrlen & Hm & _ & _).
  exists m.
  assert (Hstring : forall r,
             string_find_cstr (Some s) (Some sub) start_pos = Done r ->
             forall t, data t = sub ->
                       string_find_string (Some s) (Some t) start_pos = Done r).
  { intros r Hr t <-. exact Hr. }
  assert (Hgoal : exists r,
    string_find_cstr (Some s) (Some sub) start_pos = Done r
    /\ (length s <= start_pos -> r = STRING_NPOS)
    /\ (start_pos < length s -> m = 0 -> r = start_pos)
    /\ (start_pos < length s -> 0 < m ->
        (r = STRING_NPOS
         /\ forall j, start_pos <= j -> j + m <= length s ->
                      take m (drop j (content s)) <> take m sub)
        \/ (start_pos <= r /\ r + m <= length s
            /\ take m (drop r (content s)) = take m sub
            /\ forall j, start_pos <= j < r ->
                         take m (drop j (content s)) <> take m sub)));
    [| destruct Hgoal as (r & Hr & H1 & H2 & H3); exists r; split_ands; auto].
  unfold string_find_cstr. rewrite Hstrlen. simpl.
  destruct (start_pos >=? length s) eqn:E.
  - rewrite Z.geb_leb in E. apply Z.leb_le in E.
    exists STRING_NPOS. split_ands; auto; intros; lia.
  - rewrite Z.geb_leb in E. apply Z.leb_gt in E.
    destruct (m =? 0) eqn:E0.
    + apply Z.eqb_eq in E0. exists start_pos. split_ands; auto; intros; lia.
    + apply Z.eqb_neq in E0.
      assert (Hsum : size_add start_pos m = start_pos + m)
        by (unfold size_add; apply to_size_small; lia).
      rewrite Hsum.
      destruct (start_pos + m >? length s) eqn:E1.
      * apply Z.gtb_lt in E1. exists STRING_NPOS.
        split_ands; auto; try (intros; lia).
        intros _ _. left. split; [reflexivity |]. intros; lia.
      * rewrite Z.gtb_ltb in E1. apply Z.ltb_ge in E1.
        assert (Hlast : size_sub (length s) m = length s - m)
          by (unfold size_sub; apply to_size_small; lia).
        rewrite Hlast.
        destruct (find_cstr_loop_spec (data s) (length s - m) sub m
                    (Z.to_nat (length s)) start_pos) as (r & Hrun & Hr); try lia.
        exists r. split_ands; auto; try (intros; lia).
        intros _ _.
        destruct Hr as [[-> Hnone] | (Hrange & Hat & Hbefore)].
        -- left. split; [reflexivity |]. intros j Hj Hjm.
           rewrite <- window_content by (auto; lia). apply Hnone. lia.
        -- right. split_ands; [lia | lia | |].
           ++ rewrite <- window_content by (auto; lia). exact Hat.
           ++ intros j Hj. rewrite <- window_content by (auto; lia).
              apply Hbefore. lia.
Qed.

Lemma string_find_cstr_first_witness :
  exists m r,
    strlen (bytes "World" ++ [x00]) = Done m
    /\ string_find_cstr (Some (literal 32 "Hello, World! Hello again!"))
         (Some (bytes "World" ++ [x00])) 0 = Done r
    /\ m = 5 /\ r = 7.
Proof.
  assert (Hwf : wf (literal 32 "Hello, World! Hello again!"))
    by (constructor; vm_compute; (reflexivity || discriminate)).
  destruct (string_find_cstr_first (literal 32 "Hello, World! Hello again!")
              (bytes "World" ++ [x00]) 0 Hwf)
    as (m & r & Hlen & Hrun & _).
  - vm_compute. auto 10.
  - lia.
  - vm_compute. discriminate.
  - exists m, r. split; [exact Hlen | split; [exact Hrun |]].
    vm_compute in Hlen, Hrun. injection Hlen as <-. injection Hrun as <-.
    split; reflexivity.
Defined.

(** ** Byte-wise transforms *)

Lemma get_map (f : byte -> byte) (l : list byte) (j : Z) :
  0 <= j < Zlen l -> get (map f l) j = f (get l j).
Proof.
  unfold get, Zlen. intros H.
  rewrite (nth_indep _ x00 (f x00)) by (rewrite length_map; lia).
  apply map_nth.
Qed.

Lemma Zlen_map (f : byte -> byte) (l : list byte) : Zlen (map f l) = Zlen l.
Proof. unfold Zlen. now rewrite length_map. Qed.

Section EachByte.
Variable f : byte -> byte.
Variable body : list byte -> Z -> exec (list byte).
Hypothesis body_rewrites :
  forall d i, 0 <= i < Zlen d ->
    exists d', body d i = Done d'
               /\ Zlen d' = Zlen d
               /\ get d' i = f (get d i)
               /\ forall j, 0 <= j -> j <> i -> get d' j = get d j.

Lemma each_byte_spec (len : Z) (n : nat) :
  forall d i,
    0 <= i <= len -> len <= Zlen d -> len < SIZE_MAX ->
    (Z.to_nat (len - i) <= n)%nat ->
    exists d',
      each_byte n body d len i = Done d'
      /\ Zlen d' = Zlen d
      /\ (forall j, 0 <= j < i -> get d' j = get d j)
      /\ (forall j, i <= j < len -> get d' j = f (get d j))
      /\ (forall j, len <= j -> get d' j = get d j).
Proof.
  induction n as [| n IH]; intros d i Hi Hd Hmax Hn; simpl;
    destruct (i <? len) eqn:E;
    try (exists d; apply Z.ltb_ge in E; split_ands; auto; intros; lia);
    apply Z.ltb_lt in E; [lia |].
  destruct (body_rewrites d i) as (d1 & Hrun & Hl1 & Hat & Hother); [lia |].
  rewrite Hrun. simpl.
  assert (Hnext : size_add i 1 = i + 1)
    by (unfold size_add; apply to_size_small; lia).
  rewrite Hnext.
  destruct (IH d1 (i + 1)) as (d' & Hrun' & Hl' & Hlo & Hmid & Hhi); try lia.
  exists d'. split_ands; [exact Hrun' | lia | | |].
  - intros j Hj. rewrite Hlo, Hother by lia. reflexivity.
  - intros j Hj. destruct (Z.eq_dec j i) as [-> | Hne].
    + rewrite Hlo by lia. exact Hat.
    + rewrite Hmid, Hother by lia. reflexivity.
  - intros j Hj. rewrite Hhi, Hother by lia. reflexivity.
Qed.

(** The loop over a well-formed string maps [f] over the content and
    leaves the rest of the buffer alone. *)
Lemma each_byte_string (s : string_t) :
  wf s ->
  exists d',
    each_byte (Z.to_nat (length s)) body (data s) (length s) 0 = Done d'
    /\ wf {| data := d'; length := length s;
             capacity := capacity s; is_owner := is_owner s |}
    /\ take (length s) d' = map f (content s)
    /\ (forall j, 0 <= j < length s -> get d' j = f (get (data s) j))
    /\ (forall j, length s <= j -> get d' j = get (data s) j)
    /\ Zlen d' = Zlen (data s).
Proof.
  intros Hwf. pose proof (Zlen_content s Hwf) as Hc.
  destruct Hwf as [Hcap Hlen Hroom Hsize Hterm].
  destruct (each_byte_spec (length s) (Z.to_nat (length s)) (data s) 0)
    as (d' & Hrun & Hl & _ & Hmid & Hhi); try lia.
  exists d'. split_ands; auto.
  - constructor; simpl; auto; try lia. rewrite Hhi by lia. exact Hterm.
  - apply buffer_ext.
    + rewrite Zlen_map, Zlen_take; lia.
    + intros j Hj. rewrite Zlen_take in Hj by lia.
      rewrite get_take, get_map, content_get, Hmid by lia. reflexivity.
Qed.
End EachByte.

Lemma rewrite_byte_rewrites (f : byte -> byte) (d : list byte) (i : Z) :
  0 <= i < Zlen d ->
  exists d', rewrite_byte f d i = Done d'
             /\ Zlen d' = Zlen d
             /\ get d' i = f (get d i)
             /\ forall j, 0 <= j -> j <> i -> get d' j = get d j.
Proof.
  intros Hi. unfold rewrite_byte. rewrite load_ok by lia. simpl.
  destruct (store_ok d i (f (get d i))) as [d' H]; [lia |].
  exists d'. split; [exact H |]. apply store_inv in H. destruct H.
  split_ands; auto. intros j Hj Hne.
  destruct (Z_lt_le_dec j i); [apply st_lo0 | apply st_hi0]; lia.
Qed.

Lemma replace_byte_rewrites (old_char new_char : byte) (d : list byte) (i : Z) :
  0 <= i < Zlen d ->
  exists d', replace_byte old_char new_char d i = Done d'
             /\ Zlen d' = Zlen d
             /\ get d' i = (if Byte.eqb (get d i) old_char then new_char else get d i)
             /\ forall j, 0 <= j -> j <> i -> get d' j = get d j.
Proof.
  intros Hi. unfold replace_byte. rewrite load_ok by lia. simpl.
  destruct (Byte.eqb (get d i) old_char).
  - destruct (store_ok d i new_char) as [d' H]; [lia |].
    exists d'. split; [exact H |]. apply store_inv in H. destruct H.
    split_ands; auto. intros j Hj Hne.
    destruct (Z_lt_le_dec j i); [apply st_lo0 | apply st_hi0]; lia.
  - exists d. split_ands; auto.
Qed.

Lemma toupper_idempotent (c : byte) : toupper (toupper c) = toupper c.
Proof. destruct c; reflexivity. Qed.

Lemma tolower_idempotent (c : byte) : tolower (tolower c) = tolower c.
Proof. destruct c; reflexivity. Qed.

Lemma toupper_tolower (c : byte) : toupper (tolower c) = toupper c.
Proof. destruct c; reflexivity. Qed.

(** Running a transform whose map is idempotent a second time changes
    nothing. *)
Lemma each_byte_again (f : byte -> byte) (s : string_t) (d' d'' : list byte) :
  (forall c, f (f c) = f c) ->
  Zlen d' = Zlen (data s) -> Zlen d'' = Zlen d' ->
  (forall j, 0 <= j < length s -> get d' j = f (get (data s) j)) ->
  (forall j, 0 <= j < length s -> get d'' j = f (get d' j)) ->
  (forall j, length s <= j -> get d'' j = get d' j) ->
  d'' = d'.
Proof.
  intros Hf Hl' Hl'' Hmid' Hmid'' Hhi''.
  apply buffer_ext; [exact Hl'' |].
  intros j Hj. destruct (Z_lt_le_dec j (length s)) as [Hlt | Hge].
  - rewrite Hmid'', Hmid', Hf by lia. reflexivity.
  - apply Hhi''. lia.
Qed.

(** X14.  [string_to_upper] on a well-formed string always succeeds, maps
    every content byte through [toupper], keeps length, capacity and
    invariant, and is idempotent: a second call returns the same
    structure. *)
Theorem string_to_upper_spec (s : string_t) :
  wf s ->
  exists s',
    string_to_upper (Some s) = Done (STRING_SUCCESS, Some s')
    /\ wf s' /\ length s' = length s /\ capacity s' = capacity s
    /\ content s' = map toupper (content s)
    /\ string_to_upper (Some s') = Done (STRING_SUCCESS, Some s').
Proof.
  intros Hwf. unfold string_to_upper at 1.
  destruct (each_byte_string toupper _ (rewrite_byte_rewrites toupper) s Hwf)
    as (d' & Hrun & Hwf' & Hcontent & Hmid & Hhi & Hl).
  rewrite Hrun. simpl. eexists. split; [reflexivity |].
  split; [exact Hwf' |]. split; [reflexivity |]. split; [reflexivity |].
  split; [exact Hcontent |].
  unfold string_to_upper. simpl.
  destruct (each_byte_string toupper _ (rewrite_byte_rewrites toupper) _ Hwf')
    as (d'' & Hrun' & _ & _ & Hmid' & Hhi' & Hl').
  simpl in Hrun', Hmid', Hhi', Hl'. rewrite Hrun'. simpl.
  rewrite (each_byte_again toupper s d' d'' toupper_idempotent); auto.
Qed.

Lemma string_to_upper_spec_witness :
  wf (literal 8 "Hi, x!")
  /\ exists s',
       string_to_upper (Some (literal 8 "Hi, x!")) = Done (STRING_SUCCESS, Some s')
       /\ content s' = bytes "HI, X!".
Proof.
  assert (Hwf : wf (literal 8 "Hi, x!"))
    by (constructor; vm_compute; (reflexivity || discriminate)).
  split; [exact Hwf |].
  destruct (string_to_upper_spec _ Hwf) as (s' & Hrun & _ & _ & _ & Hcontent & _).
  exists s'. split; [exact Hrun | exact Hcontent].
Defined.

(** X15.  [string_to_lower] on a well-formed string always succeeds and
    maps every content byte through [tolower], keeping length, capacity
    and invariant; upper-casing the result gives the same content as
    upper-casing the original. *)
Theorem string_to_lower_spec (s : string_t) :
  wf s ->
  exists s',
    string_to_lower (Some s) = Done (STRING_SUCCESS, Some s')
    /\ wf s' /\ length s' = length s /\ capacity s' = capacity s
    /\ content s' = map tolower (content s)
    /\ exists s'',
         string_to_upper (Some s') = Done (STRING_SUCCESS, Some s'')
         /\ content s'' = map toupper (content s).
Proof.
  intros Hwf. unfold string_to_lower.
  destruct (each_byte_string tolower _ (rewrite_byte_rewrites tolower) s Hwf)
    as (d' & Hrun & Hwf' & Hcontent & _).
  rewrite Hrun. simpl. eexists. split; [reflexivity |].
  split; [exact Hwf' |]. split; [reflexivity |]. split; [reflexivity |].
  split; [exact Hcontent |].
  unfold string_to_upper. simpl.
  destruct (each_byte_string toupper _ (rewrite_byte_rewrites toupper) _ Hwf')
    as (d'' & Hrun' & _ & Hcontent' & _).
  simpl in Hrun', Hcontent'. rewrite Hrun'. simpl.
  eexists. split; [reflexivity |].
  unfold content at 1. simpl. rewrite Hcontent'.
  unfold content at 1. simpl. rewrite Hcontent, map_map.
  apply map_ext, toupper_tolower.
Qed.

Lemma string_to_lower_spec_witness :
  wf (literal 8 "Hi, x!")
  /\ exists s',
       string_to_lower (Some (literal 8 "Hi, x!")) = Done (STRING_SUCCESS, Some s')
       /\ content s' = bytes "hi, x!".
Proof.
  assert (Hwf : wf (literal 8 "Hi, x!"))
    by (constructor; vm_compute; (reflexivity || discriminate)).
  split; [exact Hwf |].
  destruct (string_to_lower_spec _ Hwf) as (s' & Hrun & _ & _ & _ & Hcontent & _).
  exists s'. split; [exact Hrun | exact Hcontent].
Defined.

(** X16.  [string_replace_char] on a well-formed string always succeeds
    and replaces exactly the content bytes equal to [old_char] by
    [new_char], keeping length, capacity and invariant; when the two bytes
    differ, [string_find_char] no longer finds [old_char] anywhere. *)
Theorem string_replace_char_spec (s : string_t) (old_char new_char : byte) :
  wf s ->
  exists s',
    string_replace_char (Some s) old_char new_char = Done (STRING_SUCCESS, Some s')
    /\ wf s' /\ length s' = length s /\ capacity s' = capacity s
    /\ content s'
       = map (fun x => if Byte.eqb x old_char then new_char else x) (content s)
    /\ (old_char <> new_char ->
        string_find_char (Some s') old_char 0 = Done STRING_NPOS).
Proof.
  intros Hwf. unfold string_replace_char.
  destruct (each_byte_string (fun x => if Byte.eqb x old_char then new_char else x)
              _ (replace_byte_rewrites old_char new_char) s Hwf)
    as (d' & Hrun & Hwf' & Hcontent & Hmid & _ & Hl).
  rewrite Hrun. simpl. eexists. split; [reflexivity |].
  split; [exact Hwf' |]. split; [reflexivity |]. split; [reflexivity |].
  split; [exact Hcontent |].
  intros Hne. destruct Hwf as [Hcap Hlen Hroom Hsize Hterm].
  unfold string_find_char. simpl.
  destruct (0 >=? length s) eqn:E; [reflexivity |].
  rewrite Z.geb_leb in E. apply Z.leb_gt in E.
  destruct (find_char_loop_spec d' (length s) old_char (Z.to_nat (length s)) 0)
    as (r & Hfind & Hr); try lia.
  rewrite Hfind. f_equal.
  destruct Hr as [[-> _] | (Hrange & Hat & _)]; [reflexivity |].
  exfalso. rewrite Hmid in Hat by lia.
  destruct (Byte.eqb (get (data s) r) old_char) eqn:Eb.
  - now apply Hne.
  - apply Byte.eqb_false in Eb. now apply Eb.
Qed.

Lemma string_replace_char_spec_witness :
  wf (literal 8 "Hello")
  /\ exists s',
       string_replace_char (Some (literal 8 "Hello")) x6c x4c
       = Done (STRING_SUCCESS, Some s')
       /\ content s' = bytes "HeLLo".
Proof.
  assert (Hwf : wf (literal 8 "Hello"))
    by (constructor; vm_compute; (reflexivity || discriminate)).
  split; [exact Hwf |].
  destruct (string_replace_char_spec _ x6c x4c Hwf)
    as (s' & Hrun & _ & _ & _ & Hcontent & _).
  exists s'. split; [exact Hrun | exact Hcontent].
Defined.

(** ** Trimming *)

Lemma trim_skip_leading_spec (d : list byte) (len : Z) (n : nat) :
  forall start,
    0 <= start <= len -> len <= Zlen d -> len <= SIZE_MAX ->
    (Z.to_nat (len - start) <= n)%nat ->
    exists st,
      trim_skip_leading n d len start = Done st
      /\ start <= st <= len
      /\ (forall j, start <= j < st -> isspace (get d j) = true)
      /\ (st < len -> isspace (get d st) = false).
Proof.
  induction n as [| n IH]; intros start Hs Hd Hmax Hn; simpl;
    destruct (start <? len) eqn:E;
    try (exists start; apply Z.ltb_ge in E; split_ands; auto; intros; lia);
    apply Z.ltb_lt in E; [lia |].
  rewrite load_ok by lia. simpl.
  destruct (isspace (get d start)) eqn:Esp;
    [| exists start; split_ands; auto; intros; lia].
  assert (Hnext : size_add start 1 = start + 1)
    by (unfold size_add; apply to_size_small; lia).
  rewrite Hnext.
  destruct (IH (start + 1)) as (st & Hrun & Hst & Hsp & Hstop); try lia.
  exists st. split_ands; auto; try lia.
  intros j Hj. destruct (Z.eq_dec j start) as [-> | Hne]; [exact Esp | apply Hsp; lia].
Qed.

Lemma trim_skip_trailing_spec (d : list byte) (start : Z) (n : nat) :
  forall end_,
    0 <= start <= end_ -> end_ <= Zlen d -> end_ <= SIZE_MAX ->
    (Z.to_nat (end_ - start) <= n)%nat ->
    exists e,
      trim_skip_trailing n d start end_ = Done e
      /\ start <= e <= end_
      /\ (forall j, e <= j < end_ -> isspace (get d j) = true)
      /\ (start < e -> isspace (get d (e - 1)) = false).
Proof.
  induction n as [| n IH]; intros end_ Hs Hd Hmax Hn; simpl;
    destruct (end_ >? start) eqn:E;
    try (exists end_; rewrite Z.gtb_ltb in E; apply Z.ltb_ge in E;
         split_ands; auto; intros; lia);
    apply Z.gtb_lt in E; [lia |].
  assert (Hprev : size_sub end_ 1 = end_ - 1)
    by (unfold size_sub; apply to_size_small; lia).
  rewrite Hprev, load_ok by lia. simpl.
  destruct (isspace (get d (end_ - 1))) eqn:Esp;
    [| exists end_; split_ands; auto; intros; lia].
  destruct (IH (end_ - 1)) as (e & Hrun & He & Hsp & Hstop); try lia.
  exists e. split_ands; auto; try lia.
  intros j Hj.
  destruct (Z.eq_dec j (end_ - 1)) as [-> | Hne]; [exact Esp | apply Hsp; lia].
Qed.

(** One run of [string_trim] on a well-formed, non-empty string, in terms
    of the buffer. *)
Lemma string_trim_run (s : string_t) :
  wf s -> 0 < length s ->
  exists start end_ d',
    string_trim (Some s)
    = Done (STRING_SUCCESS,
            Some {| data := d'; length := end_ - start;
                    capacity := capacity s; is_owner := is_owner s |})
    /\ 0 <= start <= end_ /\ end_ <= length s
    /\ Zlen d' = Zlen (data s)
    /\ (forall j, 0 <= j < start -> isspace (get (data s) j) = true)
    /\ (start < length s -> isspace (get (data s) start) = false)
    /\ (forall j, end_ <= j < length s -> isspace (get (data s) j) = true)
    /\ (start < end_ -> isspace (get (data s) (end_ - 1)) = false)
    /\ (forall j, 0 <= j < end_ - start -> get d' j = get (data s) (start + j))
    /\ get d' (end_ - start) = x00.
Proof.
  intros [Hcap Hlen Hroom Hsize Hterm] Hpos. unfold string_trim.
  assert (E : (length s =? 0) = false) by (apply Z.eqb_neq; lia). rewrite E.
  destruct (trim_skip_leading_spec (data s) (length s) (Z.to_nat (length s)) 0)
    as (start & -> & Hstart & Hlead & Hfirst); try lia.
  simpl.
  destruct (trim_skip_trailing_spec (data s) start (Z.to_nat (length s)) (length s))
    as (end_ & -> & Hend & Htrail & Hlast); try lia.
  simpl.
  assert (Hnew : size_sub end_ start = end_ - start)
    by (unfold size_sub; apply to_size_small; lia).
  rewrite Hnew.
  assert (Hmove : exists d1,
    (if start >? 0 then memmove (data s) 0 start (end_ - start) else Done (data s))
    = Done d1 /\ Zlen d1 = Zlen (data s)
    /\ forall j, 0 <= j < end_ - start -> get d1 j = get (data s) (start + j)).
  { destruct (start >? 0) eqn:E0.
    - unfold memmove.
      destruct (memcpy_ok (data s) 0 (data s) start (end_ - start)) as [d1 H1];
        try lia.
      exists d1. split; [exact H1 |]. apply memcpy_inv in H1. destruct H1.
      split; [assumption |]. intros j Hj. rewrite cp_mid0 by lia. f_equal. lia.
    - rewrite Z.gtb_ltb in E0. apply Z.ltb_ge in E0.
      exists (data s). split_ands; auto. intros j Hj. f_equal. lia. }
  destruct Hmove as (d1 & -> & Hlen1 & Hget1). simpl.
  destruct (store_ok d1 (end_ - start) x00) as [d2 H2]; [lia |].
  rewrite H2. simpl. apply store_inv in H2. destruct H2.
  exists start, end_, d2. split_ands; auto; try lia.
  intros j Hj. rewrite st_lo0 by lia. apply Hget1. lia.
Qed.

(** X17.  [string_trim] on a well-formed, non-empty string succeeds and
    keeps the window of the content between the first and the last byte
    that is not white space: everything cut off before and after it is
    white space, the result neither starts nor ends with white space, and
    a string of white space only is left empty.  Capacity and invariant
    are kept. *)
Theorem string_trim_spec (s : string_t) :
  wf s -> 0 < length s ->
  exists s' start end_,
    string_trim (Some s) = Done (STRING_SUCCESS, Some s')
    /\ wf s' /\ capacity s' = capacity s
    /\ 0 <= start <= end_ /\ end_ <= length s
    /\ length s' = end_ - start
    /\ content s' = take (end_ - start) (drop start (content s))
    /\ (forall j, 0 <= j < start -> isspace (get (content s) j) = true)
    /\ (forall j, end_ <= j < length s -> isspace (get (content s) j) = true)
    /\ (0 < length s' ->
        isspace (get (content s') 0) = false
        /\ isspace (get (content s') (length s' - 1)) = false).
Proof.
  intros Hwf Hpos. pose proof (Zlen_content s Hwf) as Hc.
  destruct (string_trim_run s Hwf Hpos)
    as (start & end_ & d' & Hrun & Hse & Hel & Hl & Hlead & Hfirst & Htrail & Hlast
        & Hget & Hterm').
  destruct Hwf as [Hcap Hlen Hroom Hsize Hterm].
  eexists _, start, end_. split; [exact Hrun |]. simpl.
  split; [constructor; simpl; auto; lia |].
  split; [reflexivity |]. split; [lia |]. split; [lia |]. split; [reflexivity |].
  assert (Hcontent' : forall j, 0 <= j < end_ - start ->
            get (take (end_ - start) d') j = get (content s) (start + j)).
  { intros j Hj. rewrite get_take, content_get, Hget by lia. reflexivity. }
  split_ands.
  - unfold content at 1. simpl. apply buffer_ext.
    + rewrite !Zlen_take; try lia. rewrite Zlen_drop; lia.
    + intros j Hj. rewrite Zlen_take in Hj by lia.
      rewrite Hcontent' by lia. rewrite get_take, get_drop by lia. reflexivity.
  - intros j Hj. rewrite content_get by lia. apply Hlead. lia.
  - intros j Hj. rewrite content_get by lia. apply Htrail. lia.
  - intros Hne. unfold content. simpl. rewrite !Hcontent', !content_get by lia.
    split.
    + rewrite Z.add_0_r. apply Hfirst. lia.
    + replace (start + (end_ - start - 1)) with (end_ - 1) by lia. apply Hlast. lia.
Qed.

Lemma string_trim_spec_witness :
  wf (literal 16 "  Hello  ") /\ 0 < length (literal 16 "  Hello  ")
  /\ exists s',
       string_trim (Some (literal 16 "  Hello  ")) = Done (STRING_SUCCESS, Some s')
       /\ wf s'.
Proof.
  assert (Hwf : wf (literal 16 "  Hello  "))
    by (constructor; vm_compute; (reflexivity || discriminate)).
  assert (Hpos : 0 < length (literal 16 "  Hello  ")) by (vm_compute; reflexivity).
  split; [exact Hwf | split; [exact Hpos |]].
  destruct (string_trim_spec _ Hwf Hpos) as (s' & start & end_ & Hrun & Hwf' & _).
  exists s'. split; [exact Hrun | exact Hwf'].
Defined.

Lemma store_same (d : list byte) (i : Z) (b : byte) :
  0 <= i < Zlen d -> get d i = b -> store d i b = Done d.
Proof.
  intros Hi Hb. destruct (store_ok d i b Hi) as [d' H].
  rewrite H. f_equal. apply store_inv in H. destruct H.
  apply buffer_ext; [assumption |].
  intros j Hj. destruct (Z.eq_dec j i) as [-> | Hne]; [congruence |].
  destruct (Z_lt_le_dec j i); [apply st_lo0 | apply st_hi0]; lia.
Qed.

Lemma trim_skip_leading_stops (n : nat) (d : list byte) (len start : Z) :
  0 <= start < len -> len <= Zlen d ->
  isspace (get d start) = false ->
  trim_skip_leading n d len start = Done start.
Proof.
  intros Hs Hd Hsp.
  assert (E : (start <? len) = true) by (apply Z.ltb_lt; lia).
  destruct n; simpl; rewrite E, load_ok by lia; simpl; now rewrite Hsp.
Qed.

Lemma trim_skip_trailing_stops (n : nat) (d : list byte) (start end_ : Z) :
  0 <= start < end_ -> end_ <= Zlen d -> end_ <= SIZE_MAX ->
  isspace (get d (end_ - 1)) = false ->
  trim_skip_trailing n d start end_ = Done end_.
Proof.
  intros Hs Hd Hmax Hsp.
  assert (E : (end_ >? start) = true) by (apply Z.gtb_lt; lia).
  assert (Hprev : size_sub end_ 1 = end_ - 1)
    by (unfold size_sub; apply to_size_small; lia).
  destruct n; simpl; rewrite E, Hprev, load_ok by lia; simpl; now rewrite Hsp.
Qed.

(** X18.  Trimming is idempotent where it can be repeated: when
    [string_trim] has succeeded on a well-formed string and left it
    non-empty, a second call succeeds and returns the same structure; when
    it has left it empty, the second call is refused with
    [STRING_ERROR_NULL_POINTER] and again changes nothing. *)
Theorem string_trim_twice (s s' : string_t) :
  wf s -> 0 < length s ->
  string_trim (Some s) = Done (STRING_SUCCESS, Some s') ->
  (0 < length s' -> string_trim (Some s') = Done (STRING_SUCCESS, Some s'))
  /\ (length s' = 0 ->
      string_trim (Some s') = Done (STRING_ERROR_NULL_POINTER, Some s')).
Proof.
  intros Hwf Hpos H.
  destruct (string_trim_run s Hwf Hpos)
    as (start & end_ & d' & Hrun & Hse & Hel & Hl & _ & Hfirst & _ & Hlast
        & Hget & Hterm').
  rewrite Hrun in H. injection H as <-.
  destruct Hwf as [Hcap Hlen Hroom Hsize Hterm].
  split; [| intros H0; unfold string_trim; now rewrite H0].
  simpl. intros Hne. unfold string_trim. simpl.
  assert (E : (end_ - start =? 0) = false) by (apply Z.eqb_neq; lia).
  rewrite E.
  rewrite trim_skip_leading_stops; try lia;
    [| rewrite Hget by lia; rewrite Z.add_0_r; apply Hfirst; lia].
  simpl.
  rewrite trim_skip_trailing_stops; try lia;
    [| rewrite Hget by lia;
       replace (start + (end_ - start - 1)) with (end_ - 1) by lia;
       apply Hlast; lia].
  simpl.
  assert (Hnew : size_sub (end_ - start) 0 = end_ - start)
    by (unfold size_sub; rewrite Z.sub_0_r; apply to_size_small; lia).
  rewrite Hnew, store_same by (lia || exact Hterm').
  reflexivity.
Qed.

Lemma string_trim_twice_witness :
  wf (literal 16 "  Hello  ") /\ 0 < length (literal 16 "  Hello  ")
  /\ exists s',
       string_trim (Some (literal 16 "  Hello  ")) = Done (STRING_SUCCESS, Some s')
       /\ string_trim (Some s') = Done (STRING_SUCCESS, Some s').
Proof.
  assert (Hwf : wf (literal 16 "  Hello  "))
    by (constructor; vm_compute; (reflexivity || discriminate)).
  assert (Hpos : 0 < length (literal 16 "  Hello  ")) by (vm_compute; reflexivity).
  split; [exact Hwf | split; [exact Hpos |]].
  assert (Hrun : exists x,
             string_trim (Some (literal 16 "  Hello  ")) = Done (STRING_SUCCESS, Some x)
             /\ 0 < length x)
    by (eexists; split; [vm_compute; reflexivity | vm_compute; reflexivity]).
  destruct Hrun as (x & Hrun & Hx).
  exists x. split; [exact Hrun |].
  exact (proj1 (string_trim_twice _ x Hwf Hpos Hrun) Hx).
Defined.

(** ** Equality and comparison with a source text *)

(** X19.  [string_equals] on well-formed or absent strings answers
    [true] exactly when both are absent or both are present with the same
    content: lengths and all bytes, embedded zero bytes included. *)
Theorem string_equals_iff (a b : option string_t) :
  wf_opt a -> wf_opt b ->
  exists e,
    string_equals a b = Done e
    /\ (e = true <-> content_of a = content_of b).
Proof.
  intros Ha Hb. unfold string_equals.
  destruct (string_compare_sign a b Ha Hb) as (r & Hrun & Hsign).
  rewrite Hrun. simpl. exists (r =? 0). split; [reflexivity |].
  rewrite Z.eqb_eq, <- Z.sgn_null_iff, Hsign, sign_of_zero.
  apply absent_first_eq.
Qed.

Lemma string_equals_iff_witness :
  wf_opt (Some (literal 8 "abc")) /\ wf_opt (Some (literal 16 "abc"))
  /\ string_equals (Some (literal 8 "abc")) (Some (literal 16 "abc")) = Done true.
Proof.
  assert (H1 : wf_opt (Some (literal 8 "abc")))
    by (constructor; vm_compute; (reflexivity || discriminate)).
  assert (H2 : wf_opt (Some (literal 16 "abc")))
    by (constructor; vm_compute; (reflexivity || discriminate)).
  split; [exact H1 | split; [exact H2 |]].
  destruct (string_equals_iff _ _ H1 H2) as (e & Hrun & Hiff).
  rewrite Hrun. f_equal. apply Hiff. vm_compute. reflexivity.
Defined.

(** The buffer of a well-formed string: content, terminator, spare room. *)
Lemma wf_data_split (s : string_t) :
  wf s -> data s = content s ++ x00 :: drop (length s + 1) (data s).
Proof.
  intros [Hcap Hlen Hroom Hsize Hterm].
  rewrite <- Hterm, <- drop_get by lia.
  symmetry. apply take_drop.
Qed.

(** X20.  For a well-formed string without embedded zero bytes,
    [string_compare_cstr] is the lexicographic comparison of the content
    with the source text before its terminator (a proper prefix first), and
    [string_equals_cstr] answers [true] exactly when the two are the
    same. *)
Theorem string_compare_cstr_text (s : string_t) (text rest : list byte) :
  wf s ->
  ~ In x00 (content s) ->
  ~ In x00 text ->
  exists r,
    string_compare_cstr (Some s) (Some (text ++ x00 :: rest)) = Done r
    /\ Z.sgn r = sign_of (lex_full (content s) text)
    /\ string_equals_cstr (Some s) (Some (text ++ x00 :: rest)) = Done (r =? 0)
    /\ (r = 0 <-> content s = text).
Proof.
  intros Hwf Hs Ht. unfold string_equals_cstr, string_compare_cstr.
  rewrite (wf_data_split s Hwf).
  destruct (strcmp_text (content s) text (drop (length s + 1) (data s)) rest Hs Ht)
    as (r & Hrun & Hsign).
  exists r. rewrite Hrun. simpl. split_ands; auto.
  rewrite <- Z.sgn_null_iff, Hsign, sign_of_zero. apply lex_full_eq.
Qed.

Lemma string_compare_cstr_text_witness :
  exists r,
    string_compare_cstr (Some (literal 8 "abc")) (Some (bytes "abd" ++ x00 :: [])) = Done r
    /\ Z.sgn r = -1.
Proof.
  assert (Hwf : wf (literal 8 "abc"))
    by (constructor; vm_compute; (reflexivity || discriminate)).
  destruct (string_compare_cstr_text (literal 8 "abc") (bytes "abd") [] Hwf)
    as (r & Hrun & Hsign & _).
  - vm_compute. intros H. repeat (destruct H as [H | H]; [discriminate |]). exact H.
  - vm_compute. intros H. repeat (destruct H as [H | H]; [discriminate |]). exact H.
  - exists r. split; [exact Hrun |]. rewrite Hsign. vm_compute. reflexivity.
Defined.

(** ** Creation from a buffer, a source text or another string *)

Lemma string_create_with_capacity_inv (h : allocator) (cap : Z) (s0 : string_t) :
  1 <= cap ->
  string_create_with_capacity h cap = Done (Some s0) ->
  Zlen (data s0) = cap /\ capacity s0 = cap /\ length s0 = 0 /\ is_owner s0 = true.
Proof.
  intros Hcap H. unfold string_create_with_capacity, malloc in H.
  assert (E : (cap =? 0) = false) by (apply Z.eqb_neq; lia). rewrite E in H.
  destruct (grants h sizeof_string_t); simpl in H; [| discriminate].
  destruct (grants h cap); [| discriminate].
  destruct (store (fresh h 0 cap) 0 x00) as [d | f] eqn:Hd; [| discriminate].
  simpl in H. injection H as <-. simpl.
  apply store_inv in Hd. destruct Hd.
  rewrite Zlen_fresh in * by lia. auto.
Qed.

Lemma string_create_with_capacity_granted (h : allocator) (cap : Z) :
  1 <= cap ->
  (forall k, grants h k = true) ->
  exists s0, string_create_with_capacity h cap = Done (Some s0).
Proof.
  intros Hcap Hgrant. unfold string_create_with_capacity, malloc.
  assert (E : (cap =? 0) = false) by (apply Z.eqb_neq; lia).
  rewrite E, !Hgrant. simpl.
  destruct (store_ok (fresh h 0 cap) 0 x00) as [d Hd]; [rewrite Zlen_fresh; lia |].
  rewrite Hd. simpl. eauto.
Qed.

(** What [string_create_from_buffer] returns when it returns a string. *)
Lemma string_create_from_buffer_spec (h : allocator) (b : list byte) (n : Z)
  (s' : string_t) :
  0 <= n < SIZE_MAX ->
  string_create_from_buffer h (Some b) n = Done (Some s') ->
  wf s' /\ length s' = n /\ content s' = take n b /\ Zlen (take n b) = n
  /\ capacity s' = Z.max (n + 1) STRING_DEFAULT_CAPACITY /\ is_owner s' = true.
Proof.
  intros Hn H. unfold string_create_from_buffer in H.
  assert (Hcap1 : size_add n 1 = n + 1)
    by (unfold size_add; apply to_size_small; lia).
  rewrite Hcap1 in H.
  set (cap := if n + 1 <? STRING_DEFAULT_CAPACITY
              then STRING_DEFAULT_CAPACITY else n + 1) in H.
  assert (Hcap : cap = Z.max (n + 1) STRING_DEFAULT_CAPACITY).
  { subst cap. unfold STRING_DEFAULT_CAPACITY.
    destruct (n + 1 <? 64) eqn:E; [apply Z.ltb_lt in E | apply Z.ltb_ge in E]; lia. }
  assert (Hbody :
    (str <- string_create_with_capacity h cap ;;
     match str with
     | None => Done None
     | Some s =>
         d <- (if n >? 0 then memcpy (data s) 0 b 0 n else Done (data s)) ;;
         d <- store d n x00 ;;
         Done (Some {| data := d; length := n;
                       capacity := capacity s; is_owner := is_owner s |})
     end) = Done (Some s')).
  { destruct (n >? 0); exact H. }
  clear H.
  destruct (string_create_with_capacity h cap) as [[s0 |] | f] eqn:Hc;
    try discriminate.
  simpl in Hbody.
  apply string_create_with_capacity_inv in Hc;
    [| unfold STRING_DEFAULT_CAPACITY in Hcap; lia].
  destruct Hc as (Hl0 & Hc0 & _ & Ho0).
  destruct (if n >? 0 then _ else _) as [d1 | f] eqn:Hcopy; [| discriminate].
  simpl in Hbody.
  destruct (store d1 n x00) as [d2 | f] eqn:Hstore; [| discriminate].
  simpl in Hbody. injection Hbody as <-. simpl.
  apply store_inv in Hstore. destruct Hstore.
  assert (Hcopied :
    Zlen d1 = Zlen (data s0) /\ Zlen (take n b) = n
    /\ (forall j, 0 <= j < n -> get d1 j = get b j)).
  { destruct (n >? 0) eqn:E.
    - apply memcpy_inv in Hcopy. destruct Hcopy.
      split_ands; [assumption | apply Zlen_take; lia |].
      intros j Hj. rewrite cp_mid0 by lia. f_equal. lia.
    - rewrite Z.gtb_ltb in E. apply Z.ltb_ge in E. injection Hcopy as <-.
      replace n with 0 by lia. split_ands; [reflexivity | reflexivity |].
      intros j Hj. lia. }
  destruct Hcopied as (Hlen_d1 & Hnb & Hget).
  assert (Hmax : Z.max (n + 1) STRING_DEFAULT_CAPACITY <= SIZE_MAX).
  { assert (STRING_DEFAULT_CAPACITY <= SIZE_MAX) by (vm_compute; discriminate). lia. }
  split; [constructor; simpl; auto; lia |].
  split; [reflexivity |]. split; [| split; [exact Hnb | split; [lia | exact Ho0]]].
  unfold content. simpl. apply buffer_ext.
  - rewrite Hnb. apply Zlen_take. lia.
  - intros j Hj. rewrite Zlen_take in Hj by lia.
    rewrite !get_take, st_lo0, Hget by lia. reflexivity.
Qed.

Lemma string_create_from_buffer_granted (h : allocator) (b : list byte) (n : Z) :
  0 <= n < SIZE_MAX -> n <= Zlen b ->
  (forall k, grants h k = true) ->
  exists s', string_create_from_buffer h (Some b) n = Done (Some s').
Proof.
  intros Hn Hb Hgrant. unfold string_create_from_buffer.
  assert (Hcap1 : size_add n 1 = n + 1)
    by (unfold size_add; apply to_size_small; lia).
  rewrite Hcap1.
  set (cap := if n + 1 <? STRING_DEFAULT_CAPACITY
              then STRING_DEFAULT_CAPACITY else n + 1).
  assert (Hcap : n + 1 <= cap).
  { subst cap. unfold STRING_DEFAULT_CAPACITY.
    destruct (n + 1 <? 64) eqn:E; [apply Z.ltb_lt in E | apply Z.ltb_ge in E]; lia. }
  assert (Hgoal :
    exists s',
      (str <- string_create_with_capacity h cap ;;
       match str with
       | None => Done None
       | Some s =>
           d <- (if n >? 0 then memcpy (data s) 0 b 0 n else Done (data s)) ;;
           d <- store d n x00 ;;
           Done (Some {| data := d; length := n;
                         capacity := capacity s; is_owner := is_owner s |})
       end) = Done (Some s')).
  { destruct (string_create_with_capacity_granted h cap ltac:(lia) Hgrant) as [s0 Hc].
    rewrite Hc. simpl.
    apply string_create_with_capacity_inv in Hc; [| lia].
    destruct Hc as (Hl0 & _).
    assert (Hcopy : exists d1,
      (if n >? 0 then memcpy (data s0) 0 b 0 n else Done (data s0)) = Done d1
      /\ Zlen d1 = Zlen (data s0)).
    { destruct (n >? 0).
      - destruct (memcpy_ok (data s0) 0 b 0 n) as [d1 H1]; try lia.
        exists d1. split; [exact H1 |]. apply memcpy_inv in H1. now destruct H1.
      - eauto. }
    destruct Hcopy as (d1 & -> & Hl1). simpl.
    destruct (store_ok d1 n x00) as [d2 H2]; [lia |].
    rewrite H2. simpl. eauto. }
  destruct (n >? 0); exact Hgoal.
Qed.

(** X21.  [string_clone] of a well-formed string, when it returns a
    string, returns a well-formed owner of a buffer of its own of
    [max(length + 1, 64)] bytes with the same length and content, which
    [string_compare] finds equal to the original; it returns one whenever
    the allocator grants its requests, and an absent source gives an absent
    clone. *)
Theorem string_clone_spec (h : allocator) (s : string_t) :
  wf s ->
  string_clone h None = Done None
  /\ ((forall k, grants h k = true) ->
      exists s', string_clone h (Some s) = Done (Some s'))
  /\ (forall s',
        string_clone h (Some s) = Done (Some s') ->
        wf s' /\ length s' = length s /\ content s' = content s
        /\ capacity s' = Z.max (length s + 1) STRING_DEFAULT_CAPACITY
        /\ is_owner s' = true
        /\ string_compare (Some s) (Some s') = Done 0).
Proof.
  intros Hwf. pose proof Hwf as [Hcap Hlen Hroom Hsize Hterm].
  split; [reflexivity |]. unfold string_clone. split.
  - intros Hgrant. apply string_create_from_buffer_granted; auto; lia.
  - intros s' H.
    apply string_create_from_buffer_spec in H; [| lia].
    destruct H as (Hwf' & Hlen' & Hcontent' & _ & Hcap' & Hown').
    split_ands; auto.
    destruct (string_compare_sign (Some s) (Some s') Hwf Hwf') as (r & Hrun & Hsign).
    rewrite Hrun. f_equal. apply Z.sgn_null_iff.
    rewrite Hsign. apply sign_of_zero, absent_first_eq. simpl.
    now rewrite Hcontent'.
Qed.

Lemma string_clone_spec_witness :
  wf (literal 8 "Hello")
  /\ exists s',
       string_clone generous (Some (literal 8 "Hello")) = Done (Some s')
       /\ content s' = bytes "Hello" /\ capacity s' = 64.
Proof.
  assert (Hwf : wf (literal 8 "Hello"))
    by (constructor; vm_compute; (reflexivity || discriminate)).
  split; [exact Hwf |].
  destruct (string_clone_spec generous _ Hwf) as (_ & Hex & Hall).
  destruct (Hex (fun _ => eq_refl)) as [s' Hrun].
  destruct (Hall s' Hrun) as (_ & _ & Hcontent & Hcap & _).
  exists s'. split; [exact Hrun | split; [exact Hcontent | exact Hcap]].
Defined.

Lemma In_get (l : list byte) (x : byte) :
  In x l -> exists j, 0 <= j < Zlen l /\ get l j = x.
Proof.
  intros H. destruct (In_nth l x x00 H) as (n & Hn & Hx).
  exists (Z.of_nat n). unfold Zlen, get. rewrite Nat2Z.id. split; [lia | exact Hx].
Qed.

Lemma drop_cons (n : Z) (x : byte) (l : list byte) :
  0 < n -> drop n (x :: l) = drop (n - 1) l.
Proof.
  intros H. unfold drop.
  replace (Z.to_nat n) with (S (Z.to_nat (n - 1))) by lia.
  reflexivity.
Qed.

(** The bytes [strlen] counts hold no zero byte, and one follows them. *)
Lemma strlen_text (a : list byte) :
  forall m,
    strlen a = Done m ->
    0 <= m < Zlen a
    /\ ~ In x00 (take m a)
    /\ a = take m a ++ x00 :: drop (m + 1) a.
Proof.
  induction a as [| x a IH]; intros m H; cbn [strlen] in H; [discriminate |].
  rewrite Zlen_cons. pose proof (Zlen_nonneg a).
  destruct (Byte.eqb x x00) eqn:E.
  - apply Byte.byte_dec_bl in E. subst x. injection H as <-.
    split_ands; [lia | lia | intros [] | reflexivity].
  - apply Byte.eqb_false in E.
    destruct (strlen a) as [m' | f] eqn:Hs; [| discriminate].
    cbn [bind] in H. injection H as <-.
    destruct (IH m' eq_refl) as (Hm & Hnz & Hsplit).
    rewrite take_cons by lia. replace (m' + 1 - 1) with m' by lia.
    split_ands; [lia | lia | |].
    + intros [Hx | Hin]; [congruence | contradiction].
    + rewrite drop_cons by lia. replace (m' + 1 + 1 - 1) with (m' + 1) by lia.
      simpl. f_equal. exact Hsplit.
Qed.

Lemma strlen_of_text (a t : list byte) :
  ~ In x00 a -> strlen (a ++ x00 :: t) = Done (Zlen a).
Proof.
  induction a as [| x a IH]; intros Ha; [reflexivity |].
  cbn [app strlen].
  destruct (Byte.eqb x x00) eqn:E.
  - apply Byte.byte_dec_bl in E. subst x. exfalso. apply Ha. now left.
  - rewrite IH by (intros Hin; apply Ha; now right).
    cbn [bind]. rewrite Zlen_cons. f_equal. lia.
Qed.

(** X22.  [string_create_from_cstr], when it returns a string, returns a
    well-formed one whose content is the source up to, and without, its
    first zero byte: it holds no zero byte, its view has the [strlen] of
    the source, and [string_compare_cstr] finds it equal to the source. *)
Theorem string_create_from_cstr_spec (h : allocator) (c : list byte)
  (s' : string_t) :
  Zlen c <= SIZE_MAX ->
  string_create_from_cstr h (Some c) = Done (Some s') ->
  exists m,
    strlen c = Done m
    /\ wf s' /\ length s' = m /\ content s' = take m c
    /\ ~ In x00 (content s')
    /\ strlen (string_cstr (Some s')) = Done m
    /\ string_compare_cstr (Some s') (Some c) = Done 0.
Proof.
  intros Hfit H. unfold string_create_from_cstr in H.
  destruct (strlen c) as [m | f] eqn:Hs; [| discriminate].
  cbn [bind] in H. exists m. split; [reflexivity |].
  destruct (strlen_text c m Hs) as (Hm & Hnz & Hsplit).
  apply string_create_from_buffer_spec in H; [| lia].
  destruct H as (Hwf' & Hlen' & Hcontent' & Hnb & _).
  split_ands; auto.
  - now rewrite Hcontent'.
  - unfold string_cstr. rewrite (wf_data_split s' Hwf').
    rewrite strlen_of_text by (now rewrite Hcontent').
    rewrite Zlen_content by exact Hwf'. now rewrite Hlen'.
  - unfold string_compare_cstr.
    rewrite (wf_data_split s' Hwf'), Hsplit at 1. rewrite Hcontent'.
    destruct (strcmp_text (take m c) (take m c) (drop (length s' + 1) (data s'))
                (drop (m + 1) c) Hnz Hnz) as (r & Hrun & Hsign).
    rewrite Hrun. f_equal. apply Z.sgn_null_iff.
    rewrite Hsign. apply sign_of_zero, lex_full_eq. reflexivity.
Qed.

Lemma string_create_from_cstr_spec_witness :
  Zlen (bytes "Hi" ++ x00 :: bytes "rest") <= SIZE_MAX
  /\ exists s',
       string_create_from_cstr generous (Some (bytes "Hi" ++ x00 :: bytes "rest"))
       = Done (Some s')
       /\ content s' = bytes "Hi".
Proof.
  assert (Hfit : Zlen (bytes "Hi" ++ x00 :: bytes "rest") <= SIZE_MAX)
    by (vm_compute; discriminate).
  split; [exact Hfit |].
  assert (Hrun : exists x,
             string_create_from_cstr generous (Some (bytes "Hi" ++ x00 :: bytes "rest"))
             = Done (Some x))
    by (eexists; vm_compute; reflexivity).
  destruct Hrun as [x Hrun].
  destruct (string_create_from_cstr_spec generous _ x Hfit Hrun)
    as (m & Hlen & _ & _ & Hcontent & _).
  exists x. split; [exact Hrun |].
  vm_compute in Hlen. injection Hlen as <-. exact Hcontent.
Defined.

(** X23.  The view [string_cstr] of a well-formed string is a valid
    null-terminated text inside the buffer: [strlen] on it returns, is at
    most the length, and equals the length exactly when the content holds
    no zero byte; the view of an absent string is the empty text. *)
Theorem string_cstr_terminated (s : string_t) :
  wf s ->
  strlen (string_cstr None) = Done 0
  /\ exists m,
       strlen (string_cstr (Some s)) = Done m
       /\ 0 <= m <= length s
       /\ take m (string_cstr (Some s)) = take m (content s)
       /\ (m = length s <-> ~ In x00 (content s)).
Proof.
  intros Hwf. pose proof (Zlen_content s Hwf) as Hc.
  pose proof Hwf as [Hcap Hlen Hroom Hsize Hterm].
  split; [reflexivity |]. unfold string_cstr.
  assert (Hin : In x00 (data s)) by (rewrite <- Hterm; apply get_In; lia).
  destruct (strlen_spec (data s) Hin) as (m & Hrun & Hm & Hz & Hnz).
  assert (Hle : m <= length s).
  { destruct (Z_le_gt_dec m (length s)) as [Hle | Hgt]; [exact Hle |].
    exfalso. apply (Hnz (length s)); [lia | exact Hterm]. }
  exists m. split_ands; auto; try lia.
  - unfold content. now rewrite take_take by lia.
  - split.
    + intros -> Hzero. apply In_get in Hzero. destruct Hzero as (j & Hj & Hget).
      rewrite content_get in Hget by lia. apply (Hnz j); [lia | exact Hget].
    + intros Hfree. destruct (Z.eq_dec m (length s)) as [Heq | Hne]; [exact Heq |].
      exfalso. apply Hfree. rewrite <- Hz, <- content_get by lia.
      apply get_In. lia.
Qed.

Lemma string_cstr_terminated_witness :
  wf (literal 8 "Hello")
  /\ strlen (string_cstr (Some (literal 8 "Hello"))) = Done 5.
Proof.
  assert (Hwf : wf (literal 8 "Hello"))
    by (constructor; vm_compute; (reflexivity || discriminate)).
  split; [exact Hwf |].
  destruct (string_cstr_terminated _ Hwf) as (_ & m & Hrun & _).
  rewrite Hrun. vm_compute in Hrun. exact (eq_sym Hrun).
Defined.

(** ** Absent sources *)

(** X25.  An absent source is treated by kind of operation, not
    uniformly: on a well-formed string the assigning functions clear it
    (length 0, empty content, capacity kept), while the appending and
    inserting functions succeed without changing anything, the inserting
    ones without even looking at the index. *)
Theorem absent_source_behaviour (h : allocator) (s : string_t) (i : Z) :
  wf s ->
  (exists s',
      string_clear (Some s) = Done (STRING_SUCCESS, Some s')
      /\ wf s' /\ length s' = 0 /\ content s' = [] /\ capacity s' = capacity s
      /\ string_assign_cstr h (Some s) None = Done (STRING_SUCCESS, Some s')
      /\ string_assign_string h (Some s) None = Done (STRING_SUCCESS, Some s'))
  /\ string_append_cstr h (Some s) None = Done (STRING_SUCCESS, Some s)
  /\ string_append_string h (Some s) None = Done (STRING_SUCCESS, Some s)
  /\ string_insert_cstr h (Some s) i None = Done (STRING_SUCCESS, Some s)
  /\ string_insert_string h (Some s) i None = Done (STRING_SUCCESS, Some s).
Proof.
  intros [Hcap Hlen Hroom Hsize Hterm].
  split; [| repeat split].
  unfold string_assign_cstr, string_assign_string, string_clear.
  destruct (store_ok (data s) 0 x00) as [d H]; [lia |].
  rewrite H. simpl. apply store_inv in H. destruct H.
  eexists. split; [reflexivity |].
  split; [constructor; simpl; auto; lia |].
  repeat split.
Qed.

Lemma absent_source_behaviour_witness :
  wf (literal 8 "Hello")
  /\ string_insert_cstr generous (Some (literal 8 "Hello")) 999 None
     = Done (STRING_SUCCESS, Some (literal 8 "Hello"))
  /\ exists s',
       string_assign_cstr generous (Some (literal 8 "Hello")) None
       = Done (STRING_SUCCESS, Some s')
       /\ length s' = 0 /\ capacity s' = 8.
Proof.
  assert (Hwf : wf (literal 8 "Hello"))
    by (constructor; vm_compute; (reflexivity || discriminate)).
  split; [exact Hwf |].
  destruct (absent_source_behaviour generous (literal 8 "Hello") 999 Hwf)
    as ((s' & _ & _ & Hlen & _ & Hcap & Hassign & _) & _ & _ & Hins & _).
  split; [exact Hins |].
  exists s'. split; [exact Hassign | split; [exact Hlen | exact Hcap]].
Defined.

(** A successful insertion of any number of bytes. *)
Lemma string_insert_buffer_any (h : allocator) (s : string_t) (i : Z)
  (b : list byte) (n : Z) (s' : string_t) :
  wf s ->
  0 <= i <= length s ->
  0 <= n ->
  string_insert_buffer h (Some s) i (Some b) n = Done (STRING_SUCCESS, Some s') ->
  wf s' /\ length s' = length s + n
  /\ content s' = take i (content s) ++ take n b ++ drop i (content s).
Proof.
  intros Hwf Hi Hn H.
  destruct (Z.eq_dec n 0) as [-> | Hpos].
  - unfold string_insert_buffer in H.
    assert (E : (i >? length s) = false) by (rewrite Z.gtb_ltb; apply Z.ltb_ge; lia).
    rewrite E in H. simpl in H. injection H as <-.
    split_ands; auto; [lia |].
    change (take 0 b) with (@nil byte). simpl. symmetry. apply take_drop.
  - destruct (string_insert_buffer_spec h s i b n s' Hwf Hi ltac:(lia) H)
      as (Hwf' & Hlen' & _ & Hcontent').
    auto.
Qed.

(** X27.  [string_create_from_buffer], unlike
    [string_create_with_capacity], applies the default capacity as a
    floor: the string it returns is well formed, holds the first [n] bytes
    of the buffer and owns [max(n + 1, 64)] bytes; it returns one whenever
    the allocator grants its requests, and returns none for an absent
    buffer with a positive length. *)
Theorem string_create_from_buffer_floor (h : allocator) (b : list byte) (n : Z) :
  0 <= n < SIZE_MAX ->
  (0 < n -> string_create_from_buffer h None n = Done None)
  /\ ((forall k, grants h k = true) -> n <= Zlen b ->
      exists s', string_create_from_buffer h (Some b) n = Done (Some s'))
  /\ (forall s',
        string_create_from_buffer h (Some b) n = Done (Some s') ->
        wf s' /\ length s' = n /\ content s' = take n b
        /\ capacity s' = Z.max (n + 1) STRING_DEFAULT_CAPACITY
        /\ is_owner s' = true).
Proof.
  intros Hn. split_ands.
  - intros Hpos. unfold string_create_from_buffer.
    assert (E : (n >? 0) = true) by (apply Z.gtb_lt; lia). now rewrite E.
  - intros Hgrant Hb. now apply string_create_from_buffer_granted.
  - intros s' H. apply string_create_from_buffer_spec in H; [| exact Hn].
    destruct H as (H1 & H2 & H3 & _ & H5 & H6). auto.
Qed.

Lemma string_create_from_buffer_floor_witness :
  0 <= 3 < SIZE_MAX
  /\ exists s',
       string_create_from_buffer generous (Some (bytes "abcdef")) 3 = Done (Some s')
       /\ content s' = bytes "abc" /\ capacity s' = 64.
Proof.
  assert (Hn : 0 <= 3 < SIZE_MAX) by (vm_compute; split; [discriminate | reflexivity]).
  split; [exact Hn |].
  destruct (string_create_from_buffer_floor generous (bytes "abcdef") 3 Hn)
    as (_ & Hex & Hall).
  destruct (Hex (fun _ => eq_refl)) as [s' Hrun]; [vm_compute; discriminate |].
  destruct (Hall s' Hrun) as (_ & _ & Hcontent & Hcap & _).
  exists s'. split; [exact Hrun | split; [exact Hcontent | exact Hcap]].
Defined.

(** ** Ownership and spare capacity *)

(** X28.  A string that does not own its buffer is never grown, shrunk
    or written through the capacity check: assignment, resizing and
    shrinking, and any append or insertion of at least one byte, are
    refused with [STRING_ERROR_NULL_POINTER] and leave the structure as it
    was, even when the bytes would fit the capacity at hand. *)
Theorem non_owner_refused (h : allocator) (s : string_t) (b : list byte)
  (n i : Z) :
  is_owner s = false ->
  0 < n ->
  i <= length s ->
  string_assign_buffer h (Some s) (Some b) n = Done (STRING_ERROR_NULL_POINTER, Some s)
  /\ string_append_buffer h (Some s) (Some b) n
     = Done (STRING_ERROR_NULL_POINTER, Some s)
  /\ string_insert_buffer h (Some s) i (Some b) n
     = Done (STRING_ERROR_NULL_POINTER, Some s)
  /\ string_resize h (Some s) n = Done (STRING_ERROR_NULL_POINTER, Some s)
  /\ string_shrink_to_fit h (Some s) = Done (STRING_ERROR_NULL_POINTER, Some s)
  /\ (capacity s < n ->
      string_reserve h (Some s) n = Done (STRING_ERROR_NULL_POINTER, Some s)).
Proof.
  intros Hown Hn Hi.
  assert (He : forall required,
             string_ensure_capacity h (Some s) required
             = Done (STRING_ERROR_NULL_POINTER, Some s)).
  { intros required. unfold string_ensure_capacity. now rewrite Hown. }
  assert (E1 : (n >? 0) = true) by (apply Z.gtb_lt; lia).
  assert (E2 : (n =? 0) = false) by (apply Z.eqb_neq; lia).
  assert (E3 : (i >? length s) = false) by (rewrite Z.gtb_ltb; apply Z.ltb_ge; lia).
  unfold string_assign_buffer, string_append_buffer, string_insert_buffer,
    string_resize, string_shrink_to_fit, string_reserve.
  rewrite ?E1, ?E2, ?E3, !He, Hown. simpl.
  split_ands; auto.
  intros Hcap. assert (E4 : (n <=? capacity s) = false) by (apply Z.leb_gt; lia).
  now rewrite E4.
Qed.

Lemma non_owner_refused_witness :
  string_append_buffer generous
    (Some {| data := bytes "Hi" ++ [x00; xaa; xaa; xaa];
             length := 2; capacity := 6; is_owner := false |})
    (Some (bytes "!")) 1
  = Done (STRING_ERROR_NULL_POINTER,
          Some {| data := bytes "Hi" ++ [x00; xaa; xaa; xaa];
                  length := 2; capacity := 6; is_owner := false |}).
Proof.
  refine (proj1 (proj2 (non_owner_refused generous _ (bytes "!") 1 0 _ _ _)));
    [reflexivity | lia | vm_compute; discriminate].
Defined.



(** ** Sources apart from the destination and sources inside it *)

(** At a source with storage of its own the functions are the ones read
    before. *)
Lemma string_assign_buffer_from_apart (h : allocator) (str : option string_t)
  (b : list byte) (n : Z) :
  string_assign_buffer_from h str (Some (Apart b)) n
  = string_assign_buffer h str (Some b) n.
Proof. reflexivity. Qed.

Lemma string_append_buffer_from_apart (h : allocator) (str : option string_t)
  (b : list byte) (n : Z) :
  string_append_buffer_from h str (Some (Apart b)) n
  = string_append_buffer h str (Some b) n.
Proof. reflexivity. Qed.

Lemma string_insert_buffer_from_apart (h : allocator) (str : option string_t)
  (i : Z) (b : list byte) (n : Z) :
  string_insert_buffer_from h str i (Some (Apart b)) n
  = string_insert_buffer h str i (Some b) n.
Proof. reflexivity. Qed.

Lemma ranges_overlap_false (a b n : Z) :
  ranges_overlap a b n = false <-> n <= 0 \/ b + n <= a \/ a + n <= b.
Proof.
  unfold ranges_overlap.
  rewrite !andb_false_iff, !Z.ltb_ge. tauto.
Qed.

Lemma ranges_overlap_true (a b n : Z) :
  ranges_overlap a b n = true <-> 0 < n /\ a < b + n /\ b < a + n.
Proof.
  unfold ranges_overlap.
  rewrite !andb_true_iff, !Z.ltb_lt. tauto.
Qed.

(** A copy from inside the destination that returns has read a buffer
    still in place, from a range clear of the one written. *)
Lemma memcpy_from_inside (d : list byte) (doff off : Z) (stale : bool) (n : Z)
  (d' : list byte) :
  memcpy_from d doff (Inside off) stale n = Done d' ->
  stale = false /\ ranges_overlap doff off n = false
  /\ memcpy d doff (drop off d) 0 n = Done d'.
Proof.
  unfold memcpy_from. intros H.
  destruct stale; [discriminate |].
  destruct (ranges_overlap doff off n); [discriminate |].
  split_ands; try reflexivity.
  unfold memcpy in *.
  destruct (in_bounds d doff n); [| discriminate].
  destruct (in_bounds d off n) eqn:Hs; [| discriminate].
  apply in_bounds_spec in Hs.
  rewrite in_bounds_true by (rewrite ?Zlen_drop; lia).
  exact H.
Qed.

(** [string_ensure_capacity] leaves a string with room enough as it is. *)
Lemma string_ensure_capacity_in_place (h : allocator) (s : string_t)
  (required : Z) (s1 : string_t) :
  string_ensure_capacity h (Some s) required = Done (STRING_SUCCESS, Some s1) ->
  negb (capacity s >=? required) = false ->
  s1 = s /\ required <= capacity s.
Proof.
  unfold string_ensure_capacity. intros H E.
  apply negb_false_iff in E.
  destruct (negb (is_owner s)); [discriminate |].
  rewrite E in H. injection H as <-.
  split; [reflexivity |].
  rewrite Z.geb_leb in E. now apply Z.leb_le.
Qed.

(** A successful call with a source inside the destination has not
    reallocated and has copied between ranges clear of each other; the
    bytes it copied are those found at the source after the tail was
    moved, and the call is the one with these bytes in storage of their
    own. *)
Lemma string_assign_buffer_from_inside (h : allocator) (s : string_t)
  (off n : Z) (s' : string_t) :
  string_assign_buffer_from h (Some s) (Some (Inside off)) n
  = Done (STRING_SUCCESS, Some s') ->
  (0 < n -> size_add n 1 <= capacity s /\ ranges_overlap 0 off n = false)
  /\ string_assign_buffer h (Some s) (Some (drop off (data s))) n
     = Done (STRING_SUCCESS, Some s').
Proof.
  unfold string_assign_buffer_from, string_assign_buffer. intros H.
  destruct (string_ensure_capacity h (Some s) (size_add n 1))
    as [[r st] | f] eqn:He; [| destruct (n >? 0); discriminate].
  assert (H' :
    match r, st with
    | STRING_SUCCESS, Some s1 =>
        d <- (if n >? 0
              then memcpy_from (data s1) 0 (Inside off)
                     (negb (capacity s >=? size_add n 1)) n
              else Done (data s1)) ;;
        d <- store d n x00 ;;
        Done (STRING_SUCCESS,
              Some {| data := d; length := n;
                      capacity := capacity s1; is_owner := is_owner s1 |})
    | STRING_SUCCESS, None => Fault OutOfBounds
    | _, _ => Done (r, st)
    end = Done (STRING_SUCCESS, Some s'))
    by (destruct (n >? 0); destruct r; exact H).
  clear H.
  destruct r; try discriminate. destruct st as [s1 |]; [| discriminate].
  destruct (n >? 0) eqn:En.
  - destruct (memcpy_from _ _ _ _ _) as [d1 | f] eqn:Hm; [| discriminate].
    apply memcpy_from_inside in Hm. destruct Hm as (Hst & Hov & Hm).
    destruct (string_ensure_capacity_in_place _ _ _ _ He Hst) as [-> Hreq].
    split; [auto |].
    cbn [bind]. rewrite Hm. exact H'.
  - split; [intros Hn; apply Z.gtb_lt in Hn; congruence |].
    cbn [bind]. exact H'.
Qed.

Lemma string_append_buffer_from_inside (h : allocator) (s : string_t)
  (off n : Z) (s' : string_t) :
  n <> 0 ->
  string_append_buffer_from h (Some s) (Some (Inside off)) n
  = Done (STRING_SUCCESS, Some s') ->
  size_add (size_add (length s) n) 1 <= capacity s
  /\ ranges_overlap (length s) off n = false
  /\ string_append_buffer h (Some s) (Some (drop off (data s))) n
     = Done (STRING_SUCCESS, Some s').
Proof.
  unfold string_append_buffer_from, string_append_buffer. intros Hn H.
  apply Z.eqb_neq in Hn. rewrite Hn in *.
  destruct (string_ensure_capacity h (Some s) _)
    as [[r st] | f] eqn:He; [| destruct (n >? 0); discriminate].
  assert (H' :
    match r, st with
    | STRING_SUCCESS, Some s1 =>
        d <- memcpy_from (data s1) (length s1) (Inside off)
               (negb (capacity s >=? size_add (size_add (length s) n) 1)) n ;;
        d <- store d (size_add (length s) n) x00 ;;
        Done (STRING_SUCCESS,
              Some {| data := d; length := size_add (length s) n;
                      capacity := capacity s1; is_owner := is_owner s1 |})
    | STRING_SUCCESS, None => Fault OutOfBounds
    | _, _ => Done (r, st)
    end = Done (STRING_SUCCESS, Some s'))
    by (destruct (n >? 0); destruct r; exact H).
  clear H.
  destruct r; try discriminate. destruct st as [s1 |]; [| discriminate].
  destruct (memcpy_from _ _ _ _ _) as [d1 | f] eqn:Hm; [| discriminate].
  apply memcpy_from_inside in Hm. destruct Hm as (Hst & Hov & Hm).
  destruct (string_ensure_capacity_in_place _ _ _ _ He Hst) as [-> Hreq].
  split_ands; auto.
  destruct (n >? 0); cbn [bind]; rewrite Hm; exact H'.
Qed.

Lemma string_insert_buffer_from_inside (h : allocator) (s : string_t)
  (i off n : Z) (s' : string_t) :
  n <> 0 ->
  string_insert_buffer_from h (Some s) i (Some (Inside off)) n
  = Done (STRING_SUCCESS, Some s') ->
  size_add (size_add (length s) n) 1 <= capacity s
  /\ ranges_overlap i off n = false
  /\ exists moved,
       (if i <? length s
        then memmove (data s) (i + n) i (size_sub (length s) i)
        else Done (data s)) = Done moved
       /\ string_insert_buffer h (Some s) i (Some (drop off moved)) n
          = Done (STRING_SUCCESS, Some s').
Proof.
  unfold string_insert_buffer_from, string_insert_buffer. intros Hn H.
  apply Z.eqb_neq in Hn. rewrite Hn in *.
  destruct (i >? length s); [discriminate |].
  destruct (string_ensure_capacity h (Some s) _)
    as [[r st] | f] eqn:He; [| destruct (n >? 0); discriminate].
  assert (H' :
    match r, st with
    | STRING_SUCCESS, Some s1 =>
        d <- (if i <? length s1
              then memmove (data s1) (i + n) i (size_sub (length s1) i)
              else Done (data s1)) ;;
        d <- memcpy_from d i (Inside off)
               (negb (capacity s >=? size_add (size_add (length s) n) 1)) n ;;
        d <- store d (size_add (length s) n) x00 ;;
        Done (STRING_SUCCESS,
              Some {| data := d; length := size_add (length s) n;
                      capacity := capacity s1; is_owner := is_owner s1 |})
    | STRING_SUCCESS, None => Fault OutOfBounds
    | _, _ => Done (r, st)
    end = Done (STRING_SUCCESS, Some s'))
    by (destruct (n >? 0); destruct r; exact H).
  clear H.
  destruct r; try discriminate. destruct st as [s1 |]; [| discriminate].
  destruct (if i <? length s1 then _ else _) as [moved | f] eqn:Hmv; [| discriminate].
  cbn [bind] in H'.
  destruct (memcpy_from _ _ _ _ _) as [d1 | f] eqn:Hm; [| discriminate].
  apply memcpy_from_inside in Hm. destruct Hm as (Hst & Hov & Hm).
  destruct (string_ensure_capacity_in_place _ _ _ _ He Hst) as [-> Hreq].
  split_ands; auto.
  exists moved. split; [exact Hmv |].
  destruct (n >? 0); cbn [bind]; rewrite Hmv; cbn [bind]; rewrite Hm; exact H'.
Qed.

Lemma string_append_from_as_insert (h : allocator) (s : string_t)
  (buffer : option region) (len : Z) :
  string_append_buffer_from h (Some s) buffer len
  = string_insert_buffer_from h (Some s) (length s) buffer len.
Proof.
  unfold string_insert_buffer_from, string_append_buffer_from.
  assert (E1 : (length s >? length s) = false)
    by (rewrite Z.gtb_ltb; apply Z.ltb_irrefl).
  rewrite E1.
  destruct buffer as [b |]; destruct (len >? 0); try reflexivity;
    destruct (len =? 0); try reflexivity;
    destruct (string_ensure_capacity h (Some s) _) as [[r st1] | f] eqn:He;
    try reflexivity; simpl;
    destruct r; try reflexivity; destruct st1 as [s1 |]; try reflexivity;
    rewrite (string_ensure_capacity_length _ _ _ _ _ He), Z.ltb_irrefl;
    reflexivity.
Qed.

(** The tail of a string with room for [n] more bytes can be moved up by
    [n]. *)
Lemma tail_moves (s1 : string_t) (i n : Z) :
  wf s1 -> 0 <= i <= length s1 -> 0 <= n -> length s1 + n + 1 <= capacity s1 ->
  exists moved,
    (if i <? length s1
     then memmove (data s1) (i + n) i (size_sub (length s1) i)
     else Done (data s1)) = Done moved
    /\ Zlen moved = capacity s1.
Proof.
  intros [Hcap Hlen Hroom Hsize Hterm] Hi Hn Hfit.
  assert (Hsub : size_sub (length s1) i = length s1 - i)
    by (unfold size_sub; apply to_size_small; lia).
  rewrite Hsub.
  destruct (i <? length s1).
  - unfold memmove.
    destruct (memcpy_ok (data s1) (i + n) (data s1) i (length s1 - i)) as [d1 H1];
      try lia.
    exists d1. split; [exact H1 |]. apply memcpy_inv in H1. destruct H1. lia.
  - eauto.
Qed.

(** With memory to be had, a source inside the destination is read after
    the buffer has moved whenever the string has to grow, and is copied
    onto itself whenever it meets the bytes written: either is a fault. *)
Lemma string_insert_buffer_from_faults (h : allocator) (s : string_t)
  (i off n : Z) :
  wf s ->
  is_owner s = true ->
  (forall k, grants h k = true) ->
  0 <= i <= length s ->
  0 < n ->
  length s + n + 1 <= 2 ^ (SIZE_BITS - 1) ->
  capacity s < length s + n + 1 \/ ranges_overlap i off n = true ->
  string_insert_buffer_from h (Some s) i (Some (Inside off)) n = Fault OutOfBounds.
Proof.
  intros Hwf Hown Hgrant Hi Hn Hfit Hbad.
  assert (Hhalf : 2 ^ (SIZE_BITS - 1) <= SIZE_MAX) by (vm_compute; discriminate).
  pose proof Hwf as [_ Hlen _ _ _].
  unfold string_insert_buffer_from.
  assert (E : (i >? length s) = false) by (rewrite Z.gtb_ltb; apply Z.ltb_ge; lia).
  assert (E2 : (n >? 0) = true) by (apply Z.gtb_lt; lia).
  assert (E3 : (n =? 0) = false) by (apply Z.eqb_neq; lia).
  rewrite E, ?E2, E3.
  assert (Hnew : size_add (length s) n = length s + n)
    by (unfold size_add; apply to_size_small; lia).
  rewrite Hnew.
  assert (Hreq : size_add (length s + n) 1 = length s + n + 1)
    by (unfold size_add; apply to_size_small; lia).
  rewrite Hreq.
  destruct (string_ensure_capacity_granted h s (length s + n + 1) Hwf Hown Hgrant Hfit)
    as [s1 He].
  rewrite He. cbn [bind].
  destruct (string_ensure_capacity_success _ _ _ _ Hwf He)
    as (s1' & ext & [= <-] & Hwf1 & Hlen1 & _ & Hcap1 & _).
  destruct (tail_moves s1 i n Hwf1) as (moved & -> & _); try lia.
  cbn [bind]. unfold memcpy_from.
  destruct (negb (capacity s >=? length s + n + 1)) eqn:Est; [reflexivity |].
  destruct Hbad as [Hgrow | ->]; [| reflexivity].
  apply negb_false_iff in Est. rewrite Z.geb_leb in Est. apply Z.leb_le in Est. lia.
Qed.

(** A source inside a destination with room enough, clear of the bytes
    written, is copied from. *)
Lemma string_insert_buffer_from_in_place (h : allocator) (s : string_t)
  (i off n : Z) :
  wf s ->
  is_owner s = true ->
  0 <= i <= length s ->
  0 < n ->
  length s + n + 1 <= capacity s ->
  ranges_overlap i off n = false ->
  0 <= off -> off + n <= capacity s ->
  exists s',
    string_insert_buffer_from h (Some s) i (Some (Inside off)) n
    = Done (STRING_SUCCESS, Some s').
Proof.
  intros Hwf Hown Hi Hn Hfit Hov Hoff Hend.
  pose proof Hwf as [Hcap Hlen _ Hsize _].
  unfold string_insert_buffer_from.
  assert (E : (i >? length s) = false) by (rewrite Z.gtb_ltb; apply Z.ltb_ge; lia).
  assert (E2 : (n >? 0) = true) by (apply Z.gtb_lt; lia).
  assert (E3 : (n =? 0) = false) by (apply Z.eqb_neq; lia).
  rewrite E, ?E2, E3.
  assert (Hnew : size_add (length s) n = length s + n)
    by (unfold size_add; apply to_size_small; lia).
  rewrite Hnew.
  assert (Hreq : size_add (length s + n) 1 = length s + n + 1)
    by (unfold size_add; apply to_size_small; lia).
  rewrite Hreq.
  assert (Ecap : (capacity s >=? length s + n + 1) = true)
    by (rewrite Z.geb_leb; apply Z.leb_le; lia).
  unfold string_ensure_capacity. rewrite Hown, Ecap. cbn [negb bind].
  destruct (tail_moves s i n Hwf) as (moved & -> & Hm); try lia.
  cbn [bind]. unfold memcpy_from. rewrite Hov.
  destruct (memcpy_ok moved i moved off n) as [d2 H2]; try lia.
  rewrite H2. cbn [bind]. apply memcpy_inv in H2. destruct H2.
  destruct (store_ok d2 (length s + n) x00) as [d3 H3]; [lia |].
  rewrite H3. cbn [bind]. eauto.
Qed.

(** With memory to be had and sizes in the lower half of [size_t], an
    insertion from storage of its own succeeds. *)
Lemma string_insert_buffer_granted (h : allocator) (s : string_t) (i : Z)
  (b : list byte) (n : Z) :
  wf s ->
  is_owner s = true ->
  (forall k, grants h k = true) ->
  0 <= i <= length s ->
  0 <= n <= Zlen b ->
  length s + n + 1 <= 2 ^ (SIZE_BITS - 1) ->
  exists s',
    string_insert_buffer h (Some s) i (Some b) n = Done (STRING_SUCCESS, Some s').
Proof.
  intros Hwf Hown Hgrant Hi Hn Hfit.
  assert (Hhalf : 2 ^ (SIZE_BITS - 1) <= SIZE_MAX) by (vm_compute; discriminate).
  pose proof Hwf as [_ Hlen _ _ _].
  unfold string_insert_buffer.
  assert (E : (i >? length s) = false) by (rewrite Z.gtb_ltb; apply Z.ltb_ge; lia).
  rewrite E.
  destruct (Z.eq_dec n 0) as [-> | Hpos]; [simpl; eauto |].
  assert (E3 : (n =? 0) = false) by (apply Z.eqb_neq; lia).
  rewrite E3.
  assert (Hnew : size_add (length s) n = length s + n)
    by (unfold size_add; apply to_size_small; lia).
  assert (Hreq : size_add (length s + n) 1 = length s + n + 1)
    by (unfold size_add; apply to_size_small; lia).
  rewrite Hnew, Hreq.
  destruct (string_ensure_capacity_granted h s (length s + n + 1) Hwf Hown Hgrant Hfit)
    as [s1 He].
  rewrite He. cbn [bind].
  destruct (string_ensure_capacity_success _ _ _ _ Hwf He)
    as (s1' & ext & [= <-] & Hwf1 & Hlen1 & _ & Hcap1 & _).
  destruct (tail_moves s1 i n Hwf1) as (moved & -> & Hm); try lia.
  cbn [bind].
  destruct (memcpy_ok moved i b 0 n) as [d2 H2]; try lia.
  rewrite H2. cbn [bind]. apply memcpy_inv in H2. destruct H2.
  destruct (store_ok d2 (length s + n) x00) as [d3 H3]; [lia |].
  rewrite H3. cbn [bind]. eauto.
Qed.

(** X7.  When [string_insert_buffer] succeeds.  The string is well formed
    and owns its buffer, the index is inside it, the allocator grants its
    requests and the new length with its terminator does not exceed
    [2^63].  Then an insertion of [n] bytes from a buffer apart from the
    string that holds them returns [STRING_SUCCESS].  From a pointer into
    the string's own buffer, an insertion of at least one byte is
    undefined as soon as the string has to grow (the pointer is read after
    [realloc]) or the source meets the bytes written (the ranges of
    [memcpy] overlap); with room enough, a source inside the buffer and
    clear of the bytes written is inserted with success. *)
Theorem string_insert_buffer_succeeds (h : allocator) (s : string_t) (i n : Z) :
  wf s ->
  is_owner s = true ->
  (forall k, grants h k = true) ->
  0 <= i <= length s ->
  0 <= n ->
  length s + n + 1 <= 2 ^ (SIZE_BITS - 1) ->
  (forall b,
      n <= Zlen b ->
      exists s',
        string_insert_buffer_from h (Some s) i (Some (Apart b)) n
        = Done (STRING_SUCCESS, Some s'))
  /\ (forall off,
        0 < n ->
        capacity s < length s + n + 1 \/ ranges_overlap i off n = true ->
        string_insert_buffer_from h (Some s) i (Some (Inside off)) n
        = Fault OutOfBounds)
  /\ (forall off,
        0 < n ->
        length s + n + 1 <= capacity s ->
        ranges_overlap i off n = false ->
        0 <= off -> off + n <= capacity s ->
        exists s',
          string_insert_buffer_from h (Some s) i (Some (Inside off)) n
          = Done (STRING_SUCCESS, Some s')).
Proof.
  intros Hwf Hown Hgrant Hi Hn Hfit. split_ands.
  - intros b Hb. rewrite string_insert_buffer_from_apart.
    apply string_insert_buffer_granted; auto.
  - intros off Hpos Hbad.
    apply string_insert_buffer_from_faults; auto.
  - intros off Hpos Hroom Hov Hoff Hend.
    apply string_insert_buffer_from_in_place; auto.
Qed.

Lemma string_insert_buffer_succeeds_witness :
  (exists s',
      string_insert_buffer_from generous (Some (literal 8 "Hello")) 5
        (Some (Apart (bytes ", World"))) 7
      = Done (STRING_SUCCESS, Some s'))
  /\ string_insert_buffer_from generous (Some (literal 8 "Hello")) 5
       (Some (Inside 0)) 7
     = Fault OutOfBounds.
Proof.
  destruct (string_insert_buffer_succeeds generous (literal 8 "Hello") 5 7)
    as (Hapart & Hinside & _).
  - constructor; vm_compute; (reflexivity || discriminate).
  - reflexivity.
  - intros k. reflexivity.
  - vm_compute. split; discriminate.
  - vm_compute. discriminate.
  - vm_compute. discriminate.
  - split.
    + apply Hapart. vm_compute. discriminate.
    + apply Hinside; [reflexivity |]. left. reflexivity.
Defined.

Lemma size_add_twice (a n : Z) :
  0 <= a -> 0 <= n -> a + n + 1 <= SIZE_MAX ->
  size_add (size_add a n) 1 = a + n + 1.
Proof.
  intros Ha Hn Hfit. unfold size_add.
  rewrite (to_size_small (a + n)) by lia. apply to_size_small. lia.
Qed.

(** What a successful call with a source inside the destination has
    done. *)
Lemma string_assign_buffer_inside_spec (h : allocator) (s : string_t)
  (off n : Z) (s' : string_t) :
  wf s ->
  0 <= n ->
  string_assign_buffer_from h (Some s) (Some (Inside off)) n
  = Done (STRING_SUCCESS, Some s') ->
  (0 < n -> n + 1 <= capacity s /\ ranges_overlap 0 off n = false)
  /\ wf s' /\ length s' = n
  /\ content s' = take n (drop off (data s)).
Proof.
  intros Hwf Hn H.
  destruct (string_assign_buffer_from_inside _ _ _ _ _ H) as [Hclear Hrun].
  destruct (string_assign_buffer_replaces _ _ _ _ _ _ Hwf Hn Hrun) as [Hok _].
  destruct (Hok eq_refl) as (x & [= <-] & Hwf' & Hlen' & Hcontent' & _).
  split_ands; auto.
  intros Hpos. destruct (Hclear Hpos) as [Hcap Hov].
  split; [| exact Hov].
  pose proof Hwf' as [_ _ Hroom' Hsize' _].
  unfold size_add in Hcap. rewrite to_size_small in Hcap by lia. exact Hcap.
Qed.

Lemma string_append_buffer_inside_spec (h : allocator) (s : string_t)
  (off n : Z) (s' : string_t) :
  wf s ->
  0 <= n ->
  string_append_buffer_from h (Some s) (Some (Inside off)) n
  = Done (STRING_SUCCESS, Some s') ->
  (0 < n ->
   length s + n + 1 <= capacity s /\ ranges_overlap (length s) off n = false)
  /\ wf s' /\ length s' = length s + n
  /\ content s' = content s ++ take n (drop off (data s)).
Proof.
  intros Hwf Hn H.
  destruct (Z.eq_dec n 0) as [-> | Hpos].
  - unfold string_append_buffer_from in H. simpl in H. injection H as <-.
    split_ands; auto; try lia.
    now rewrite take_0, app_nil_r.
  - destruct (string_append_buffer_from_inside _ _ _ _ _ Hpos H)
      as (Hcap & Hov & Hrun).
    destruct (string_append_buffer_grows _ _ _ _ _ Hwf Hn Hrun)
      as (Hwf' & Hlen' & Hcontent' & _).
    split_ands; auto.
    intros _. split; [| exact Hov].
    pose proof Hwf as [_ Hlen _ _ _].
    pose proof Hwf' as [_ _ Hroom' Hsize' _].
    rewrite size_add_twice in Hcap by lia. exact Hcap.
Qed.

Lemma string_insert_buffer_inside_spec (h : allocator) (s : string_t)
  (i off n : Z) (s' : string_t) :
  wf s ->
  0 <= i <= length s ->
  0 <= n ->
  string_insert_buffer_from h (Some s) i (Some (Inside off)) n
  = Done (STRING_SUCCESS, Some s') ->
  (0 < n ->
   length s + n + 1 <= capacity s /\ ranges_overlap i off n = false)
  /\ wf s' /\ length s' = length s + n
  /\ exists moved,
       (if i <? length s
        then memmove (data s) (i + n) i (size_sub (length s) i)
        else Done (data s)) = Done moved
       /\ content s'
          = take i (content s) ++ take n (drop off moved) ++ drop i (content s).
Proof.
  intros Hwf Hi Hn H.
  destruct (Z.eq_dec n 0) as [-> | Hpos].
  - unfold string_insert_buffer_from in H.
    assert (E : (i >? length s) = false) by (rewrite Z.gtb_ltb; apply Z.ltb_ge; lia).
    rewrite E in H. simpl in H. injection H as <-.
    split_ands; auto; try lia.
    pose proof Hwf as [_ _ Hroom _ _].
    destruct (tail_moves s i 0 Hwf) as (moved & Hmv & _); try lia.
    exists moved. split; [exact Hmv |].
    rewrite take_0. simpl. symmetry. apply take_drop.
  - destruct (string_insert_buffer_from_inside _ _ _ _ _ _ Hpos H)
      as (Hcap & Hov & moved & Hmv & Hrun).
    destruct (string_insert_buffer_any _ _ _ _ _ _ Hwf Hi Hn Hrun)
      as (Hwf' & Hlen' & Hcontent').
    split_ands; auto.
    + intros _. split; [| exact Hov].
      pose proof Hwf as [_ Hlen _ _ _].
      pose proof Hwf' as [_ _ Hroom' Hsize' _].
      rewrite size_add_twice in Hcap by lia. exact Hcap.
    + eauto.
Qed.

(** The length [strlen] finds at a pointer into a buffer. *)
Lemma strlen_from_inside (d : list byte) (off m : Z) :
  strlen_from d (Inside off) = Done m ->
  0 <= off /\ 0 <= m /\ off + m < Zlen d
  /\ strlen (drop off d) = Done m
  /\ ~ In x00 (take m (drop off d)).
Proof.
  unfold strlen_from. intros H.
  destruct (in_bounds d off 0) eqn:Hb; [| discriminate].
  apply in_bounds_spec in Hb.
  destruct (strlen_text _ _ H) as (Hm & Hnz & _).
  rewrite Zlen_drop in Hm by lia.
  split_ands; auto; lia.
Qed.

(** X24.  What [string_append_cstr] appends, by the place of the source.
    From a text apart from the string, a successful call appends the
    source up to, and without, its first zero byte.  From a pointer into
    the string's own buffer (what [string_cstr] gave, or later in it), a
    call that appends at least one byte succeeds only when the string had
    room already and the source is clear of the bytes written, and then
    appends the bytes found there; when the string has to grow, and memory
    is to be had, the source is read after [realloc] has replaced it,
    which is undefined. *)
Theorem string_append_cstr_spec (h : allocator) (s : string_t) :
  wf s ->
  (forall c s',
      string_append_cstr h (Some s) (Some (Apart c)) = Done (STRING_SUCCESS, Some s') ->
      exists m,
        strlen c = Done m
        /\ wf s' /\ length s' = length s + m
        /\ content s' = content s ++ take m c
        /\ ~ In x00 (take m c))
  /\ (forall off s',
        string_append_cstr h (Some s) (Some (Inside off))
        = Done (STRING_SUCCESS, Some s') ->
        exists m,
          strlen (drop off (data s)) = Done m
          /\ (0 < m ->
              length s + m + 1 <= capacity s
              /\ ranges_overlap (length s) off m = false)
          /\ wf s' /\ length s' = length s + m
          /\ content s' = content s ++ take m (drop off (data s))
          /\ ~ In x00 (take m (drop off (data s))))
  /\ (forall off m,
        is_owner s = true ->
        (forall k, grants h k = true) ->
        0 <= off ->
        strlen (drop off (data s)) = Done m ->
        0 < m ->
        capacity s < length s + m + 1 <= 2 ^ (SIZE_BITS - 1) ->
        string_append_cstr h (Some s) (Some (Inside off)) = Fault OutOfBounds).
Proof.
  intros Hwf. split_ands.
  - intros c s' H. unfold string_append_cstr in H. cbn [strlen_from] in H.
    destruct (strlen c) as [m | f] eqn:Hs; [| discriminate].
    cbn [bind] in H. exists m. split; [reflexivity |].
    destruct (strlen_text c m Hs) as (Hm & Hnz & _).
    rewrite string_append_buffer_from_apart in H.
    destruct (string_append_buffer_grows h s c m s' Hwf ltac:(lia) H)
      as (Hwf' & Hlen' & Hcontent' & _).
    auto.
  - intros off s' H. unfold string_append_cstr in H.
    destruct (strlen_from (data s) (Inside off)) as [m | f] eqn:Hs; [| discriminate].
    cbn [bind] in H.
    destruct (strlen_from_inside _ _ _ Hs) as (Hoff & Hm & _ & Hlen & Hnz).
    destruct (string_append_buffer_inside_spec _ _ _ _ _ Hwf Hm H)
      as (Hclear & Hwf' & Hlen' & Hcontent').
    exists m. split_ands; auto.
  - intros off m Hown Hgrant Hoff Hs Hm Hgrow.
    unfold string_append_cstr, strlen_from.
    destruct (strlen_text _ _ Hs) as (Hm' & _ & _).
    assert (Hin : off <= Zlen (data s)).
    { destruct (Z.le_gt_cases off (Zlen (data s))) as [Hle | Hgt]; [exact Hle |].
      unfold Zlen, drop in *. rewrite length_skipn in Hm'. lia. }
    rewrite in_bounds_true by lia.
    rewrite Hs. cbn [bind].
    rewrite string_append_from_as_insert.
    pose proof Hwf as [_ Hlen _ _ _].
    apply string_insert_buffer_from_faults; auto; lia.
Qed.

Lemma string_append_cstr_spec_witness :
  wf (literal 8 "Hello, ")
  /\ (exists s',
         string_append_cstr generous (Some (literal 8 "Hello, "))
           (Some (Apart (bytes "Safe World!" ++ [x00]))) = Done (STRING_SUCCESS, Some s')
         /\ content s' = bytes "Hello, Safe World!" /\ length s' = 18)
  /\ string_append_cstr generous (Some (literal 8 "Hello, ")) (Some (Inside 0))
     = Fault OutOfBounds.
Proof.
  assert (Hwf : wf (literal 8 "Hello, "))
    by (constructor; vm_compute; (reflexivity || discriminate)).
  split; [exact Hwf |].
  destruct (string_append_cstr_spec generous _ Hwf) as (Hapart & _ & Hinside).
  split.
  - assert (Hrun : exists x,
               string_append_cstr generous (Some (literal 8 "Hello, "))
                 (Some (Apart (bytes "Safe World!" ++ [x00])))
               = Done (STRING_SUCCESS, Some x))
      by (eexists; vm_compute; reflexivity).
    destruct Hrun as [x Hrun].
    destruct (Hapart _ x Hrun) as (m & Hlen & _ & Hl & Hcontent & _).
    exists x. split; [exact Hrun |].
    vm_compute in Hlen. injection Hlen as <-.
    split; [exact Hcontent | exact Hl].
  - apply (Hinside 0 7).
    + reflexivity.
    + intros k. reflexivity.
    + lia.
    + reflexivity.
    + lia.
    + vm_compute. split; [reflexivity | discriminate].
Defined.

(** X4.  Assignment replaces the whole content, whatever was there
    before.  A successful [string_assign_buffer] leaves the first [n]
    bytes of a buffer apart from the string, a successful
    [string_assign_string] the content of a source string with storage of
    its own, embedded zero bytes included, and a successful
    [string_assign_cstr] the text of such a source before its first zero
    byte; a failed [string_assign_buffer] leaves the structure as it was.
    A source that lies in the string's own buffer is copied only when it
    is clear of the bytes written: assigning a non-empty string to itself
    hands [memcpy] one range twice, which is undefined, and so does
    assigning what [string_cstr] gave for it. *)
Theorem string_assign_replaces (h : allocator) (s : string_t) :
  wf s ->
  (forall b n r st,
      0 <= n ->
      string_assign_buffer h (Some s) (Some b) n = Done (r, st) ->
      (r = STRING_SUCCESS ->
       exists s', st = Some s' /\ wf s' /\ length s' = n
                  /\ content s' = take n b /\ Zlen (take n b) = n)
      /\ (r <> STRING_SUCCESS -> st = Some s))
  /\ (forall src s',
        wf src ->
        string_assign_string h (Some s) (Some (Other src))
        = Done (STRING_SUCCESS, Some s') ->
        wf s' /\ length s' = length src /\ content s' = content src)
  /\ (forall c s',
        string_assign_cstr h (Some s) (Some (Apart c)) = Done (STRING_SUCCESS, Some s') ->
        exists m, strlen c = Done m /\ wf s' /\ length s' = m
                  /\ content s' = take m c /\ ~ In x00 (content s'))
  /\ (forall off len s',
        0 <= len ->
        string_assign_string h (Some s) (Some (Within off len))
        = Done (STRING_SUCCESS, Some s') ->
        (0 < len -> len + 1 <= capacity s /\ ranges_overlap 0 off len = false)
        /\ wf s' /\ length s' = len
        /\ content s' = take len (drop off (data s)))
  /\ (forall off s',
        string_assign_cstr h (Some s) (Some (Inside off))
        = Done (STRING_SUCCESS, Some s') ->
        exists m,
          strlen (drop off (data s)) = Done m
          /\ (0 < m -> m <= off)
          /\ wf s' /\ length s' = m
          /\ content s' = take m (drop off (data s)))
  /\ (is_owner s = true ->
      0 < length s ->
      string_assign_string h (Some s) (Some (itself s)) = Fault OutOfBounds
      /\ (get (data s) 0 <> x00 ->
          string_assign_cstr h (Some s) (Some (Inside 0)) = Fault OutOfBounds)).
Proof.
  intros Hwf. split_ands.
  - intros b n r st Hn H. exact (string_assign_buffer_replaces h s b n r st Hwf Hn H).
  - intros src s' Hsrc H. unfold string_assign_string in H.
    cbn [operand_data operand_length] in H.
    rewrite string_assign_buffer_from_apart in H.
    pose proof Hsrc as [_ Hlen _ _ _].
    destruct (string_assign_buffer_replaces _ _ _ _ _ _ Hwf Hlen H) as [Hok _].
    destruct (Hok eq_refl) as (x & [= <-] & Hwf' & Hlen' & Hcontent' & _).
    auto.
  - intros c s' H. unfold string_assign_cstr in H. cbn [strlen_from] in H.
    destruct (strlen c) as [m | f] eqn:Hs; [| discriminate].
    cbn [bind] in H. exists m. split; [reflexivity |].
    destruct (strlen_text c m Hs) as (Hm & Hnz & _).
    rewrite string_assign_buffer_from_apart in H.
    destruct (string_assign_buffer_replaces h s c m _ _ Hwf (proj1 Hm) H) as [Hok _].
    destruct (Hok eq_refl) as (x & [= <-] & Hwf' & Hlen' & Hcontent' & _).
    split_ands; auto. now rewrite Hcontent'.
  - intros off len s' Hlen H. unfold string_assign_string in H.
    cbn [operand_data operand_length] in H.
    exact (string_assign_buffer_inside_spec _ _ _ _ _ Hwf Hlen H).
  - intros off s' H. unfold string_assign_cstr in H.
    destruct (strlen_from (data s) (Inside off)) as [m | f] eqn:Hs; [| discriminate].
    cbn [bind] in H.
    destruct (strlen_from_inside _ _ _ Hs) as (Hoff & Hm & _ & Hlen & _).
    destruct (string_assign_buffer_inside_spec _ _ _ _ _ Hwf Hm H)
      as (Hclear & Hwf' & Hlen' & Hcontent').
    exists m. split_ands; auto.
    intros Hpos. destruct (Hclear Hpos) as [_ Hov].
    apply ranges_overlap_false in Hov. lia.
  - intros Hown Hpos.
    pose proof Hwf as [Hcap Hlen Hroom Hsize Hterm].
    assert (Hself : forall n,
               0 < n <= length s ->
               string_assign_buffer_from h (Some s) (Some (Inside 0)) n
               = Fault OutOfBounds).
    { intros n Hn. unfold string_assign_buffer_from.
      assert (Hreq : size_add n 1 = n + 1)
        by (unfold size_add; apply to_size_small; lia).
      rewrite Hreq.
      assert (Ecap : (capacity s >=? n + 1) = true)
        by (rewrite Z.geb_leb; apply Z.leb_le; lia).
      unfold string_ensure_capacity. rewrite Hown, Ecap. cbn [negb bind].
      assert (E : (n >? 0) = true) by (apply Z.gtb_lt; lia).
      rewrite E. unfold memcpy_from.
      assert (Hov : ranges_overlap 0 0 n = true)
        by (apply ranges_overlap_true; lia).
      rewrite Hov. reflexivity. }
    split.
    + unfold string_assign_string, itself. cbn [operand_data operand_length].
      apply Hself. lia.
    + intros Hfirst. unfold string_assign_cstr, strlen_from.
      rewrite in_bounds_true by lia.
      destruct (strlen_spec (drop 0 (data s))) as (m & Hs & Hm & Hz & Hbefore).
      { change (drop 0 (data s)) with (data s). rewrite <- Hterm.
        apply get_In. lia. }
      rewrite Hs. cbn [bind].
      change (drop 0 (data s)) with (data s) in *.
      apply Hself. split.
      * destruct (Z.eq_dec m 0) as [-> | Hne]; [congruence | lia].
      * destruct (Z.le_gt_cases m (length s)) as [Hle | Hgt]; [exact Hle |].
        exfalso. apply (Hbefore (length s)); [lia | exact Hterm].
Qed.

Lemma string_assign_replaces_witness :
  wf (literal 8 "Hello")
  /\ (exists s',
         string_assign_buffer generous (Some (literal 8 "Hello")) (Some (bytes "XYZ")) 2
         = Done (STRING_SUCCESS, Some s')
         /\ content s' = bytes "XY")
  /\ string_assign_string generous (Some (literal 8 "Hello"))
       (Some (itself (literal 8 "Hello"))) = Fault OutOfBounds.
Proof.
  assert (Hwf : wf (literal 8 "Hello"))
    by (constructor; vm_compute; (reflexivity || discriminate)).
  split; [exact Hwf |].
  destruct (string_assign_replaces generous _ Hwf) as (Hbuf & _ & _ & _ & _ & Hself).
  split.
  - assert (Hrun : string_assign_buffer generous (Some (literal 8 "Hello"))
                     (Some (bytes "XYZ")) 2 = Done (STRING_SUCCESS, Some _))
      by (vm_compute; reflexivity).
    destruct (Hbuf _ 2 _ _ ltac:(lia) Hrun) as [Hok _].
    destruct (Hok eq_refl) as (s' & Hs & _ & _ & Hcontent & _).
    exists s'. injection Hs as Hs. rewrite Hs in Hrun.
    split; [exact Hrun | exact Hcontent].
  - destruct Hself as [Hs _]; [reflexivity | reflexivity | exact Hs].
Defined.

(** X26.  The other sources of an append or an insertion.  From a source
    string with storage of its own, a successful [string_append_string]
    appends its whole content and a successful [string_insert_string]
    inserts it at the index, embedded zero bytes included; from a text
    apart from the string, [string_insert_cstr] inserts the text before
    its first zero byte; [string_insert_char] inserts the one byte.  A
    non-empty string is appended to itself, or inserted into itself, with
    success only when it had room for twice its length already and, for
    the insertion, the index is its end; then the content is doubled.
    With memory to be had, appending it to itself when it has to grow, or
    inserting it into itself before its end, is undefined. *)
Theorem string_append_insert_sources (h : allocator) (d : string_t) (i : Z) :
  wf d ->
  0 <= i <= length d ->
  (forall src s',
      wf src ->
      string_append_string h (Some d) (Some (Other src)) = Done (STRING_SUCCESS, Some s') ->
      wf s' /\ content s' = content d ++ content src)
  /\ (forall src s',
        wf src ->
        string_insert_string h (Some d) i (Some (Other src))
        = Done (STRING_SUCCESS, Some s') ->
        wf s' /\ content s' = take i (content d) ++ content src ++ drop i (content d))
  /\ (forall c s',
        string_insert_cstr h (Some d) i (Some (Apart c)) = Done (STRING_SUCCESS, Some s') ->
        exists m, strlen c = Done m /\ wf s'
                  /\ content s' = take i (content d) ++ take m c ++ drop i (content d))
  /\ (forall c s',
        string_insert_char h (Some d) i c = Done (STRING_SUCCESS, Some s') ->
        wf s' /\ content s' = take i (content d) ++ [c] ++ drop i (content d))
  /\ (forall s',
        string_append_string h (Some d) (Some (itself d)) = Done (STRING_SUCCESS, Some s') ->
        (0 < length d -> 2 * length d + 1 <= capacity d)
        /\ wf s' /\ content s' = content d ++ content d)
  /\ (forall s',
        string_insert_string h (Some d) i (Some (itself d))
        = Done (STRING_SUCCESS, Some s') ->
        (0 < length d -> i = length d /\ 2 * length d + 1 <= capacity d)
        /\ wf s' /\ content s' = content d ++ content d)
  /\ (forall off s',
        string_insert_cstr h (Some d) i (Some (Inside off))
        = Done (STRING_SUCCESS, Some s') ->
        exists m,
          strlen (drop off (data d)) = Done m
          /\ (0 < m ->
              length d + m + 1 <= capacity d /\ ranges_overlap i off m = false)
          /\ wf s' /\ length s' = length d + m)
  /\ (is_owner d = true ->
      (forall k, grants h k = true) ->
      0 < length d ->
      2 * length d + 1 <= 2 ^ (SIZE_BITS - 1) ->
      (capacity d < 2 * length d + 1 ->
       string_append_string h (Some d) (Some (itself d)) = Fault OutOfBounds)
      /\ (i < length d \/ capacity d < 2 * length d + 1 ->
          string_insert_string h (Some d) i (Some (itself d)) = Fault OutOfBounds)).
Proof.
  intros Hwf Hi.
  pose proof Hwf as [Hcap Hlen Hroom Hsize Hterm].
  assert (Hwhole : take (length d) (drop 0 (data d)) = content d) by reflexivity.
  split_ands.
  - intros src s' Hsrc H. unfold string_append_string in H.
    cbn [operand_data operand_length] in H.
    rewrite string_append_buffer_from_apart in H.
    pose proof Hsrc as [_ Hlens _ _ _].
    destruct (string_append_buffer_grows _ _ _ _ _ Hwf Hlens H) as (Hwf' & _ & Hc & _).
    auto.
  - intros src s' Hsrc H. unfold string_insert_string in H.
    cbn [operand_data operand_length] in H.
    rewrite string_insert_buffer_from_apart in H.
    pose proof Hsrc as [_ Hlens _ _ _].
    destruct (string_insert_buffer_any _ _ _ _ _ _ Hwf Hi Hlens H) as (Hwf' & _ & Hc).
    auto.
  - intros c s' H. unfold string_insert_cstr in H. cbn [strlen_from] in H.
    destruct (strlen c) as [m | f] eqn:Hs; [| discriminate].
    cbn [bind] in H. exists m. split; [reflexivity |].
    destruct (strlen_text c m Hs) as (Hm & _ & _).
    rewrite string_insert_buffer_from_apart in H.
    destruct (string_insert_buffer_any h d i c m s' Hwf Hi (proj1 Hm) H)
      as (Hwf' & _ & Hc).
    auto.
  - intros c s' H. unfold string_insert_char in H.
    destruct (string_insert_buffer_any h d i [c] 1 s' Hwf Hi ltac:(lia) H)
      as (Hwf' & _ & Hc).
    auto.
  - intros s' H. unfold string_append_string, itself in H.
    cbn [operand_data operand_length] in H.
    destruct (string_append_buffer_inside_spec _ _ _ _ _ Hwf Hlen H)
      as (Hclear & Hwf' & _ & Hc).
    rewrite Hwhole in Hc.
    split_ands; auto.
    intros Hpos. destruct (Hclear Hpos) as [Hfit _]. lia.
  - intros s' H. unfold string_insert_string, itself in H.
    cbn [operand_data operand_length] in H.
    destruct (string_insert_buffer_inside_spec _ _ _ _ _ _ Hwf Hi Hlen H)
      as (Hclear & Hwf' & _ & moved & Hmv & Hc).
    destruct (Z.eq_dec (length d) 0) as [Hz | Hnz].
    + split_ands; auto; [lia |].
      rewrite Hc, Hz, take_0. simpl.
      assert (Hnil : content d = []).
      { apply buffer_ext; [rewrite Zlen_content by exact Hwf; exact Hz |].
        intros j Hj. rewrite Zlen_content in Hj by exact Hwf. lia. }
      rewrite take_drop, Hnil. reflexivity.
    + destruct (Hclear ltac:(lia)) as [Hfit Hov].
      apply ranges_overlap_false in Hov.
      assert (Hend : i = length d) by lia.
      split_ands; auto; [lia |].
      rewrite Hend, Z.ltb_irrefl in Hmv. injection Hmv as <-.
      rewrite Hc, Hend, Hwhole.
      replace (take (length d) (content d)) with (content d)
        by (symmetry; apply take_all; rewrite Zlen_content by exact Hwf; lia).
      replace (drop (length d) (content d)) with (@nil byte).
      * now rewrite app_nil_r.
      * symmetry. apply buffer_ext.
        -- rewrite Zlen_drop, Zlen_content by (rewrite ?Zlen_content; auto; lia).
           unfold Zlen. simpl. lia.
        -- intros j Hj.
           rewrite Zlen_drop, Zlen_content in Hj by (rewrite ?Zlen_content; auto; lia).
           lia.
  - intros off s' H. unfold string_insert_cstr in H.
    destruct (strlen_from (data d) (Inside off)) as [m | f] eqn:Hs; [| discriminate].
    cbn [bind] in H.
    destruct (strlen_from_inside _ _ _ Hs) as (Hoff & Hm & _ & Hl & _).
    destruct (string_insert_buffer_inside_spec _ _ _ _ _ _ Hwf Hi Hm H)
      as (Hclear & Hwf' & Hlen' & _).
    exists m. split_ands; auto.
  - intros Hown Hgrant Hpos Hhalf. split.
    + intros Hgrow. unfold string_append_string, itself.
      cbn [operand_data operand_length].
      rewrite string_append_from_as_insert.
      apply string_insert_buffer_from_faults; auto; lia.
    + intros Hbad. unfold string_insert_string, itself.
      cbn [operand_data operand_length].
      apply string_insert_buffer_from_faults; auto; try lia.
      destruct Hbad as [Hbefore | Hgrow]; [right | left; lia].
      apply ranges_overlap_true. lia.
Qed.

Lemma string_append_insert_sources_witness :
  wf (literal 16 "Hello World!") /\ 0 <= 5 <= length (literal 16 "Hello World!")
  /\ (exists s',
         string_insert_char generous (Some (literal 16 "Hello World!")) 5 x2c
         = Done (STRING_SUCCESS, Some s')
         /\ content s' = bytes "Hello" ++ bytes "," ++ bytes " World!")
  /\ string_insert_string generous (Some (literal 16 "Hello World!")) 5
       (Some (itself (literal 16 "Hello World!"))) = Fault OutOfBounds.
Proof.
  assert (Hwf : wf (literal 16 "Hello World!"))
    by (constructor; vm_compute; (reflexivity || discriminate)).
  assert (Hi : 0 <= 5 <= length (literal 16 "Hello World!"))
    by (vm_compute; split; discriminate).
  split; [exact Hwf | split; [exact Hi |]].
  destruct (string_append_insert_sources generous _ 5 Hwf Hi)
    as (_ & _ & _ & Hchar & _ & _ & _ & Hself).
  split.
  - assert (Hrun : exists x,
               string_insert_char generous (Some (literal 16 "Hello World!")) 5 x2c
               = Done (STRING_SUCCESS, Some x))
      by (eexists; vm_compute; reflexivity).
    destruct Hrun as [x Hrun].
    destruct (Hchar x2c x Hrun) as (_ & Hcontent).
    exists x. split; [exact Hrun | exact Hcontent].
  - apply Hself.
    + reflexivity.
    + intros k. reflexivity.
    + reflexivity.
    + vm_compute. discriminate.
    + left. reflexivity.
Defined.
